(** * fn-location-loader: the device loader and the location locater

    A shallow embedding of the two scripts of the repository,
    [fn-device-loader.py] and [fn-location-locater.py], and the properties
    of their retry loops, lookups and record drivers.

    Layout: the Python runtime pieces both scripts rely on (strings,
    exceptions, the effects of [requests], [time.sleep] and [logging])
    come first, then one module per script with its definitions, then the
    theorems. *)

From stdpp Require Import gmap strings list.
From Stdlib Require Import Ascii QArith.

Local Open Scope string_scope.
Local Open Scope list_scope.
Local Open Scope Z_scope.

(** ** Python strings

    A [str] is modelled as a Rocq [string]: a sequence of characters with
    code points below 256.  [strip] and [lower] follow [str.strip()] and
    [str.lower()] on that range. *)

Module Py.

(** [str.isspace] on one character, the set [str.strip()] removes. *)
Definition is_space (c : ascii) : bool :=
  let n := nat_of_ascii c in
  ((9 <=? n) && (n <=? 13) || (28 <=? n) && (n <=? 32)
   || (n =? 133) || (n =? 160))%nat.

Fixpoint lstrip (s : string) : string :=
  match s with
  | EmptyString => EmptyString
  | String c s' => if is_space c then lstrip s' else s
  end.

(** What [str.rstrip()] leaves: a character survives when it is not a
    space or something that survives follows it. *)
Fixpoint rstrip (s : string) : string :=
  match s with
  | EmptyString => EmptyString
  | String c s' =>
      match rstrip s' with
      | EmptyString => if is_space c then EmptyString else String c EmptyString
      | r => String c r
      end
  end.

Definition strip (s : string) : string := rstrip (lstrip s).

Definition lower_char (c : ascii) : ascii :=
  let n := nat_of_ascii c in
  if ((65 <=? n) && (n <=? 90)
      || (192 <=? n) && (n <=? 222) && negb (n =? 215))%nat
  then ascii_of_nat (n + 32) else c.

Fixpoint lower (s : string) : string :=
  match s with
  | EmptyString => EmptyString
  | String c s' => String (lower_char c) (lower s')
  end.

(** Truth value of a [str]: the empty string is false. *)
Definition truthy (s : string) : bool :=
  match s with EmptyString => false | _ => true end.

(** [value or ""] for a cell that may be [None]. *)
Definition or_empty (cell : option string) : string := default "" cell.

(** The exceptions the scripts raise or catch.  [HTTPError] is a
    subclass of [requests.RequestException]; [ConnectionError] stands
    for every other [RequestException]: no response was received, or
    the request could not be built ([InvalidJSONError]).  The scripts
    handle all of these in one [except requests.RequestException]. *)
Inductive exn :=
| HTTPError (status : Z)
| ConnectionError
| ValueError (msg : string)
| KeyError (key : string).

Inductive level := DEBUG | INFO | WARNING | ERROR.

(** The CSV file as [csv.DictReader] presents it: the header and one
    dictionary per row (a cell the row lacks has no key). *)
Record csv_file := CsvFile {
  fieldnames : list string;
  rows : list (gmap string string)
}.

(** The two local variables of every retry loop. *)
Record retry := Retry {
  attempt : Z;
  delay : Q
}.

End Py.
Export Py.

(** ** Effects

    A run interleaves three kinds of effect: actions on the outside world
    (HTTP requests, a file written), [time.sleep] and calls to the logger.
    They are recorded, in order, in the [trace] of the [world].  The
    remote side is a script of answers: [net w n] is what the [n]-th
    request of the run receives.  A logger call is recorded with its level
    and its format string; the interpolated arguments are left out. *)

(** How a computation ends.  [SysExit] is Python's [SystemExit], which
    [except Exception] does not catch.  [OutOfFuel] is the model's own: a
    loop given too little fuel. *)
Inductive outcome (A : Type) :=
| Return (a : A)
| Raise (e : exn)
| SysExit (code : Z)
| OutOfFuel.

Arguments Return {A} a.
Arguments Raise {A} e.
Arguments SysExit {A} code.
Arguments OutOfFuel {A}.

(** Leaving an iteration of a [while] loop: go round again with a new loop
    state, or [return] from the enclosing function. *)
Inductive flow (S A : Type) :=
| Next (s : S)
| Returned (a : A).

Arguments Next {S A} s.
Arguments Returned {S A} a.

Section Runtime.

Context {X P : Type}.

Inductive event :=
| Act (x : X)
| Slept (d : Q)
| Logged (lvl : level) (fmt : string).

(** What one request receives: no response at all, or a status code
    with a decoded body. *)
Inductive response :=
| NoResponse
| Reply (status : Z) (body : P).

Record world := World {
  net : nat → response;
  sent : nat;
  trace : list event
}.

Definition M (A : Type) : Type := world → outcome A * world.

Definition ret {A} (a : A) : M A := λ w, (Return a, w).

Definition bind {A B} (m : M A) (f : A → M B) : M B :=
  λ w, match m w with
       | (Return a, w') => f a w'
       | (Raise e, w') => (Raise e, w')
       | (SysExit c, w') => (SysExit c, w')
       | (OutOfFuel, w') => (OutOfFuel, w')
       end.

Definition raise {A} (e : exn) : M A := λ w, (Raise e, w).
Definition sys_exit {A} (code : Z) : M A := λ w, (SysExit code, w).
Definition out_of_fuel {A} : M A := λ w, (OutOfFuel, w).

(** [try: m  except ...: h e].  Only exceptions reach the handler; a
    handler that does not match re-raises. *)
Definition try_except {A} (m : M A) (h : exn → M A) : M A :=
  λ w, match m w with
       | (Raise e, w') => h e w'
       | r => r
       end.

Definition record (e : event) : M unit :=
  λ w, (Return tt, World (net w) (sent w) (trace w ++ [e])).

Definition log (lvl : level) (fmt : string) : M unit := record (Logged lvl fmt).
Definition sleep (d : Q) : M unit := record (Slept d).
Definition emit (x : X) : M unit := record (Act x).

(** One call of [requests.get/post/patch]: the request goes out, the
    next answer of the script comes back, a missing response raises. *)
Definition request (x : X) : M (Z * P) :=
  λ w, let w' := World (net w) (S (sent w)) (trace w ++ [Act x]) in
       match net w (sent w) with
       | NoResponse => (Raise ConnectionError, w')
       | Reply status body => (Return (status, body), w')
       end.

(** [Response.raise_for_status()] of the requests library: raises
    [HTTPError] exactly for the statuses 400 to 599. *)
Definition raise_for_status (status : Z) : M unit :=
  if (400 <=? status) && (status <? 600) then raise (HTTPError status) else ret tt.

(** [while cond(s): body].  The result tells whether the loop ran off
    its condition (and with which state) or the body returned. *)
Fixpoint while {S A} (fuel : nat) (cond : S → bool) (body : S → M (flow S A))
    (s : S) : M (flow S A) :=
  match fuel with
  | O => out_of_fuel
  | Datatypes.S fuel' =>
      if cond s then
        bind (body s) (λ r,
          match r with
          | Next s' => while fuel' cond body s'
          | Returned a => ret (Returned a)
          end)
      else ret (Next s)
  end.

(** The events that stay inside the process. *)
Definition quiet (e : event) : bool :=
  match e with Logged _ _ => true | _ => false end.

(** The trace without the logger calls. *)
Definition effects (t : list event) : list event :=
  List.filter (λ e, negb (quiet e)) t.


(** [ran w w' n es]: going from [w] to [w'] the run sent [n] requests
    to the same remote side, and what it did besides logging is [es]. *)
Definition ran (w w' : world) (n : nat) (es : list event) : Prop :=
  net w' = net w ∧ sent w' = (sent w + n)%nat ∧
  ∃ new, trace w' = trace w ++ new ∧ effects new = es.

(** [grows ok w w']: from [w] to [w'] the trace only gained events that
    satisfy [ok]. *)
Definition grows (ok : event → Prop) (w w' : world) : Prop :=
  net w' = net w ∧ (sent w ≤ sent w')%nat ∧
  ∃ new, trace w' = trace w ++ new ∧ Forall ok new.

(** The world once the events [es] have happened without a request. *)
Definition after (w : world) (es : list event) : world :=
  World (net w) (sent w) (trace w ++ es).

(** No constraint on the events gained. *)
Definition anything (e : event) : Prop := True.

(** An answer the retry loops take for a reason to try again: none at
    all, or a status from 500 to 599. *)
Definition retryable (r : response) : Prop :=
  match r with
  | NoResponse => True
  | Reply status _ => 500 ≤ status < 600
  end.

(** The requests and other actions of a trace, in order. *)
Definition actions (t : list event) : list X :=
  omap (λ e, match e with Act x => Some x | _ => None end) t.

(** [attempts w w' k x]: from [w] to [w'] the run sent the request [x]
    [k] times and no other, and besides that only slept and logged. *)
Definition attempts (w w' : world) (k : nat) (x : X) : Prop :=
  net w' = net w ∧ sent w' = (sent w + k)%nat ∧
  ∃ new, trace w' = trace w ++ new ∧ actions new = replicate k x.

(** An outcome a caller can act on: a value or an exception. *)
Definition settled {A} (o : outcome A) : Prop :=
  match o with
  | Return _ | Raise _ => True
  | SysExit _ | OutOfFuel => False
  end.

End Runtime.

Arguments event : clear implicits.
Arguments response : clear implicits.
Arguments world : clear implicits.
Arguments M : clear implicits.
Arguments Slept {X} d.
Arguments Logged {X} lvl fmt.
Arguments NoResponse {P}.

Notation "x <- m ;; k" := (bind m (λ x, k))
  (at level 100, m at next level, right associativity, only parsing).
Notation "m ;;; k" := (bind m (λ _, k))
  (at level 100, right associativity, only parsing).

(** ** The device loader, [fn-device-loader.py] *)

Module DeviceLoader.

(** Retry settings (lines 38-39). *)
Definition PATCH_MAX_RETRIES : Z := 3.
Definition PATCH_RETRY_BACKOFF : Q := 2.

(** [TAG_PATTERN = ^[A-Za-z0-9_-]+$] used with [fullmatch]: one or more
    characters, each a letter, a digit, an underscore or a hyphen. *)
Definition tag_char (c : ascii) : bool :=
  let n := nat_of_ascii c in
  ((65 <=? n) && (n <=? 90) || (97 <=? n) && (n <=? 122)
   || (48 <=? n) && (n <=? 57) || (n =? 95) || (n =? 45))%nat.

Definition TAG_PATTERN_fullmatch (s : string) : bool :=
  truthy s && forallb tag_char (String.list_ascii_of_string s).

(** The requests the script sends. *)
Inductive action :=
| GetLocations
| GetDeviceTags
| PatchAtlas (device location_id : string)
| PostDeviceTags (device tag : string).

(** One object of the locations collection as the script reads it:
    [str(loc.get("id", ""))] and [str(loc.get("name", ""))]. *)
Record remote_location := RemoteLocation {
  remote_id : string;
  remote_name : string
}.

(** A decoded response body: the list of locations, the [tags] list of
    the device-tags object (each item by its [name], empty when it has
    none), or anything else. *)
Inductive body :=
| Opaque
| LocationList (data : list remote_location)
| TagList (names : list string).

Local Abbreviation Dev := (M action body).

Record entry := Entry {
  device : string;
  location : string;
  tag : string
}.

Inductive row_error :=
| MissingDeviceOrLocation (idx : Z)
| InvalidTag (idx : Z) (tag : string).

(** The row loop of [load_devices_from_csv] (lines 108-127). *)
Fixpoint load_rows (has_tag_col : bool) (idx : Z) (rs : list (gmap string string))
    (devices : list entry) (errors : list row_error) : list entry * list row_error :=
  match rs with
  | [] => (devices, errors)
  | row :: rest =>
      let device := strip (or_empty (row !! "device")) in
      let location_name := strip (or_empty (row !! "location")) in
      let tag := if has_tag_col then strip (or_empty (row !! "tag")) else "" in
      if negb (truthy device) || negb (truthy location_name) then
        load_rows has_tag_col (idx + 1) rest devices
          (errors ++ [MissingDeviceOrLocation idx])
      else if truthy tag && negb (TAG_PATTERN_fullmatch tag) then
        load_rows has_tag_col (idx + 1) rest devices (errors ++ [InvalidTag idx tag])
      else
        load_rows has_tag_col (idx + 1) rest
          (devices ++ [Entry device location_name tag]) errors
  end.

Definition load_devices_from_csv (csv : csv_file) : Dev (list entry) :=
  let missing :=
    List.filter (λ c, negb (bool_decide (c ∈ fieldnames csv))) ["device"; "location"] in
  match missing with
  | _ :: _ => raise (ValueError "CSV missing required columns")
  | [] =>
      let has_tag_col := bool_decide ("tag" ∈ fieldnames csv) in
      let '(devices, errors) := load_rows has_tag_col 2 (rows csv) [] [] in
      match errors with
      | _ :: _ => raise (ValueError "CSV validation errors")
      | [] =>
          log INFO "Loaded %d device mapping(s) from CSV" ;;;
          ret devices
      end
  end.

(** The loop of [fetch_location_lookup] (lines 149-163). *)
Fixpoint build_lookup (data : list remote_location) (name_to_id : gmap string string)
    : Dev (gmap string string) :=
  match data with
  | [] => ret name_to_id
  | loc :: rest =>
      let loc_id := strip (remote_id loc) in
      let name := strip (remote_name loc) in
      if negb (truthy loc_id) || negb (truthy name) then
        build_lookup rest name_to_id
      else
        let key := lower name in
        (match name_to_id !! key with
         | Some old =>
             if bool_decide (old ≠ loc_id)
             then log WARNING "Duplicate location name detected: '%s' -> ids [%s, %s]"
             else ret tt
         | None => ret tt
         end) ;;;
        build_lookup rest (<[key := loc_id]> name_to_id)
  end.

Definition fetch_location_lookup : Dev (gmap string string) :=
  log INFO "Fetching locations from %s" ;;;
  resp <- request GetLocations ;;
  raise_for_status resp.1 ;;;
  match resp.2 with
  | LocationList data =>
      name_to_id <- build_lookup data ∅ ;;
      if bool_decide (name_to_id = ∅) then
        raise (ValueError "No locations returned from API; cannot continue.")
      else
        log INFO "Discovered %d location(s) from API" ;;;
        ret name_to_id
  | _ => raise (ValueError "Unexpected response shape from locations endpoint")
  end.

Definition fetch_existing_tags : Dev (gset string) :=
  log INFO "Fetching existing device tags from %s" ;;;
  resp <- request GetDeviceTags ;;
  raise_for_status resp.1 ;;;
  match resp.2 with
  | TagList names =>
      let tag_set : gset string :=
        list_to_set (List.map (λ n, lower (strip n)) (List.filter truthy names)) in
      log INFO "Discovered %d tag(s) from API" ;;;
      ret tag_set
  | _ => raise (ValueError "Unexpected response shape from device-tags endpoint")
  end.

(** One iteration of the loop of [patch_device_location] (lines 205-271). *)
Definition patch_attempt (device location_id : string) (s : retry)
    : Dev (flow retry unit) :=
  try_except
    (log INFO "PATCH attempt %d/%d for device=%s to location_id=%s" ;;;
     resp <- request (PatchAtlas device location_id) ;;
     let status_code := resp.1 in
     (if (400 <=? status_code) && (status_code <? 500) then
        log ERROR "Client error %d for device=%s\nResponse: %s" ;;;
        raise_for_status status_code
      else ret tt) ;;;
     if (500 <=? status_code) || (status_code =? 429) then
       log WARNING "Server error %d for device=%s (attempt %d/%d): %s" ;;;
       (if attempt s =? PATCH_MAX_RETRIES then raise_for_status status_code
        else ret tt) ;;;
       sleep (delay s) ;;;
       ret (Next (Retry (attempt s + 1) (delay s * PATCH_RETRY_BACKOFF)))
     else
       raise_for_status status_code ;;;
       log INFO "%sLocation PATCH succeeded for device=%s (status=%d)%s" ;;;
       ret (Returned tt))
    (λ e,
       match e with
       | HTTPError _ =>
           log ERROR "HTTP error while patching device=%s: %s" ;;;
           raise e
       | ConnectionError =>
           log WARNING "Network error for device=%s (attempt %d/%d): %s" ;;;
           if attempt s =? PATCH_MAX_RETRIES then raise e
           else sleep (delay s) ;;; ret (Next (Retry (attempt s + 1) (delay s * PATCH_RETRY_BACKOFF)))
       | _ => raise e
       end).

(** Every iteration either leaves the function or adds one to
    [attempt], so [PATCH_MAX_RETRIES] iterations and one last test of
    the condition are all the loop can do. *)
Definition retry_fuel : nat := Z.to_nat PATCH_MAX_RETRIES + 1.

Definition patch_device_location (device location_id : string) (dry_run : bool)
    : Dev unit :=
  if dry_run then
    log INFO "[dry-run] Would PATCH %s with payload: %s"
  else
    _ <- while retry_fuel (λ s, attempt s <=? PATCH_MAX_RETRIES)
           (patch_attempt device location_id) (Retry 1 1) ;;
    ret tt.

(** One iteration of the loop of [add_tag_to_device] (lines 293-359). *)
Definition tag_attempt (device tag : string) (s : retry) : Dev (flow retry unit) :=
  try_except
    (log INFO "Tag POST attempt %d/%d for device=%s tag=%s" ;;;
     resp <- request (PostDeviceTags device tag) ;;
     let status_code := resp.1 in
     (if (400 <=? status_code) && (status_code <? 500) then
        log ERROR "Client error %d adding tag for device=%s\nResponse: %s" ;;;
        raise_for_status status_code
      else ret tt) ;;;
     if (500 <=? status_code) || (status_code =? 429) then
       log WARNING "Server error %d for device=%s tag=%s (attempt %d/%d): %s" ;;;
       (if attempt s =? PATCH_MAX_RETRIES then raise_for_status status_code
        else ret tt) ;;;
       sleep (delay s) ;;;
       ret (Next (Retry (attempt s + 1) (delay s * PATCH_RETRY_BACKOFF)))
     else
       raise_for_status status_code ;;;
       log INFO "Tag POST succeeded for device=%s tag=%s (status=%d)" ;;;
       ret (Returned tt))
    (λ e,
       match e with
       | HTTPError _ =>
           log ERROR "HTTP error while tagging device=%s: %s" ;;;
           raise e
       | ConnectionError =>
           log WARNING "Network error tagging device=%s (attempt %d/%d): %s" ;;;
           if attempt s =? PATCH_MAX_RETRIES then raise e
           else sleep (delay s) ;;; ret (Next (Retry (attempt s + 1) (delay s * PATCH_RETRY_BACKOFF)))
       | _ => raise e
       end).

Definition add_tag_to_device (device tag : string) (dry_run : bool) : Dev unit :=
  if dry_run then
    log INFO "[dry-run] Would POST %s with payload: %s"
  else
    _ <- while retry_fuel (λ s, attempt s <=? PATCH_MAX_RETRIES)
           (tag_attempt device tag) (Retry 1 1) ;;
    ret tt.

(** The lookup of [main] (lines 430-431): [name_to_id.get(...)] and the
    test [if not location_id]. *)
Definition resolve (name_to_id : gmap string string) (location_name : string)
    : option string :=
  match name_to_id !! lower location_name with
  | Some location_id => if truthy location_id then Some location_id else None
  | None => None
  end.

(** The body of the record loop of [main] (lines 420-450): the failure
    count before the record goes in, the count after it comes out. *)
Definition process_entry (name_to_id : gmap string string) (existing_tags : gset string)
    (dry_run : bool) (e : entry) (failures : Z) : Dev Z :=
  if truthy (tag e) && negb (bool_decide (lower (tag e) ∈ existing_tags)) then
    log ERROR "Tag '%s' not found in Forward (device '%s')" ;;;
    ret (failures + 1)
  else
    match resolve name_to_id (location e) with
    | None =>
        log ERROR "No location found matching name '%s' for device '%s'" ;;;
        ret (failures + 1)
    | Some location_id =>
        log INFO "Processing device '%s' -> location '%s' (id=%s) with tag '%s'" ;;;
        try_except
          (patch_device_location (device e) location_id dry_run ;;;
           (if truthy (tag e) then add_tag_to_device (device e) (tag e) dry_run
            else ret tt) ;;;
           ret failures)
          (λ _,
             log ERROR "Failed processing device '%s': %s" ;;;
             ret (failures + 1))
    end.

(** The record loop of [main] (line 419). *)
Fixpoint process_entries (name_to_id : gmap string string) (existing_tags : gset string)
    (dry_run : bool) (devices : list entry) (failures : Z) : Dev Z :=
  match devices with
  | [] => ret failures
  | e :: rest =>
      failures' <- process_entry name_to_id existing_tags dry_run e failures ;;
      process_entries name_to_id existing_tags dry_run rest failures'
  end.

(** What [main] has in hand when the record loop starts. *)
Record prepared := Prepared {
  devices : list entry;
  name_to_id : gmap string string;
  existing_tags : gset string
}.

(** [main] up to the record loop (lines 386-415): the CSV and the two
    collections, each failure a [sys.exit(1)]. *)
Definition main_setup (dry_run : bool) (csv : csv_file) : Dev prepared :=
  log INFO "Logging initialized at level %s" ;;;
  (if dry_run then log INFO "Dry run mode ENABLED (no PATCH/POST will be performed)"
   else ret tt) ;;;
  devices <- try_except
               (log INFO "Loading CSV: %s" ;;;
                load_devices_from_csv csv)
               (λ _, log ERROR "Failed to load CSV: %s" ;;; sys_exit 1) ;;
  name_to_id <- try_except fetch_location_lookup
                  (λ _, log ERROR "Failed to fetch locations from API: %s" ;;;
                        sys_exit 1) ;;
  (* the set [tags_in_csv] is only tested for emptiness *)
  let tags_in_csv := List.filter truthy (List.map tag devices) in
  existing_tags <- match tags_in_csv with
                   | _ :: _ =>
                       try_except fetch_existing_tags
                         (λ _, log ERROR "Failed to fetch existing device tags: %s" ;;;
                               sys_exit 1)
                   | [] => ret ∅
                   end ;;
  ret (Prepared devices name_to_id existing_tags).

(** [main] after the record loop (lines 452-456). *)
Definition main_finish (failures : Z) : Dev unit :=
  if failures =? 0 then
    log INFO "%sAll device updates completed successfully.%s"
  else
    log ERROR "Completed with %d failure(s)." ;;;
    sys_exit 1.

Definition main (dry_run : bool) (csv : csv_file) : Dev unit :=
  p <- main_setup dry_run csv ;;
  failures <- process_entries (name_to_id p) (existing_tags p) dry_run (devices p) 0 ;;
  main_finish failures.

(** *** For stating the properties *)

(** What the loop of [fetch_location_lookup] registers for one object,
    its key and its identifier (lines 150-155); nothing for an object it
    skips. *)
Definition registers (loc : remote_location) : option (string * string) :=
  let loc_id := strip (remote_id loc) in
  let name := strip (remote_name loc) in
  if negb (truthy loc_id) || negb (truthy name) then None
  else Some (lower name, loc_id).

(** The table the loop builds, without its warnings. *)
Definition lookup_of (data : list remote_location) (name_to_id : gmap string string)
    : gmap string string :=
  foldl (λ m loc, match registers loc with
                  | Some (key, loc_id) => <[key := loc_id]> m
                  | None => m
                  end) name_to_id data.

(** The requests the record loop sends for a record that passes its
    checks when no call fails (lines 444-447). *)
Definition updates (name_to_id : gmap string string) (e : entry) : list action :=
  match resolve name_to_id (location e) with
  | Some location_id =>
      PatchAtlas (device e) location_id
        :: (if truthy (tag e) then [PostDeviceTags (device e) (tag e)] else [])
  | None => []
  end.

Definition duplicate_warning : event action :=
  Logged WARNING "Duplicate location name detected: '%s' -> ids [%s, %s]".

(** What the trace of a call of [patch_device_location] and of
    [add_tag_to_device] may gain: no request but the call's own. *)
Definition patch_event (device location_id : string) (e : event action) : Prop :=
  match e with
  | Act x => x = PatchAtlas device location_id
  | _ => True
  end.

Definition tag_event (device tag : string) (e : event action) : Prop :=
  match e with
  | Act x => x = PostDeviceTags device tag
  | _ => True
  end.

(** Attempts left to a retry loop. *)
Definition remaining (s : retry) : nat :=
  Z.to_nat (PATCH_MAX_RETRIES + 1 - attempt s).

(** The entry the row loop makes of a row (lines 109-111 and 121-127). *)
Definition entry_of (has_tag_col : bool) (row : gmap string string) : entry :=
  Entry (strip (or_empty (row !! "device")))
    (strip (or_empty (row !! "location")))
    (if has_tag_col then strip (or_empty (row !! "tag")) else "").

(** An entry the row loop keeps: neither of the tests of lines 113 and
    117 rejects it. *)
Definition acceptable (e : entry) : bool :=
  truthy (device e) && truthy (location e)
  && (negb (truthy (tag e)) || TAG_PATTERN_fullmatch (tag e)).

(** The header has the two required columns (lines 98-104). *)
Definition has_required (csv : csv_file) : bool :=
  bool_decide ("device" ∈ fieldnames csv)
  && bool_decide ("location" ∈ fieldnames csv).

(** The entries of a file, row by row. *)
Definition entries_of (csv : csv_file) : list entry :=
  List.map (entry_of (bool_decide ("tag" ∈ fieldnames csv))) (rows csv).

(** A file [load_devices_from_csv] accepts. *)
Definition well_formed (csv : csv_file) : bool :=
  has_required csv && forallb acceptable (entries_of csv).

(** An answer of the locations endpoint that [fetch_location_lookup]
    cannot go on with: none at all, an error status, a body that is not
    a list, a list in which no object has both an id and a name. *)
Definition unusable (r : response body) : Prop :=
  match r with
  | NoResponse => True
  | Reply status (LocationList data) =>
      400 ≤ status < 600 ∨ Forall (λ loc, registers loc = None) data
  | Reply _ _ => True
  end.

(** Events that change nothing on the remote side and do not wait:
    log lines and the two GET requests. *)
Definition reads_only (e : event action) : Prop :=
  match e with
  | Act GetLocations | Act GetDeviceTags | Logged _ _ => True
  | _ => False
  end.

(** Events that are no request to the device-tags endpoint. *)
Definition no_tag_request (e : event action) : Prop :=
  match e with
  | Act GetDeviceTags | Act (PostDeviceTags _ _) => False
  | _ => True
  end.

End DeviceLoader.

(** ** The location locater, [fn-location-locater.py] *)

Module LocationLocater.

(** Geocoding and POST retry settings (lines 40-49). *)
Definition GEOCODE_DELAY_SECONDS : Q := 1.
Definition GEOCODE_MAX_RETRIES : Z := 3.
Definition GEOCODE_RETRY_BACKOFF : Q := 2.
Definition POST_MAX_RETRIES : Z := 3.
Definition POST_RETRY_BACKOFF : Q := 2.
Definition DRY_RUN_OUTPUT_FILE : string := "locations_payload.json".

Section Coordinates.

(** A coordinate is a Python [float]; [float] is the built-in
    conversion from text, [None] where it raises [ValueError].  It
    accepts the texts of nan and of the infinities; [finite] tells
    the other floats from these ([math.isfinite]). *)
Context {coord : Type} (float : string → option coord) (finite : coord → bool).

(** A row of the CSV as [load_locations_from_csv] returns it. *)
Record location := Location {
  id : string;
  name : string;
  address : string;
  lat : option coord;
  lng : option coord
}.

(** A location with its coordinates, as [geocode_locations] returns
    it and as it is posted. *)
Record located := Located {
  located_id : string;
  located_name : string;
  located_lat : coord;
  located_lng : coord
}.

Inductive action :=
| GetNominatim (address : string)
| PostLocation (loc : located)
| WritePayload (filename : string) (payload : list located).

(** One match of the geocoder: its [lat] and [lon] fields, text when
    present. *)
Record candidate := Candidate {
  cand_lat : option string;
  cand_lon : option string
}.

(** A decoded response body: the geocoder's list of matches, or
    anything else. *)
Inductive body :=
| Opaque
| Candidates (data : list candidate).

Local Abbreviation Loc := (M action body).

(** [float(first[key])]: [KeyError] without the field, [ValueError]
    when it is not a number. *)
Definition float_field (key : string) (field : option string) : Loc coord :=
  match field with
  | None => raise (KeyError key)
  | Some text =>
      match float text with
      | Some x => ret x
      | None => raise (ValueError "could not convert string to float")
      end
  end.

(** One iteration of the loop of [geocode_address] (lines 87-117). *)
Definition geocode_attempt (address : string) (s : retry)
    : Loc (flow retry (coord * coord)) :=
  try_except
    (log DEBUG "Geocoding attempt %d for address: %s" ;;;
     resp <- request (GetNominatim address) ;;
     raise_for_status resp.1 ;;;
     match resp.2 with
     | Candidates (first :: _) =>
         lat <- float_field "lat" (cand_lat first) ;;
         lng <- float_field "lon" (cand_lon first) ;;
         log DEBUG "Geocoding successful for '%s': lat=%s, lng=%s" ;;;
         ret (Returned (lat, lng))
     | Candidates [] => raise (ValueError "No geocoding result found for address")
     | Opaque => raise (ValueError "response body is not a list of matches")
     end)
    (λ e,
       log WARNING "Geocoding failed (attempt %d/%d) for '%s': %s" ;;;
       if attempt s =? GEOCODE_MAX_RETRIES then raise e
       else
         sleep (delay s) ;;;
         ret (Next (Retry (attempt s + 1) (delay s * GEOCODE_RETRY_BACKOFF)))).

Definition geocode_fuel : nat := Z.to_nat GEOCODE_MAX_RETRIES + 1.

Definition geocode_address (address : string) : Loc (coord * coord) :=
  r <- while geocode_fuel (λ s, attempt s <=? GEOCODE_MAX_RETRIES)
         (geocode_attempt address) (Retry 1 GEOCODE_DELAY_SECONDS) ;;
  match r with
  | Returned latlng => ret latlng
  | Next _ => raise (ValueError "Geocoding failed after %d attempts for address")
  end.

(** The row loop of [load_locations_from_csv] (lines 159-195). *)
Fixpoint load_rows (has_lat has_lng : bool) (rs : list (gmap string string))
    (locations : list location) : Loc (list location) :=
  match rs with
  | [] => ret locations
  | row :: rest =>
      let loc_id := strip (or_empty (row !! "id")) in
      let name := strip (or_empty (row !! "name")) in
      let address := strip (or_empty (row !! "address")) in
      if negb (truthy loc_id) || negb (truthy name) || negb (truthy address) then
        log WARNING "Skipping incomplete row (missing id/name/address): %s" ;;;
        load_rows has_lat has_lng rest locations
      else
        lat <- (if has_lat then
                  let lat_val := strip (or_empty (row !! "lat")) in
                  if truthy lat_val then
                    match float lat_val with
                    | Some x => ret (Some x)
                    | None =>
                        log WARNING "Invalid lat '%s' for id=%s, ignoring" ;;;
                        ret None
                    end
                  else ret None
                else ret None) ;;
        lng <- (if has_lng then
                  let lng_val := strip (or_empty (row !! "lng")) in
                  if truthy lng_val then
                    match float lng_val with
                    | Some x => ret (Some x)
                    | None =>
                        log WARNING "Invalid lng '%s' for id=%s, ignoring" ;;;
                        ret None
                    end
                  else ret None
                else ret None) ;;
        load_rows has_lat has_lng rest
          (locations ++ [Location loc_id name address lat lng])
  end.

Definition load_locations_from_csv (csv : csv_file) : Loc (list location) :=
  let missing :=
    List.filter (λ c, negb (bool_decide (c ∈ fieldnames csv)))
      ["id"; "name"; "address"] in
  match missing with
  | _ :: _ => raise (ValueError "CSV missing required columns")
  | [] =>
      let has_lat := bool_decide ("lat" ∈ fieldnames csv) in
      let has_lng := bool_decide ("lng" ∈ fieldnames csv) in
      locations <- load_rows has_lat has_lng (rows csv) [] ;;
      log INFO "Loaded %d location(s) from CSV" ;;;
      ret locations
  end.

(** The loop of [geocode_locations] (lines 212-257). *)
Fixpoint geocode_loop (locations : list location) (results : list located)
    : Loc (list located) :=
  match locations with
  | [] => ret results
  | loc :: rest =>
      match lat loc, lng loc with
      | Some la, Some ln =>
          log INFO "[%d/%d] Using existing lat/lng for '%s' (%s): lat=%s, lng=%s" ;;;
          geocode_loop rest (results ++ [Located (id loc) (name loc) la ln])
      | _, _ =>
          log INFO "[%d/%d] Geocoding address for '%s' (%s): %s" ;;;
          results' <- try_except
                        (latlng <- geocode_address (address loc) ;;
                         log INFO " -> lat=%s, lng=%s" ;;;
                         ret (results ++
                              [Located (id loc) (name loc) latlng.1 latlng.2]))
                        (λ _,
                           log ERROR "FAILED geocoding '%s' (%s): %s" ;;;
                           ret results) ;;
          sleep GEOCODE_DELAY_SECONDS ;;;
          geocode_loop rest results'
      end
  end.

Definition geocode_locations (locations : list location) : Loc (list located) :=
  results <- geocode_loop locations [] ;;
  log INFO "Successfully prepared coordinates for %d of %d location(s)" ;;;
  ret results.

(** A payload [requests.post] can encode.  The library serialises
    the [json] argument with [allow_nan=False] before it sends
    anything: the strings always pass, a coordinate that is nan or
    infinite does not. *)
Definition encodable (loc : located) : bool :=
  finite (located_lat loc) && finite (located_lng loc).

(** [requests.post(FORWARD_POST_URL, json=location, ...)] (lines
    292-298): a payload that cannot be encoded raises
    [InvalidJSONError], a [RequestException], and no request goes
    out; otherwise the request is sent and answered by the remote
    side. *)
Definition post_request (loc : located) : Loc (Z * body) :=
  if encodable loc then request (PostLocation loc) else raise ConnectionError.

(** One iteration of the loop of [post_single_location_to_forward]
    (lines 283-351). *)
Definition post_attempt (loc : located) (s : retry) : Loc (flow retry unit) :=
  try_except
    (log INFO "POST attempt %d/%d to %s for location id=%s" ;;;
     resp <- post_request loc ;;
     let status_code := resp.1 in
     (if (400 <=? status_code) && (status_code <? 500) then
        log ERROR "Client error %d for location id=%s\nResponse: %s" ;;;
        raise_for_status status_code
      else ret tt) ;;;
     if (500 <=? status_code) || (status_code =? 429) then
       log WARNING "Server error %d for id=%s (attempt %d/%d): %s" ;;;
       (if attempt s =? POST_MAX_RETRIES then raise_for_status status_code
        else ret tt) ;;;
       sleep (delay s) ;;;
       ret (Next (Retry (attempt s + 1) (delay s * POST_RETRY_BACKOFF)))
     else
       raise_for_status status_code ;;;
       log INFO "POST succeeded for id=%s (status=%d)" ;;;
       ret (Returned tt))
    (λ e,
       match e with
       | HTTPError _ =>
           log ERROR "HTTP error for location id=%s: %s" ;;;
           raise e
       | ConnectionError =>
           log WARNING "POST network error for id=%s (attempt %d/%d): %s" ;;;
           if attempt s =? POST_MAX_RETRIES then raise e
           else
             sleep (delay s) ;;;
             ret (Next (Retry (attempt s + 1) (delay s * POST_RETRY_BACKOFF)))
       | _ => raise e
       end).

Definition post_fuel : nat := Z.to_nat POST_MAX_RETRIES + 1.

Definition post_single_location_to_forward (loc : located) : Loc unit :=
  _ <- while post_fuel (λ s, attempt s <=? POST_MAX_RETRIES)
         (post_attempt loc) (Retry 1 1) ;;
  ret tt.

(** The POST loop of [main] (lines 427-432). *)
Fixpoint post_all (locs : list located) : Loc unit :=
  match locs with
  | [] => ret tt
  | loc :: rest =>
      try_except (post_single_location_to_forward loc)
        (λ _, log ERROR "Failed to POST location id=%s: %s") ;;;
      post_all rest
  end.

(** [main] from the POST loop on (lines 421-434). *)
Definition main_post (locs_with_coords : list located) : Loc unit :=
  log INFO "Posting %d location(s) individually to %s" ;;;
  post_all locs_with_coords ;;;
  log INFO "All POST attempts completed.".

Definition main (dry_run : bool) (dry_run_output : string) (csv : csv_file)
    : Loc unit :=
  log INFO "Logging initialized at level %s" ;;;
  (if dry_run then log INFO "Dry run mode ENABLED (no POST will be performed)"
   else ret tt) ;;;
  try_except
    (log INFO "Loading CSV: %s" ;;;
     locs_raw <- load_locations_from_csv csv ;;
     match locs_raw with
     | [] =>
         log ERROR "No valid locations found in CSV. Exiting." ;;;
         sys_exit 1
     | _ :: _ =>
         locs_with_coords <- geocode_locations locs_raw ;;
         match locs_with_coords with
         | [] =>
             log ERROR "No locations successfully prepared with coordinates. Exiting." ;;;
             sys_exit 1
         | _ :: _ =>
             log INFO "Final JSON payload:\n%s" ;;;
             if dry_run then
               emit (WritePayload dry_run_output locs_with_coords) ;;;
               log INFO "Dry run: payload written to %s" ;;;
               log INFO "Dry run complete. Skipping POST to Forward Networks."
             else main_post locs_with_coords
         end
     end)
    (λ _,
       log ERROR "Fatal error: %s" ;;;
       sys_exit 1).

(** *** For stating the properties *)

(** The coordinates one answer of the geocoder yields to the body of
    the [try] of [geocode_address] (lines 89-100), [None] when the
    body raises: no answer, an error status, no match, a match
    without usable [lat] and [lon]. *)
Definition answer (r : response body) : option (coord * coord) :=
  match r with
  | Reply status (Candidates (first :: _)) =>
      if (400 <=? status) && (status <? 600) then None
      else
        match cand_lat first, cand_lon first with
        | Some lat_text, Some lon_text =>
            match float lat_text, float lon_text with
            | Some lat, Some lng => Some (lat, lng)
            | _, _ => None
            end
        | _, _ => None
        end
  | _ => None
  end.

(** What [load_locations_from_csv] makes of the [lat] or [lng] cell
    of a row (lines 171-185). *)
Definition parse_cell (has_col : bool) (row : gmap string string) (col : string)
    : option coord :=
  if has_col then
    let val := strip (or_empty (row !! col)) in
    if truthy val then float val else None
  else None.

(** A cell with text that [float] rejects. *)
Definition unparsable (has_col : bool) (row : gmap string string) (col : string)
    : Prop :=
  has_col = true ∧ truthy (strip (or_empty (row !! col))) = true
  ∧ float (strip (or_empty (row !! col))) = None.

Definition invalid_lat_warning : event action :=
  Logged WARNING "Invalid lat '%s' for id=%s, ignoring".

Definition invalid_lng_warning : event action :=
  Logged WARNING "Invalid lng '%s' for id=%s, ignoring".

(** A row with its three required cells. *)
Definition complete (row : gmap string string) : Prop :=
  truthy (strip (or_empty (row !! "id"))) = true
  ∧ truthy (strip (or_empty (row !! "name"))) = true
  ∧ truthy (strip (or_empty (row !! "address"))) = true.

(** Attempts left to a retry loop. *)
Definition remaining (s : retry) : nat := Z.to_nat (3 + 1 - attempt s).

(** The test of line 166 on a row, as a boolean. *)
Definition complete_row (row : gmap string string) : bool :=
  truthy (strip (or_empty (row !! "id")))
  && truthy (strip (or_empty (row !! "name")))
  && truthy (strip (or_empty (row !! "address"))).

(** The record [load_locations_from_csv] makes of one row, none for
    a row it skips. *)
Definition location_of (has_lat has_lng : bool) (row : gmap string string)
    : option location :=
  if complete_row row then
    Some (Location (strip (or_empty (row !! "id")))
            (strip (or_empty (row !! "name")))
            (strip (or_empty (row !! "address")))
            (parse_cell has_lat row "lat") (parse_cell has_lng row "lng"))
  else None.

(** The three required columns are in the header (lines 152-156). *)
Definition has_required (csv : csv_file) : bool :=
  bool_decide ("id" ∈ fieldnames csv) && bool_decide ("name" ∈ fieldnames csv)
  && bool_decide ("address" ∈ fieldnames csv).

Definition locations_of (csv : csv_file) : list location :=
  omap (location_of (bool_decide ("lat" ∈ fieldnames csv))
          (bool_decide ("lng" ∈ fieldnames csv))) (rows csv).

(** The entry of the result a record with both coordinates gives
    without geocoding (lines 221-235). *)
Definition supplied (loc : location) : option located :=
  match lat loc, lng loc with
  | Some la, Some ln => Some (Located (id loc) (name loc) la ln)
  | _, _ => None
  end.

(** The test of line 219, negated: a record the loop of
    [geocode_locations] sends to the geocoder. *)
Definition needs_geocoding (loc : location) : bool :=
  match lat loc, lng loc with
  | Some _, Some _ => false
  | _, _ => true
  end.

(** Any event but a POST of a location. *)
Definition no_post (e : event action) : Prop :=
  match e with
  | Act (PostLocation _) => False
  | _ => True
  end.

(** The events of the coordinate loop: requests to the geocoder,
    delays and log lines. *)
Definition geocoding_only (e : event action) : Prop :=
  match e with
  | Act (GetNominatim _) | Slept _ | Logged _ _ => True
  | _ => False
  end.

End Coordinates.

End LocationLocater.

(** ** Sample inputs

    Concrete files, answers and a concrete [float] on which the
    definitions above are run in the examples below. *)

Module Samples.

(** Plain decimal numerals as [float] reads them, an optional sign,
    digits and at most one point: enough of [float] for the examples. *)
Definition digit (c : ascii) : option Z :=
  let n := nat_of_ascii c in
  if ((48 <=? n) && (n <=? 57))%nat then Some (Z.of_nat n - 48) else None.

Fixpoint digits (s : string) (acc : Z) : option Z :=
  match s with
  | EmptyString => Some acc
  | String c s' =>
      match digit c with
      | Some d => digits s' (10 * acc + d)
      | None => None
      end
  end.

Fixpoint split_point (s : string) : string * option string :=
  match s with
  | EmptyString => (EmptyString, None)
  | String c s' =>
      if Ascii.eqb c "."%char then (EmptyString, Some s')
      else let '(whole, frac) := split_point s' in (String c whole, frac)
  end.

Definition unsigned (s : string) : option Q :=
  match split_point s with
  | (whole, None) =>
      if truthy whole then
        match digits whole 0 with
        | Some z => Some (z # 1)
        | None => None
        end
      else None
  | (whole, Some frac) =>
      if truthy whole || truthy frac then
        match digits whole 0, digits frac 0 with
        | Some zw, Some zf =>
            let scale := 10 ^ Z.of_nat (String.length frac) in
            Some ((zw * scale + zf) # Z.to_pos scale)
        | _, _ => None
        end
      else None
  end.

Definition decimal (s : string) : option Q :=
  match s with
  | String c s' =>
      if Ascii.eqb c "-"%char then Qopp <$> unsigned s'
      else if Ascii.eqb c "+"%char then unsigned s'
      else unsigned s
  | EmptyString => None
  end.

(** Every number [decimal] reads is finite. *)
Definition finite_decimal (q : Q) : bool := true.

(** Floats with the values [float] also reads, nan and the infinities,
    as far as the examples need them. *)
Inductive pyfloat :=
| Number (q : Q)
| Inf (negative : bool)
| NaN.

Definition pyfloat_of (s : string) : option pyfloat :=
  let t := lower s in
  if String.eqb t "nan" then Some NaN
  else if String.eqb t "inf" || String.eqb t "infinity" then Some (Inf false)
  else if String.eqb t "-inf" || String.eqb t "-infinity" then Some (Inf true)
  else Number <$> decimal s.

Definition isfinite (x : pyfloat) : bool :=
  match x with
  | Number _ => true
  | _ => false
  end.

(** A remote side that gives the answers of [script] in turn and
    [otherwise] once they are used up, and the world at the start of
    a run against it. *)
Definition answers {P} (script : list (response P)) (otherwise : response P)
    : nat → response P :=
  λ n, nth n script otherwise.

Definition always {P} (r : response P) : nat → response P := answers [] r.

Definition start {X P} (net : nat → response P) : world X P := World net 0 [].

(** Device files: two good rows, and the same with a row whose label
    has a space in it. *)
Definition device_header : list string := ["device"; "location"; "tag"].

Definition row_sw1 : gmap string string :=
  {[ "device" := "sw1"; "location" := "Head Office"; "tag" := "core" ]}.

Definition row_sw2 : gmap string string :=
  {[ "device" := "sw2"; "location" := "LAB"; "tag" := "" ]}.

Definition row_sw3 : gmap string string :=
  {[ "device" := "sw3"; "location" := "Lab"; "tag" := "bad tag" ]}.

Definition good_devices : csv_file := CsvFile device_header [row_sw1; row_sw2].
Definition bad_devices : csv_file := CsvFile device_header [row_sw1; row_sw3; row_sw2].

(** The collection of locations, with two objects named alike, and the
    tags known to the remote side. *)
Definition remote_locations : list DeviceLoader.remote_location :=
  [DeviceLoader.RemoteLocation "10" "Head Office";
   DeviceLoader.RemoteLocation "20" "Lab";
   DeviceLoader.RemoteLocation "21" " LAB "].

Definition locations_reply : response DeviceLoader.body :=
  Reply 200 (DeviceLoader.LocationList remote_locations).

Definition tags_reply : response DeviceLoader.body :=
  Reply 200 (DeviceLoader.TagList ["Core"; "edge"]).

Definition sample_table : gmap string string :=
  {[ "head office" := "10"; "lab" := "21" ]}.

Definition sample_tags : gset string := {[ "core"; "edge" ]}.

(** Location files: a row with both coordinates, a row with none, a row
    whose [lat] is not a number. *)
Definition location_header : list string := ["id"; "name"; "address"; "lat"; "lng"].

Definition row_hq : gmap string string :=
  {[ "id" := "1"; "name" := "HQ"; "address" := "1 Main St";
     "lat" := "51.5"; "lng" := "-0.12" ]}.

Definition row_lab : gmap string string :=
  {[ "id" := "2"; "name" := "Lab"; "address" := "2 Side St" ]}.

Definition row_depot : gmap string string :=
  {[ "id" := "3"; "name" := "Depot"; "address" := "3 Dock Rd";
     "lat" := "north"; "lng" := "4.5" ]}.

Definition hq : @LocationLocater.location Q :=
  LocationLocater.Location "1" "HQ" "1 Main St" (Some (515 # 10)) (Some (- 12 # 100)).

Definition lab : @LocationLocater.location Q :=
  LocationLocater.Location "2" "Lab" "2 Side St" None None.

Definition hq_located : @LocationLocater.located Q :=
  LocationLocater.Located "1" "HQ" (515 # 10) (- 12 # 100).

(** A row whose [lat] is the text of nan, and the record it gives. *)
Definition row_pole : gmap string string :=
  {[ "id" := "4"; "name" := "Pole"; "address" := "0 Ice Rd";
     "lat" := "nan"; "lng" := "0" ]}.

Definition pole_located : @LocationLocater.located pyfloat :=
  LocationLocater.Located "4" "Pole" NaN (Number 0).

Definition found : response LocationLocater.body :=
  Reply 200 (LocationLocater.Candidates
               [LocationLocater.Candidate (Some "48.85") (Some "2.35")]).

Definition not_found : response LocationLocater.body :=
  Reply 200 (LocationLocater.Candidates []).

End Samples.

(** * Properties *)

(** ** Runs and their traces *)

(** Rewrites the loop of the goal with what it is known to return; the
    loop is compared up to the values of the script's constants. *)
Ltac use_loop Hrun :=
  unfold bind;
  match goal with
  | |- context [while ?f ?c ?b ?s ?w] =>
      let H := fresh in
      assert (H : while f c b s w = _) by exact Hrun; rewrite H; clear H
  end.

Section RuntimeFacts.

Context {X P : Type}.
Implicit Types (w : world X P) (es : list (event X)).

Lemma effects_app es1 es2 : effects (es1 ++ es2) = effects es1 ++ effects es2.
Proof. unfold effects. apply List.filter_app. Qed.

Lemma ran_refl w : ran w w 0 [].
Proof.
  unfold ran. repeat split; [lia|]. exists []. by rewrite app_nil_r.
Qed.

Lemma ran_trans w1 w2 w3 n1 n2 es1 es2 :
  ran w1 w2 n1 es1 → ran w2 w3 n2 es2 → ran w1 w3 (n1 + n2) (es1 ++ es2).
Proof.
  intros (Hn1 & Hs1 & new1 & Ht1 & He1) (Hn2 & Hs2 & new2 & Ht2 & He2).
  unfold ran. repeat split; [congruence|lia|].
  exists (new1 ++ new2). rewrite Ht2, Ht1, app_assoc, effects_app.
  by rewrite He1, He2.
Qed.

Lemma ran_explicit w n new :
  ran w (World (net w) (sent w + n) (trace w ++ new)) n (effects new).
Proof. unfold ran; simpl. repeat split. by exists new. Qed.

Lemma grows_refl ok w : grows ok w w.
Proof.
  unfold grows. repeat split; [lia|]. exists []. by rewrite app_nil_r.
Qed.

Lemma grows_trans ok w1 w2 w3 : grows ok w1 w2 → grows ok w2 w3 → grows ok w1 w3.
Proof.
  intros (Hn1 & Hs1 & new1 & Ht1 & He1) (Hn2 & Hs2 & new2 & Ht2 & He2).
  unfold grows. repeat split; [congruence|lia|].
  exists (new1 ++ new2). rewrite Ht2, Ht1, app_assoc. split; [done|].
  by apply Forall_app.
Qed.

Lemma grows_explicit ok w n new :
  Forall ok new →
  grows ok w (World (net w) (sent w + n) (trace w ++ new)).
Proof. intros H. unfold grows; simpl. repeat split; [lia|]. by exists new. Qed.

Lemma grows_weaken (ok ok' : event X → Prop) w w' :
  (∀ e, ok e → ok' e) → grows ok w w' → grows ok' w w'.
Proof.
  intros Himp (Hn & Hs & new & Ht & Hok). repeat split; [done..|].
  exists new. split; [done|]. eapply Forall_impl; eauto.
Qed.

Lemma ran_grows w w' n es : ran w w' n es → grows anything w w'.
Proof.
  intros (Hn & Hs & new & Ht & _). repeat split; [done|lia|].
  exists new. split; [done|]. by apply Forall_forall.
Qed.

(** One turn of a loop whose condition holds. *)
Lemma while_S {S A} fuel (cond : S → bool) (body : S → M X P (flow S A)) s w :
  cond s = true →
  while (Datatypes.S fuel) cond body s w =
  match body s w with
  | (Return (Next s'), w') => while fuel cond body s' w'
  | (Return (Returned a), w') => (Return (Returned a), w')
  | (Raise e, w') => (Raise e, w')
  | (SysExit c, w') => (SysExit c, w')
  | (OutOfFuel, w') => (OutOfFuel, w')
  end.
Proof.
  intros Hc. simpl. rewrite Hc. unfold bind.
  by destruct (body s w) as [[[s'|a]|e|c|] w'].
Qed.

(** A loop whose body settles, keeps a relation between worlds and
    lowers a measure when it goes round again does the same as a whole,
    given fuel above the measure. *)
Lemma while_settles {S A} (R : world X P → world X P → Prop) (μ : S → nat)
    (cond : S → bool) (body : S → M X P (flow S A)) :
  (∀ w, R w w) →
  (∀ w1 w2 w3, R w1 w2 → R w2 w3 → R w1 w3) →
  (∀ s w, cond s = true →
     ∃ o w', body s w = (o, w') ∧ R w w' ∧
       match o with
       | Return (Next s') => (μ s' < μ s)%nat
       | Return (Returned _) | Raise _ => True
       | _ => False
       end) →
  ∀ fuel s w, (μ s < fuel)%nat →
    ∃ o w', while fuel cond body s w = (o, w') ∧ R w w' ∧ settled o.
Proof.
  intros Hrefl Htrans Hbody fuel.
  induction fuel as [|fuel IH]; intros s w Hfuel; [lia|].
  simpl. destruct (cond s) eqn:Hc.
  - destruct (Hbody s w Hc) as (o & w' & Hb & HR & Ho).
    unfold bind. rewrite Hb.
    destruct o as [[s'|a]|e| |]; try done.
    + destruct (IH s' w') as (o2 & w2 & Hw & HR2 & Hs2); [lia|].
      exists o2, w2. eauto.
    + exists (Return (Returned a)), w'. by repeat split.
    + exists (Raise e), w'. by repeat split.
  - exists (Return (Next s)), w. by repeat split.
Qed.

(** *** The retry loop of a mutation call

    The three mutation calls run the same loop around their own
    attempt.  What the loop does follows from what one attempt does
    with a client error, a server error and a server error on the last
    attempt. *)

Section RetryLoop.

Variable x : X.
Variable body : retry → M X P (flow retry unit).

Let cond (s : retry) : bool := attempt s <=? 3.
Let next (s : retry) : retry := Retry (attempt s + 1) (delay s * 2).

Hypothesis client_error : ∀ s w status b,
  net w (sent w) = Reply status b → 400 ≤ status < 500 →
  ∃ w', body s w = (Raise (HTTPError status), w') ∧ ran w w' 1 [Act x].

Hypothesis server_error : ∀ s w status b,
  net w (sent w) = Reply status b → 500 ≤ status < 600 → attempt s ≠ 3 →
  ∃ w', body s w = (Return (Next (next s)), w')
        ∧ ran w w' 1 [Act x; Slept (delay s)].

Hypothesis server_error_last : ∀ s w status b,
  net w (sent w) = Reply status b → 500 ≤ status < 600 → attempt s = 3 →
  ∃ w', body s w = (Raise (HTTPError status), w') ∧ ran w w' 1 [Act x].

Lemma retry_client_error w status b :
  net w (sent w) = Reply status b → 400 ≤ status < 500 →
  ∃ w', while 4 cond body (Retry 1 1) w = (Raise (HTTPError status), w')
        ∧ ran w w' 1 [Act x].
Proof.
  intros Hnet Hs.
  destruct (client_error (Retry 1 1) w status b Hnet Hs) as (w' & Hrun & Hran).
  exists w'. split; [|done]. simpl. unfold bind. by rewrite Hrun.
Qed.

Lemma retry_server_errors w s1 b1 s2 b2 s3 b3 :
  net w (sent w) = Reply s1 b1 → 500 ≤ s1 < 600 →
  net w (sent w + 1)%nat = Reply s2 b2 → 500 ≤ s2 < 600 →
  net w (sent w + 2)%nat = Reply s3 b3 → 500 ≤ s3 < 600 →
  ∃ w', while 4 cond body (Retry 1 1) w = (Raise (HTTPError s3), w')
        ∧ ran w w' 3 [Act x; Slept 1; Act x; Slept 2; Act x].
Proof.
  intros Hn1 Hs1 Hn2 Hs2 Hn3 Hs3.
  destruct (server_error (Retry 1 1) w s1 b1 Hn1 Hs1) as (w1 & Hrun1 & Hran1);
    [done|].
  destruct (server_error (next (Retry 1 1)) w1 s2 b2) as (w2 & Hrun2 & Hran2);
    [|done|done|].
  { destruct Hran1 as (-> & -> & _). done. }
  destruct (server_error_last (next (next (Retry 1 1))) w2 s3 b3)
    as (w3 & Hrun3 & Hran3); [|done|done|].
  { destruct Hran2 as (-> & -> & _), Hran1 as (-> & -> & _).
    by rewrite <- Nat.add_assoc. }
  exists w3. split.
  - simpl. unfold bind. rewrite Hrun1. simpl. rewrite Hrun2. simpl.
    by rewrite Hrun3.
  - apply (ran_trans _ _ _ 1 2 [_; _] [_; _; _] Hran1).
    apply (ran_trans _ _ _ 1 1 [_; _] [_] Hran2 Hran3).
Qed.

End RetryLoop.

End RuntimeFacts.

(** Settles the integer tests of a goal from the hypotheses. *)
Ltac settle_tests :=
  repeat match goal with
  | |- context [Z.leb ?a ?b] => destruct (Z.leb_spec a b); try lia
  | |- context [Z.ltb ?a ?b] => destruct (Z.ltb_spec a b); try lia
  | |- context [Z.eqb ?a ?b] => destruct (Z.eqb_spec a b); try lia
  end; simpl.

(** Runs one attempt of a mutation call whose answer is known. *)
Ltac attempt_with Hnet :=
  unfold try_except, bind, log, sleep, record, request, raise_for_status, raise, ret;
  simpl; rewrite Hnet; simpl; settle_tests.

(** Closes [ran w w' n es] for an explicit [w']. *)
Ltac ran_done :=
  unfold ran; simpl; repeat split; [lia|];
  eexists; split; [by rewrite <- ?app_assoc|reflexivity].

(** Closes [grows ok w w'] for an explicit [w']. *)
Ltac grows_done :=
  unfold grows; simpl; repeat split; [lia|];
  eexists; split; [by rewrite <- ?app_assoc|];
  repeat first [apply List.Forall_nil
               |apply List.Forall_cons; [first [exact I|reflexivity]|]].

(** ** The device loader *)

Module DeviceFacts.

Import DeviceLoader.

Implicit Types (w : world action body) (s : retry).

Lemma patch_attempt_client_error d l s w status b :
  net w (sent w) = Reply status b → 400 ≤ status < 500 →
  ∃ w', patch_attempt d l s w = (Raise (HTTPError status), w')
        ∧ ran w w' 1 [Act (PatchAtlas d l)].
Proof.
  intros Hnet Hs. unfold patch_attempt.
  attempt_with Hnet; (eexists; split; [reflexivity|ran_done]).
Qed.

Lemma patch_attempt_server_error d l s w status b :
  net w (sent w) = Reply status b → 500 ≤ status < 600 →
  attempt s ≠ PATCH_MAX_RETRIES →
  ∃ w', patch_attempt d l s w = (Return (Next (Retry (attempt s + 1) (delay s * 2))), w')
        ∧ ran w w' 1 [Act (PatchAtlas d l); Slept (delay s)].
Proof.
  intros Hnet Hs Ha. unfold patch_attempt.
  attempt_with Hnet; (eexists; split; [reflexivity|ran_done]).
Qed.

Lemma patch_attempt_server_error_last d l s w status b :
  net w (sent w) = Reply status b → 500 ≤ status < 600 →
  attempt s = PATCH_MAX_RETRIES →
  ∃ w', patch_attempt d l s w = (Raise (HTTPError status), w')
        ∧ ran w w' 1 [Act (PatchAtlas d l)].
Proof.
  intros Hnet Hs Ha. unfold patch_attempt.
  attempt_with Hnet; (eexists; split; [reflexivity|ran_done]).
Qed.

Lemma patch_attempt_shape d l s w :
  attempt s ≤ PATCH_MAX_RETRIES →
  ∃ o w', patch_attempt d l s w = (o, w') ∧ grows (patch_event d l) w w' ∧
    match o with
    | Return (Next s') => (remaining s' < remaining s)%nat
    | Return (Returned _) | Raise _ => True
    | _ => False
    end.
Proof.
  intros Ha. unfold patch_attempt.
  destruct (net w (sent w)) as [|status b] eqn:Hnet;
    attempt_with Hnet;
    (eexists _, _; split; [reflexivity|split; [grows_done|]]);
    try done; unfold remaining; simpl; lia.
Qed.

Lemma patch_settles d l dry_run w :
  ∃ o w', patch_device_location d l dry_run w = (o, w')
          ∧ grows (patch_event d l) w w' ∧ settled o.
Proof.
  unfold patch_device_location. destruct dry_run.
  - eexists _, _; split; [reflexivity|split; [grows_done|done]].
  - destruct (while_settles (grows (patch_event d l)) remaining
                (λ s, attempt s <=? PATCH_MAX_RETRIES) (patch_attempt d l)
                (grows_refl _) (grows_trans _)) with (fuel := retry_fuel)
      (s := Retry 1 1) (w := w) as (o & w' & Hw & Hg & Hs).
    + intros s w0 Hc. apply patch_attempt_shape. lia.
    + vm_compute. lia.
    + unfold bind. rewrite Hw.
      destruct o as [r|e| |]; simpl in *; try done;
        (eexists _, _; split; [reflexivity|by split]).
Qed.

Lemma patch_client_error d l w status b :
  net w (sent w) = Reply status b → 400 ≤ status < 500 →
  ∃ w', patch_device_location d l false w = (Raise (HTTPError status), w')
        ∧ ran w w' 1 [Act (PatchAtlas d l)].
Proof.
  intros Hnet Hs.
  destruct (retry_client_error (PatchAtlas d l) (patch_attempt d l)
              (patch_attempt_client_error d l) w status b Hnet Hs)
    as (w' & Hrun & Hran).
  exists w'. split; [|done].
  unfold patch_device_location. by use_loop Hrun.
Qed.

Lemma patch_server_errors d l w c1 b1 c2 b2 c3 b3 :
  net w (sent w) = Reply c1 b1 → 500 ≤ c1 < 600 →
  net w (sent w + 1)%nat = Reply c2 b2 → 500 ≤ c2 < 600 →
  net w (sent w + 2)%nat = Reply c3 b3 → 500 ≤ c3 < 600 →
  ∃ w', patch_device_location d l false w = (Raise (HTTPError c3), w')
        ∧ ran w w' 3 [Act (PatchAtlas d l); Slept 1; Act (PatchAtlas d l);
                      Slept 2; Act (PatchAtlas d l)].
Proof.
  intros Hn1 Hs1 Hn2 Hs2 Hn3 Hs3.
  destruct (retry_server_errors (PatchAtlas d l) (patch_attempt d l)
              (patch_attempt_server_error d l)
              (patch_attempt_server_error_last d l)
              w c1 b1 c2 b2 c3 b3 Hn1 Hs1 Hn2 Hs2 Hn3 Hs3)
    as (w' & Hrun & Hran).
  exists w'. split; [|done].
  unfold patch_device_location. by use_loop Hrun.
Qed.

(** The same for [add_tag_to_device]. *)

Lemma tag_attempt_client_error d t s w status b :
  net w (sent w) = Reply status b → 400 ≤ status < 500 →
  ∃ w', tag_attempt d t s w = (Raise (HTTPError status), w')
        ∧ ran w w' 1 [Act (PostDeviceTags d t)].
Proof.
  intros Hnet Hs. unfold tag_attempt.
  attempt_with Hnet; (eexists; split; [reflexivity|ran_done]).
Qed.

Lemma tag_attempt_server_error d t s w status b :
  net w (sent w) = Reply status b → 500 ≤ status < 600 →
  attempt s ≠ PATCH_MAX_RETRIES →
  ∃ w', tag_attempt d t s w = (Return (Next (Retry (attempt s + 1) (delay s * 2))), w')
        ∧ ran w w' 1 [Act (PostDeviceTags d t); Slept (delay s)].
Proof.
  intros Hnet Hs Ha. unfold tag_attempt.
  attempt_with Hnet; (eexists; split; [reflexivity|ran_done]).
Qed.

Lemma tag_attempt_server_error_last d t s w status b :
  net w (sent w) = Reply status b → 500 ≤ status < 600 →
  attempt s = PATCH_MAX_RETRIES →
  ∃ w', tag_attempt d t s w = (Raise (HTTPError status), w')
        ∧ ran w w' 1 [Act (PostDeviceTags d t)].
Proof.
  intros Hnet Hs Ha. unfold tag_attempt.
  attempt_with Hnet; (eexists; split; [reflexivity|ran_done]).
Qed.

Lemma tag_attempt_shape d t s w :
  attempt s ≤ PATCH_MAX_RETRIES →
  ∃ o w', tag_attempt d t s w = (o, w') ∧ grows (tag_event d t) w w' ∧
    match o with
    | Return (Next s') => (remaining s' < remaining s)%nat
    | Return (Returned _) | Raise _ => True
    | _ => False
    end.
Proof.
  intros Ha. unfold tag_attempt.
  destruct (net w (sent w)) as [|status b] eqn:Hnet;
    attempt_with Hnet;
    (eexists _, _; split; [reflexivity|split; [grows_done|]]);
    try done; unfold remaining; simpl; lia.
Qed.

Lemma tag_settles d t dry_run w :
  ∃ o w', add_tag_to_device d t dry_run w = (o, w')
          ∧ grows (tag_event d t) w w' ∧ settled o.
Proof.
  unfold add_tag_to_device. destruct dry_run.
  - eexists _, _; split; [reflexivity|split; [grows_done|done]].
  - destruct (while_settles (grows (tag_event d t)) remaining
                (λ s, attempt s <=? PATCH_MAX_RETRIES) (tag_attempt d t)
                (grows_refl _) (grows_trans _)) with (fuel := retry_fuel)
      (s := Retry 1 1) (w := w) as (o & w' & Hw & Hg & Hs).
    + intros s w0 Hc. apply tag_attempt_shape. lia.
    + vm_compute. lia.
    + unfold bind. rewrite Hw.
      destruct o as [r|e| |]; simpl in *; try done;
        (eexists _, _; split; [reflexivity|by split]).
Qed.

Lemma tag_client_error d t w status b :
  net w (sent w) = Reply status b → 400 ≤ status < 500 →
  ∃ w', add_tag_to_device d t false w = (Raise (HTTPError status), w')
        ∧ ran w w' 1 [Act (PostDeviceTags d t)].
Proof.
  intros Hnet Hs.
  destruct (retry_client_error (PostDeviceTags d t) (tag_attempt d t)
              (tag_attempt_client_error d t) w status b Hnet Hs)
    as (w' & Hrun & Hran).
  exists w'. split; [|done].
  unfold add_tag_to_device. by use_loop Hrun.
Qed.

Lemma tag_server_errors d t w c1 b1 c2 b2 c3 b3 :
  net w (sent w) = Reply c1 b1 → 500 ≤ c1 < 600 →
  net w (sent w + 1)%nat = Reply c2 b2 → 500 ≤ c2 < 600 →
  net w (sent w + 2)%nat = Reply c3 b3 → 500 ≤ c3 < 600 →
  ∃ w', add_tag_to_device d t false w = (Raise (HTTPError c3), w')
        ∧ ran w w' 3 [Act (PostDeviceTags d t); Slept 1; Act (PostDeviceTags d t);
                      Slept 2; Act (PostDeviceTags d t)].
Proof.
  intros Hn1 Hs1 Hn2 Hs2 Hn3 Hs3.
  destruct (retry_server_errors (PostDeviceTags d t) (tag_attempt d t)
              (tag_attempt_server_error d t)
              (tag_attempt_server_error_last d t)
              w c1 b1 c2 b2 c3 b3 Hn1 Hs1 Hn2 Hs2 Hn3 Hs3)
    as (w' & Hrun & Hran).
  exists w'. split; [|done].
  unfold add_tag_to_device. by use_loop Hrun.
Qed.

(** *** The record loop *)

Lemma process_entry_returns n2i tags dry_run e failures w :
  ∃ failures' w',
    process_entry n2i tags dry_run e failures w = (Return failures', w')
    ∧ (failures' = failures ∨ failures' = failures + 1).
Proof.
  unfold process_entry.
  destruct (truthy (tag e) && negb (bool_decide (lower (tag e) ∈ tags))).
  { eexists _, _; split; [reflexivity|by right]. }
  destruct (resolve n2i (location e)) as [location_id|].
  2: { eexists _, _; split; [reflexivity|by right]. }
  unfold try_except, bind, log, record, ret. cbv beta.
  match goal with
  | |- context [patch_device_location ?d ?l ?dr ?W] =>
      destruct (patch_settles d l dr W) as (o & w1 & Hp & _ & Hs);
      rewrite Hp
  end.
  destruct o as [[]|err| |]; try done.
  2: { eexists _, _; split; [reflexivity|by right]. }
  destruct (truthy (tag e)).
  - destruct (tag_settles (device e) (tag e) dry_run w1) as (o & w2 & Ht & _ & Hs2).
    rewrite Ht. destruct o as [[]|err| |]; try done;
      (eexists _, _; split; [reflexivity|]); [by left|by right].
  - eexists _, _; split; [reflexivity|by left].
Qed.

Lemma process_entries_returns n2i tags dry_run devs failures w :
  ∃ failures' w',
    process_entries n2i tags dry_run devs failures w = (Return failures', w')
    ∧ failures ≤ failures' ≤ failures + Z.of_nat (length devs).
Proof.
  revert failures w. induction devs as [|e rest IH]; intros failures w.
  - exists failures, w. split; [done|simpl; lia].
  - destruct (process_entry_returns n2i tags dry_run e failures w)
      as (f1 & w1 & He & Hf).
    destruct (IH f1 w1) as (f2 & w2 & Hr & Hf2).
    exists f2, w2. simpl process_entries. unfold bind. rewrite He.
    split; [done|]. simpl length. lia.
Qed.


(** C7. A record with a label whose lower-cased form is not in the set
    of existing tags costs the loop one failure and one error line in
    the log: no request is sent for it, and the loop goes on with the
    records that follow.  As the last record, it makes the loop return
    the count plus one. *)
Theorem unknown_label_counts_one_failure n2i tags dry_run e rest failures w :
  truthy (tag e) = true → lower (tag e) ∉ tags →
  process_entries n2i tags dry_run (e :: rest) failures w =
  process_entries n2i tags dry_run rest (failures + 1)
    (after w [Logged ERROR "Tag '%s' not found in Forward (device '%s')"])
  ∧ process_entries n2i tags dry_run [e] failures w =
    (Return (failures + 1),
     after w [Logged ERROR "Tag '%s' not found in Forward (device '%s')"]).
Proof.
  intros Htag Hnot.
  split; simpl process_entries; unfold bind, process_entry;
    by rewrite Htag, bool_decide_false.
Qed.

(** C9. When the label check and the lookup pass and the PATCH call of
    a record raises, the loop counts one failure, logs it and goes on
    with the records that follow; between the start of the record and
    that point the only requests sent are PATCH requests of this
    record, so the tag request is never sent.  As the last record, it
    makes the loop return the count plus one. *)
Theorem failed_patch_counts_one_failure
    n2i tags dry_run e rest failures w location_id err w1 :
  (truthy (tag e) = true → lower (tag e) ∈ tags) →
  resolve n2i (location e) = Some location_id →
  patch_device_location (device e) location_id dry_run
    (after w
       [Logged INFO "Processing device '%s' -> location '%s' (id=%s) with tag '%s'"])
    = (Raise err, w1) →
  process_entries n2i tags dry_run (e :: rest) failures w =
  process_entries n2i tags dry_run rest (failures + 1)
    (after w1 [Logged ERROR "Failed processing device '%s': %s"])
  ∧ grows (patch_event (device e) location_id) w w1
  ∧ process_entries n2i tags dry_run [e] failures w =
    (Return (failures + 1),
     after w1 [Logged ERROR "Failed processing device '%s': %s"]).
Proof.
  intros Htag Hres Hpatch.
  assert (Hstep : ∀ rest',
            process_entries n2i tags dry_run (e :: rest') failures w =
            process_entries n2i tags dry_run rest' (failures + 1)
              (after w1 [Logged ERROR "Failed processing device '%s': %s"])).
  { intros rest'. simpl process_entries. unfold bind at 1. unfold process_entry.
    assert (truthy (tag e) && negb (bool_decide (lower (tag e) ∈ tags)) = false)
      as ->.
    { destruct (truthy (tag e)); [|done].
      by rewrite bool_decide_true by by apply Htag. }
    rewrite Hres. unfold try_except, bind, log, record. cbv beta.
    unfold after in Hpatch. by rewrite Hpatch. }
  split; [apply Hstep|]. split; [|by rewrite Hstep].
  - match type of Hpatch with
    | patch_device_location ?d ?l ?dr ?w0 = _ =>
        destruct (patch_settles d l dr w0) as (o & w2 & Hp & Hg & _)
    end.
    rewrite Hpatch in Hp. injection Hp as <- <-.
    eapply grows_trans; [|exact Hg]. unfold after. grows_done.
Qed.

(** *** The CSV loader *)


Lemma load_rows_errors_grow has_tag_col rs idx devs errs :
  ∃ more, (load_rows has_tag_col idx rs devs errs).2 = errs ++ more.
Proof.
  revert idx devs errs. induction rs as [|row rest IH]; intros idx devs errs.
  - exists []. simpl. by rewrite app_nil_r.
  - simpl.
    repeat match goal with
           | |- context [if ?b then _ else _] => destruct b
           end;
      match goal with
      | |- context [load_rows _ ?i rest ?d ?e] =>
          destruct (IH i d e) as (more & ->)
      end;
      rewrite <- ?app_assoc; eauto.
Qed.





(** *** The location lookup *)

Lemma build_lookup_cons loc rest m :
  build_lookup (loc :: rest) m =
  match registers loc with
  | None => build_lookup rest m
  | Some (key, loc_id) =>
      bind (match m !! key with
            | Some old => if bool_decide (old ≠ loc_id)
                          then record duplicate_warning else ret tt
            | None => ret tt
            end)
           (λ _, build_lookup rest (<[key := loc_id]> m))
  end.
Proof.
  unfold registers. simpl.
  by destruct (negb (truthy (strip (remote_id loc)))
               || negb (truthy (strip (remote_name loc)))).
Qed.

Lemma lookup_of_cons loc rest m :
  lookup_of (loc :: rest) m =
  lookup_of rest (match registers loc with
                  | Some (key, loc_id) => <[key := loc_id]> m
                  | None => m
                  end).
Proof. reflexivity. Qed.

Lemma lookup_of_app pre post m :
  lookup_of (pre ++ post) m = lookup_of post (lookup_of pre m).
Proof. apply foldl_app. Qed.

(** The loop returns the table, sends nothing and only logs. *)
Lemma build_lookup_runs data m w :
  ∃ w', build_lookup data m w = (Return (lookup_of data m), w') ∧ ran w w' 0 [].
Proof.
  revert m w. induction data as [|loc rest IH]; intros m w.
  - exists w. split; [done|apply ran_refl].
  - rewrite build_lookup_cons, lookup_of_cons.
    destruct (registers loc) as [[key loc_id]|]; [|apply IH].
    unfold bind.
    destruct (m !! key) as [old|]; [destruct (bool_decide (old ≠ loc_id))|];
      simpl;
      match goal with
      | |- context [build_lookup rest ?m1 ?w1] =>
          destruct (IH m1 w1) as (w' & Hrun & Hran); rewrite Hrun
      end;
      (exists w'; split; [done|]).
    + eapply (ran_trans w _ w' 0 0 [] []); [|exact Hran]. ran_done.
    + done.
    + done.
Qed.

Lemma lookup_of_skips post key m :
  (∀ e, e ∈ post → ∀ i, registers e ≠ Some (key, i)) →
  lookup_of post m !! key = m !! key.
Proof.
  revert m. induction post as [|e post IH]; intros m Hpost; [done|].
  rewrite lookup_of_cons, IH.
  - destruct (registers e) as [[k i]|] eqn:He; [|done].
    apply lookup_insert_ne. intros ->.
    by apply (Hpost e (list_elem_of_here _ _) i).
  - intros e' He'. apply Hpost. by apply list_elem_of_further.
Qed.

Lemma lookup_of_last pre e post key i m :
  registers e = Some (key, i) →
  (∀ e', e' ∈ post → ∀ i', registers e' ≠ Some (key, i')) →
  lookup_of (pre ++ e :: post) m !! key = Some i.
Proof.
  intros He Hpost.
  rewrite lookup_of_app, lookup_of_cons, He, lookup_of_skips by done.
  apply lookup_insert_eq.
Qed.

Lemma registers_truthy loc key i : registers loc = Some (key, i) → truthy i = true.
Proof.
  unfold registers.
  destruct (truthy (strip (remote_id loc))) eqn:Hid; simpl; [|done].
  destruct (truthy (strip (remote_name loc))); simpl; [|done].
  by intros [= _ <-].
Qed.

Lemma lookup_of_truthy data m :
  (∀ k i, m !! k = Some i → truthy i = true) →
  ∀ k i, lookup_of data m !! k = Some i → truthy i = true.
Proof.
  revert m. induction data as [|loc rest IH]; intros m Hm; [done|].
  rewrite lookup_of_cons. apply IH.
  destruct (registers loc) as [[key loc_id]|] eqn:Hloc; [|done].
  intros k i. rewrite lookup_insert. case_decide.
  - intros [= <-]. eapply registers_truthy; eauto.
  - apply Hm.
Qed.

(** [warned w w']: between [w] and [w'] the duplicate warning was
    logged. *)
Lemma build_lookup_warns_after mid e post key old i m w :
  m !! key = Some old → old ≠ i → registers e = Some (key, i) →
  ∃ m' w' new, build_lookup (mid ++ e :: post) m w = (Return m', w')
               ∧ trace w' = trace w ++ new ∧ duplicate_warning ∈ new.
Proof.
  intros Hm Hne He. revert m w Hm.
  induction mid as [|x mid IH]; intros m w Hm.
  - simpl app. rewrite build_lookup_cons, He. unfold bind.
    rewrite Hm, bool_decide_true by done. simpl.
    match goal with
    | |- context [build_lookup post ?m1 ?w1] =>
        destruct (build_lookup_runs post m1 w1) as (w' & Hrun & _ & _ & new & Ht & _)
    end.
    rewrite Hrun. eexists _, w', (duplicate_warning :: new).
    split; [done|]. split; [|apply list_elem_of_here].
    rewrite Ht. simpl. by rewrite <- app_assoc.
  - simpl app. rewrite build_lookup_cons.
    destruct (registers x) as [[k j]|] eqn:Hx; [|by apply IH].
    unfold bind.
    destruct (decide (k = key)) as [->|Hk].
    + rewrite Hm. destruct (decide (old = j)) as [<-|Hj].
      * rewrite bool_decide_false by naive_solver. simpl.
        apply IH. apply lookup_insert_eq.
      * rewrite bool_decide_true by done. simpl.
        match goal with
        | |- context [build_lookup ?d ?m1 ?w1] =>
            destruct (build_lookup_runs d m1 w1)
              as (w' & Hrun & _ & _ & new & Ht & _)
        end.
        rewrite Hrun. eexists _, w', (duplicate_warning :: new).
        split; [done|]. split; [|apply list_elem_of_here].
        rewrite Ht. simpl. by rewrite <- app_assoc.
    + assert (Hm' : <[k := j]> m !! key = Some old)
        by by rewrite lookup_insert_ne.
      destruct (m !! k) as [o|]; [destruct (bool_decide (o ≠ j))|]; simpl.
      * match goal with
        | |- context [build_lookup ?d ?m1 ?w1] =>
            destruct (IH m1 w1 Hm') as (m' & w' & new & Hrun & Ht & Hin)
        end.
        rewrite Hrun. eexists _, w', (duplicate_warning :: new).
        split; [done|]. split; [|by apply list_elem_of_further].
        rewrite Ht. simpl. by rewrite <- app_assoc.
      * by apply IH.
      * by apply IH.
Qed.

Lemma build_lookup_warns pre e1 mid e2 post key i1 i2 m w :
  registers e1 = Some (key, i1) → registers e2 = Some (key, i2) → i1 ≠ i2 →
  ∃ m' w' new, build_lookup (pre ++ e1 :: mid ++ e2 :: post) m w = (Return m', w')
               ∧ trace w' = trace w ++ new ∧ duplicate_warning ∈ new.
Proof.
  intros He1 He2 Hne. revert m w.
  induction pre as [|x pre IH]; intros m w.
  - simpl app. rewrite build_lookup_cons, He1. unfold bind.
    assert (Hstep : ∀ w1, ∃ m' w' new,
               build_lookup (mid ++ e2 :: post) (<[key := i1]> m) w1 = (Return m', w')
               ∧ trace w' = trace w1 ++ new ∧ duplicate_warning ∈ new).
    { intros w1. eapply build_lookup_warns_after; eauto. apply lookup_insert_eq. }
    destruct (m !! key) as [o|]; [destruct (bool_decide (o ≠ i1))|]; simpl.
    + match goal with
      | |- context [build_lookup _ _ ?w1] =>
          destruct (Hstep w1) as (m' & w' & new & Hrun & Ht & Hin)
      end.
      rewrite Hrun. eexists _, w', (duplicate_warning :: new).
      split; [done|]. split; [|by apply list_elem_of_further].
      rewrite Ht. simpl. by rewrite <- app_assoc.
    + apply Hstep.
    + apply Hstep.
  - simpl app. rewrite build_lookup_cons.
    destruct (registers x) as [[k j]|]; [|apply IH].
    unfold bind.
    destruct (m !! k) as [o|]; [destruct (bool_decide (o ≠ j))|]; simpl.
    + match goal with
      | |- context [build_lookup ?d ?m1 ?w1] =>
          destruct (IH m1 w1) as (m' & w' & new & Hrun & Ht & Hin)
      end.
      rewrite Hrun. eexists _, w', (duplicate_warning :: new).
      split; [done|]. split; [|by apply list_elem_of_further].
      rewrite Ht. simpl. by rewrite <- app_assoc.
    + apply IH.
    + apply IH.
Qed.

Lemma fetch_location_lookup_inv w table w' :
  fetch_location_lookup w = (Return table, w') →
  ∃ status data, net w (sent w) = Reply status (LocationList data)
                 ∧ table = lookup_of data ∅.
Proof.
  unfold fetch_location_lookup, bind, log, record, request, raise_for_status.
  simpl. destruct (net w (sent w)) as [|status b]; [done|]. simpl.
  destruct ((400 <=? status) && (status <? 600)); [done|]. simpl.
  destruct b as [|data|names]; [done| |done].
  match goal with
  | |- context [build_lookup data ∅ ?w1] =>
      destruct (build_lookup_runs data ∅ w1) as (w2 & Hrun & _); rewrite Hrun
  end.
  destruct (bool_decide (lookup_of data ∅ = ∅)); [done|].
  intros [= <- _]. by exists status, data.
Qed.

Lemma fetch_location_lookup_duplicate w status pre e1 mid e2 post key i1 i2 :
  net w (sent w) = Reply status (LocationList (pre ++ e1 :: mid ++ e2 :: post)) →
  ¬ (400 ≤ status < 600) →
  registers e1 = Some (key, i1) → registers e2 = Some (key, i2) → i1 ≠ i2 →
  (∀ e, e ∈ post → ∀ i, registers e ≠ Some (key, i)) →
  ∃ table w' new,
    fetch_location_lookup w = (Return table, w')
    ∧ table !! key = Some i2
    ∧ trace w' = trace w ++ new ∧ duplicate_warning ∈ new.
Proof.
  intros Hnet Hs He1 He2 Hne Hpost.
  unfold fetch_location_lookup, bind, log, record, request, raise_for_status.
  simpl. rewrite Hnet. simpl.
  assert ((400 <=? status) && (status <? 600) = false) as -> by
    (apply andb_false_iff; lia).
  simpl.
  match goal with
  | |- context [build_lookup ?d ∅ ?w1] =>
      destruct (build_lookup_warns pre e1 mid e2 post key i1 i2 ∅ w1 He1 He2 Hne)
        as (m' & w2 & new & Hrun & Ht & Hin);
      destruct (build_lookup_runs d ∅ w1) as (w3 & Hrun' & _)
  end.
  rewrite Hrun in Hrun'. injection Hrun' as -> _. rewrite Hrun.
  assert (Hkey : lookup_of (pre ++ e1 :: mid ++ e2 :: post) ∅ !! key = Some i2).
  { replace (pre ++ e1 :: mid ++ e2 :: post) with ((pre ++ e1 :: mid) ++ e2 :: post)
      by by rewrite <- app_assoc.
    by apply lookup_of_last. }
  rewrite bool_decide_false.
  2: { intros Hempty. by rewrite Hempty, lookup_empty in Hkey. }
  eexists _, _, _. split; [reflexivity|]. split; [done|]. simpl.
  split.
  - rewrite Ht. simpl. rewrite <- !app_assoc. reflexivity.
  - apply elem_of_app. right. apply list_elem_of_further.
    apply elem_of_app. left. exact Hin.
Qed.

(** C6. A reference whose lower-cased form is a key of the table that
    [fetch_location_lookup] returned resolves to the identifier stored
    under that key, whatever the case of its letters.  When two objects
    of the collection register the same key with different identifiers,
    the call still returns, the identifier of the last object with that
    key is the one stored, and the duplicate warning is logged. *)
Theorem resolution_returns_registered_id :
  (∀ w table w', fetch_location_lookup w = (Return table, w') →
     ∀ location_name location_id,
       table !! lower location_name = Some location_id →
       resolve table location_name = Some location_id
       ∧ ∀ other, lower other = lower location_name →
                  resolve table other = Some location_id)
  ∧ (∀ w status pre e1 mid e2 post key i1 i2,
       net w (sent w) = Reply status (LocationList (pre ++ e1 :: mid ++ e2 :: post)) →
       ¬ (400 ≤ status < 600) →
       registers e1 = Some (key, i1) → registers e2 = Some (key, i2) → i1 ≠ i2 →
       (∀ e, e ∈ post → ∀ i, registers e ≠ Some (key, i)) →
       ∃ table w' new,
         fetch_location_lookup w = (Return table, w')
         ∧ table !! key = Some i2
         ∧ trace w' = trace w ++ new ∧ duplicate_warning ∈ new).
Proof.
  split.
  - intros w table w' Hfetch location_name location_id Hkey.
    destruct (fetch_location_lookup_inv w table w' Hfetch)
      as (status & data & _ & ->).
    assert (Ht : truthy location_id = true).
    { eapply (lookup_of_truthy data ∅); [|exact Hkey].
      intros k i. by rewrite lookup_empty. }
    assert (Hres : ∀ n, lower n = lower location_name →
                        resolve (lookup_of data ∅) n = Some location_id).
    { intros n Hn. unfold resolve. by rewrite Hn, Hkey, Ht. }
    split; [by apply Hres|exact Hres].
  - apply fetch_location_lookup_duplicate.
Qed.

End DeviceFacts.

(** ** The location locater *)

Module LocationFacts.

Import LocationLocater.

Section Coordinates.

Context {coord : Type} (float : string → option coord).

Implicit Types (w : world (@action coord) body) (s : retry).

Section Post.

Context (finite : coord → bool).

(** *** The POST call *)

(** Runs one attempt whose payload can be encoded and whose answer
  is known. *)
Ltac post_with Henc Hnet :=
unfold post_attempt, post_request; rewrite Henc; attempt_with Hnet.

Lemma post_attempt_client_error loc (Henc : encodable finite loc = true)
  s w status b :
net w (sent w) = Reply status b → 400 ≤ status < 500 →
∃ w', post_attempt finite loc s w = (Raise (HTTPError status), w')
      ∧ ran w w' 1 [Act (PostLocation loc)].
Proof.
intros Hnet Hs.
post_with Henc Hnet; (eexists; split; [reflexivity|ran_done]).
Qed.

Lemma post_attempt_server_error loc (Henc : encodable finite loc = true)
  s w status b :
net w (sent w) = Reply status b → 500 ≤ status < 600 →
attempt s ≠ POST_MAX_RETRIES →
∃ w', post_attempt finite loc s w
        = (Return (Next (Retry (attempt s + 1) (delay s * 2))), w')
      ∧ ran w w' 1 [Act (PostLocation loc); Slept (delay s)].
Proof.
intros Hnet Hs Ha.
post_with Henc Hnet; (eexists; split; [reflexivity|ran_done]).
Qed.

Lemma post_attempt_server_error_last loc (Henc : encodable finite loc = true)
  s w status b :
net w (sent w) = Reply status b → 500 ≤ status < 600 →
attempt s = POST_MAX_RETRIES →
∃ w', post_attempt finite loc s w = (Raise (HTTPError status), w')
      ∧ ran w w' 1 [Act (PostLocation loc)].
Proof.
intros Hnet Hs Ha.
post_with Henc Hnet; (eexists; split; [reflexivity|ran_done]).
Qed.



Lemma post_client_error loc w status b :
encodable finite loc = true →
net w (sent w) = Reply status b → 400 ≤ status < 500 →
∃ w', post_single_location_to_forward finite loc w = (Raise (HTTPError status), w')
      ∧ ran w w' 1 [Act (PostLocation loc)].
Proof.
intros Henc Hnet Hs.
destruct (retry_client_error (PostLocation loc) (post_attempt finite loc)
            (post_attempt_client_error loc Henc) w status b Hnet Hs)
  as (w' & Hrun & Hran).
exists w'. split; [|done].
unfold post_single_location_to_forward. by use_loop Hrun.
Qed.

Lemma post_server_errors loc w c1 b1 c2 b2 c3 b3 :
encodable finite loc = true →
net w (sent w) = Reply c1 b1 → 500 ≤ c1 < 600 →
net w (sent w + 1)%nat = Reply c2 b2 → 500 ≤ c2 < 600 →
net w (sent w + 2)%nat = Reply c3 b3 → 500 ≤ c3 < 600 →
∃ w', post_single_location_to_forward finite loc w = (Raise (HTTPError c3), w')
      ∧ ran w w' 3 [Act (PostLocation loc); Slept 1; Act (PostLocation loc);
                    Slept 2; Act (PostLocation loc)].
Proof.
intros Henc Hn1 Hs1 Hn2 Hs2 Hn3 Hs3.
destruct (retry_server_errors (PostLocation loc) (post_attempt finite loc)
            (post_attempt_server_error loc Henc)
            (post_attempt_server_error_last loc Henc)
            w c1 b1 c2 b2 c3 b3 Hn1 Hs1 Hn2 Hs2 Hn3 Hs3)
  as (w' & Hrun & Hran).
exists w'. split; [|done].
unfold post_single_location_to_forward. by use_loop Hrun.
Qed.



End Post.

(** *** The geocoding call *)

(** Case analysis on the answer a geocoding attempt receives. *)
Ltac answer_cases Hans :=
  unfold answer in Hans;
  repeat match type of Hans with
         | context [match ?x with _ => _ end] => destruct x eqn:?; simpl in Hans
         | context [if ?x then _ else _] => destruct x eqn:?; simpl in Hans
         end;
  try discriminate Hans.

Ltac geocode_run Hnet :=
  unfold geocode_attempt, try_except, bind, log, sleep, record, request,
    raise_for_status, raise, ret, float_field;
  simpl; rewrite Hnet; simpl;
  repeat match goal with
         | H : ?x = _ |- context [?x] => rewrite H; simpl
         end;
  repeat match goal with
         | |- context [match float ?x with _ => _ end] =>
             destruct (float x) eqn:?; simpl
         end.

Lemma geocode_attempt_fails address s w :
  answer float (net w (sent w)) = None → attempt s ≠ GEOCODE_MAX_RETRIES →
  ∃ w', geocode_attempt float address s w
          = (Return (Next (Retry (attempt s + 1) (delay s * 2))), w')
        ∧ ran w w' 1 [Act (GetNominatim address); Slept (delay s)].
Proof.
  intros Hans Ha. destruct (net w (sent w)) as [|status b] eqn:Hnet;
    answer_cases Hans; geocode_run Hnet; settle_tests;
    (eexists; split; [reflexivity|ran_done]).
Qed.

Lemma geocode_attempt_fails_last address s w :
  answer float (net w (sent w)) = None → attempt s = GEOCODE_MAX_RETRIES →
  ∃ e w', geocode_attempt float address s w = (Raise e, w')
          ∧ ran w w' 1 [Act (GetNominatim address)].
Proof.
  intros Hans Ha. destruct (net w (sent w)) as [|status b] eqn:Hnet;
    answer_cases Hans; geocode_run Hnet; settle_tests;
    (eexists _, _; split; [reflexivity|ran_done]).
Qed.

Lemma geocode_attempt_succeeds address s w latlng :
  answer float (net w (sent w)) = Some latlng →
  ∃ w', geocode_attempt float address s w = (Return (Returned latlng), w')
        ∧ ran w w' 1 [Act (GetNominatim address)].
Proof.
  intros Hans. destruct (net w (sent w)) as [|status b] eqn:Hnet;
    answer_cases Hans; geocode_run Hnet;
    injection Hans as <-;
    (eexists; split; [reflexivity|ran_done]).
Qed.

Lemma geocode_attempt_shape address s w :
  attempt s ≤ GEOCODE_MAX_RETRIES →
  ∃ o w', geocode_attempt float address s w = (o, w')
          ∧ ran w w' 1 (effects (drop (length (trace w)) (trace w')))
          ∧ match o with
            | Return (Next s') => (remaining s' < remaining s)%nat
            | Return (Returned _) | Raise _ => True
            | _ => False
            end.
Proof.
  intros Ha.
  assert (Hdrop : ∀ w' n es, ran w w' n es →
            ran w w' n (effects (drop (length (trace w)) (trace w')))).
  { intros w' n es (Hn & Hs & new & Ht & He). repeat split; [done..|].
    exists new. split; [done|]. by rewrite Ht, drop_app_length. }
  destruct (answer float (net w (sent w))) as [latlng|] eqn:Hans.
  - destruct (geocode_attempt_succeeds address s w latlng Hans) as (w' & Hrun & Hran).
    eexists _, w'. split; [exact Hrun|]. split; [by eapply Hdrop|done].
  - destruct (decide (attempt s = GEOCODE_MAX_RETRIES)) as [Hlast|Hmore].
    + destruct (geocode_attempt_fails_last address s w Hans Hlast)
        as (e & w' & Hrun & Hran).
      eexists _, w'. split; [exact Hrun|]. split; [by eapply Hdrop|done].
    + destruct (geocode_attempt_fails address s w Hans Hmore) as (w' & Hrun & Hran).
      eexists _, w'. split; [exact Hrun|]. split; [by eapply Hdrop|].
      unfold remaining, GEOCODE_MAX_RETRIES in *. simpl. lia.
Qed.

(** The call settles after at least one request. *)
Lemma geocode_address_settles address w :
  ∃ o w', geocode_address float address w = (o, w')
          ∧ settled o ∧ grows anything w w' ∧ (sent w < sent w')%nat.
Proof.
  unfold geocode_address, bind. change geocode_fuel with 4%nat.
  rewrite while_S by done.
  destruct (geocode_attempt_shape address (Retry 1 GEOCODE_DELAY_SECONDS) w)
    as (o & w1 & Hrun & Hran & Ho); [done|].
  rewrite Hrun.
  assert (Hlt : (sent w < sent w1)%nat) by (destruct Hran as (_ & -> & _); lia).
  apply ran_grows in Hran.
  destruct o as [[s'|latlng]|e| |]; try done.
  - destruct (while_settles (grows anything) remaining
                (λ s, attempt s <=? GEOCODE_MAX_RETRIES)
                (geocode_attempt float address)
                (grows_refl _) (grows_trans _)) with (fuel := 3%nat)
      (s := s') (w := w1) as (o & w2 & Hw & Hg & Hs).
    + intros s w0 Hc.
      destruct (geocode_attempt_shape address s w0) as (o & w' & H1 & H2 & H3);
        [lia|].
      exists o, w'. split; [done|]. split; [by eapply ran_grows|done].
    + unfold remaining in *. simpl in Ho. lia.
    + rewrite Hw.
      assert (Hlt2 : (sent w < sent w2)%nat) by (destruct Hg as (_ & ? & _); lia).
      destruct o as [[s2|latlng]|e| |]; try done;
        (eexists _, w2; split; [reflexivity|]; split; [done|];
         split; [by eapply grows_trans|done]).
  - eexists _, w1. split; [reflexivity|]. split; [done|]. by split.
  - eexists _, w1. split; [reflexivity|]. split; [done|]. by split.
Qed.

(** Three answers without coordinates in a row: three requests, the
    delays 1 and 2 between them, and the call raises. *)
Lemma geocode_address_retries address w :
  answer float (net w (sent w)) = None →
  answer float (net w (sent w + 1)%nat) = None →
  answer float (net w (sent w + 2)%nat) = None →
  ∃ e w', geocode_address float address w = (Raise e, w')
          ∧ ran w w' 3 [Act (GetNominatim address); Slept 1;
                        Act (GetNominatim address); Slept 2;
                        Act (GetNominatim address)].
Proof.
  intros H1 H2 H3.
  destruct (geocode_attempt_fails address (Retry 1 1) w H1) as (w1 & Hrun1 & Hran1);
    [done|].
  destruct (geocode_attempt_fails address (Retry 2 2) w1) as (w2 & Hrun2 & Hran2);
    [|done|].
  { destruct Hran1 as (-> & -> & _). done. }
  destruct (geocode_attempt_fails_last address (Retry 3 4) w2)
    as (e & w3 & Hrun3 & Hran3); [|done|].
  { destruct Hran2 as (-> & -> & _), Hran1 as (-> & -> & _).
    by rewrite <- Nat.add_assoc. }
  exists e, w3. split.
  - unfold geocode_address, bind. change geocode_fuel with 4%nat.
    rewrite while_S by done.
    change (Retry 1 GEOCODE_DELAY_SECONDS) with (Retry 1 1). rewrite Hrun1.
    rewrite while_S by done.
    change (Retry (attempt (Retry 1 1) + 1) (delay (Retry 1 1) * 2)) with (Retry 2 2).
    rewrite Hrun2. rewrite while_S by done.
    change (Retry (attempt (Retry 2 2) + 1) (delay (Retry 2 2) * 2)) with (Retry 3 4).
    by rewrite Hrun3.
  - apply (ran_trans _ _ _ 1 2 [_; _] [_; _; _] Hran1).
    apply (ran_trans _ _ _ 1 1 [_; _] [_] Hran2 Hran3).
Qed.

(** A first answer with coordinates: one request, no delay. *)
Lemma geocode_address_first address w latlng :
  answer float (net w (sent w)) = Some latlng →
  ∃ w', geocode_address float address w = (Return latlng, w')
        ∧ ran w w' 1 [Act (GetNominatim address)].
Proof.
  intros Hans.
  destruct (geocode_attempt_succeeds address (Retry 1 GEOCODE_DELAY_SECONDS)
              w latlng Hans) as (w' & Hrun & Hran).
  exists w'. split; [|done].
  unfold geocode_address, bind. change geocode_fuel with 4%nat.
  rewrite while_S by done. by rewrite Hrun.
Qed.

(** *** The coordinate loop *)

(** A record lacking a coordinate is treated like one lacking both. *)
Lemma geocode_loop_absent i n a la ln rest results w :
  la = None ∨ ln = None →
  geocode_loop float (Location i n a la ln :: rest) results w =
  geocode_loop float (Location i n a None None :: rest) results w.
Proof. intros [-> | ->]; [by destruct ln|by destruct la]. Qed.

(** C8. A record that carries both coordinates goes into the result
    with these very values, at the cost of one line in the log: no
    request, no delay.  A record that lacks one is geocoded with at
    least one request, and the delay [GEOCODE_DELAY_SECONDS] follows
    before the next record, whether a result came back or not.  As
    the last record, a record with both coordinates makes the loop
    return the results so far and its own entry. *)
Theorem supplied_coordinates_skip_geocoding loc rest results w :
  (∀ la ln, lat loc = Some la → lng loc = Some ln →
     geocode_loop float (loc :: rest) results w =
     geocode_loop float rest (results ++ [Located (id loc) (name loc) la ln])
       (after w [Logged INFO
          "[%d/%d] Using existing lat/lng for '%s' (%s): lat=%s, lng=%s"]))
  ∧ (lat loc = None ∨ lng loc = None →
     ∃ results' w1,
       geocode_loop float (loc :: rest) results w =
       geocode_loop float rest results' (after w1 [Slept GEOCODE_DELAY_SECONDS])
       ∧ net w1 = net w ∧ (sent w < sent w1)%nat)
  ∧ (∀ la ln, lat loc = Some la → lng loc = Some ln →
       geocode_loop float [loc] results w =
       (Return (results ++ [Located (id loc) (name loc) la ln]),
        after w [Logged INFO
          "[%d/%d] Using existing lat/lng for '%s' (%s): lat=%s, lng=%s"])).
Proof.
  split; [|split].
  3: { intros la ln Hla Hln. simpl. by rewrite Hla, Hln. }
  - intros la ln Hla Hln. simpl. by rewrite Hla, Hln.
  - intros Habsent. destruct loc as [i n a la ln]. simpl in Habsent.
    rewrite geocode_loop_absent by done.
    simpl. unfold bind, try_except, log, sleep, record. cbv beta.
    match goal with
    | |- context [geocode_address float a ?w0] =>
        destruct (geocode_address_settles a w0)
          as (o & w1 & Hrun & Hs & (Hnet & _) & Hlt)
    end.
    rewrite Hrun. destruct o as [latlng|e| |]; try done;
      (eexists _, _; split; [reflexivity|split; [exact Hnet|exact Hlt]]).
Qed.

(** *** The CSV loader *)

Lemma load_rows_complete has_lat has_lng row rest locs w :
  complete row →
  ∃ w1 new,
    load_rows float has_lat has_lng (row :: rest) locs w =
    load_rows float has_lat has_lng rest
      (locs ++ [Location (strip (or_empty (row !! "id")))
                  (strip (or_empty (row !! "name")))
                  (strip (or_empty (row !! "address")))
                  (parse_cell float has_lat row "lat")
                  (parse_cell float has_lng row "lng")]) w1
    ∧ net w1 = net w ∧ sent w1 = sent w
    ∧ trace w1 = trace w ++ new ∧ effects new = []
    ∧ (unparsable float has_lat row "lat" → invalid_lat_warning ∈ new)
    ∧ (unparsable float has_lng row "lng" → invalid_lng_warning ∈ new).
Proof.
  intros (Hid & Hname & Haddr). simpl. rewrite Hid, Hname, Haddr. simpl.
  unfold bind, ret, log, record, parse_cell, unparsable.
  destruct has_lat, has_lng;
    repeat match goal with
           | |- context [truthy ?x] => destruct (truthy x) eqn:?
           | |- context [float ?x] => destruct (float x) eqn:?
           end;
    simpl;
    (eexists _, _; split; [reflexivity|]; simpl;
     split; [done|]; split; [done|];
     split; [first [by rewrite <- ?app_assoc
                   |by instantiate (1 := []); rewrite app_nil_r]|];
     split; [done|];
     split; intros (? & ? & ?); try congruence; set_solver).
Qed.

Lemma load_rows_step has_lat has_lng row rest locs w :
  ∃ locs1 w1,
    load_rows float has_lat has_lng (row :: rest) locs w =
    load_rows float has_lat has_lng rest (locs ++ locs1) w1
    ∧ ran w w1 0 [].
Proof.
  destruct (negb (truthy (strip (or_empty (row !! "id"))))
            || negb (truthy (strip (or_empty (row !! "name"))))
            || negb (truthy (strip (or_empty (row !! "address"))))) eqn:Hc.
  - exists [], (after w [Logged WARNING
                           "Skipping incomplete row (missing id/name/address): %s"]).
    simpl. rewrite Hc, app_nil_r. split; [done|ran_done].
  - assert (Hrow : complete row).
    { unfold complete.
      destruct (truthy (strip (or_empty (row !! "id")))); [|done].
      destruct (truthy (strip (or_empty (row !! "name")))); [|done].
      by destruct (truthy (strip (or_empty (row !! "address")))). }
    destruct (load_rows_complete has_lat has_lng row rest locs w Hrow)
      as (w1 & new & Hrun & Hnet & Hsent & Ht & He & _).
    eexists [_], w1. split; [exact Hrun|].
    repeat split; [done|lia|]. by exists new.
Qed.

Lemma load_rows_runs has_lat has_lng rs locs w :
  ∃ out w', load_rows float has_lat has_lng rs locs w = (Return (locs ++ out), w')
            ∧ ran w w' 0 [].
Proof.
  revert locs w. induction rs as [|row rest IH]; intros locs w.
  - exists [], w. simpl. rewrite app_nil_r. split; [done|apply ran_refl].
  - destruct (load_rows_step has_lat has_lng row rest locs w)
      as (locs1 & w1 & Hstep & Hran1).
    destruct (IH (locs ++ locs1) w1) as (out & w' & Hrun & Hran2).
    exists (locs1 ++ out), w'. rewrite Hstep, Hrun, app_assoc.
    split; [done|]. apply (ran_trans _ _ _ 0 0 [] [] Hran1 Hran2).
Qed.

Lemma load_rows_keeps has_lat has_lng rs row :
  row ∈ rs → complete row →
  ∀ locs w, ∃ out w' new,
    load_rows float has_lat has_lng rs locs w = (Return out, w')
    ∧ net w' = net w ∧ sent w' = sent w
    ∧ trace w' = trace w ++ new ∧ effects new = []
    ∧ Location (strip (or_empty (row !! "id")))
        (strip (or_empty (row !! "name")))
        (strip (or_empty (row !! "address")))
        (parse_cell float has_lat row "lat")
        (parse_cell float has_lng row "lng") ∈ out
    ∧ (unparsable float has_lat row "lat" → invalid_lat_warning ∈ new)
    ∧ (unparsable float has_lng row "lng" → invalid_lng_warning ∈ new).
Proof.
  intros Hin Hrow.
  induction Hin as [row rest|row x rest Hin IH]; intros locs w.
  - destruct (load_rows_complete has_lat has_lng row rest locs w Hrow)
      as (w1 & new1 & Hstep & Hnet1 & Hsent1 & Ht1 & He1 & Hlat & Hlng).
    match type of Hstep with
    | _ = load_rows _ _ _ _ ?l ?w0 =>
        destruct (load_rows_runs has_lat has_lng rest l w0)
          as (out & w' & Hrun & Hnet2 & Hsent2 & new2 & Ht2 & He2)
    end.
    eexists _, w', (new1 ++ new2). rewrite Hstep, Hrun.
    split; [done|]. split; [congruence|]. split; [lia|].
    split; [by rewrite Ht2, Ht1, app_assoc|].
    split; [by rewrite effects_app, He1, He2|].
    split; [set_solver|]. split; intros H; set_solver.
  - destruct (load_rows_step has_lat has_lng x rest locs w)
      as (locs1 & w1 & Hstep & Hnet1 & Hsent1 & new1 & Ht1 & He1).
    destruct (IH Hrow (locs ++ locs1) w1)
      as (out & w' & new2 & Hrun & Hnet2 & Hsent2 & Ht2 & He2 & Hloc & Hlat & Hlng).
    exists out, w', (new1 ++ new2). rewrite Hstep, Hrun.
    split; [done|]. split; [congruence|]. split; [lia|].
    split; [by rewrite Ht2, Ht1, app_assoc|].
    split; [by rewrite effects_app, He1, He2|].
    split; [done|]. split; intros H; set_solver.
Qed.

Section Run.

Context (finite : coord → bool).

(** *** The exit status *)


End Run.

End Coordinates.

End LocationFacts.

(** ** Both scripts *)

(** In the statements about the POST of a location the hypothesis
    [encodable finite loc = true] says that [requests.post] can build
    the request, so that it goes out and the remote side answers it.  A
    payload with a coordinate that is nan or infinite is never sent; what
    the call does then is stated with the other properties of the
    location locater. *)

(** A server error on each of the three attempts of a mutation call:
    three requests, the delays 1 and 2 before the second and the third,
    none after the third, and the call raises. *)
Lemma server_error_is_retried_twice :
  (∀ device location_id (w : world DeviceLoader.action DeviceLoader.body)
     c1 b1 c2 b2 c3 b3,
     net w (sent w) = Reply c1 b1 → 500 ≤ c1 < 600 →
     net w (sent w + 1)%nat = Reply c2 b2 → 500 ≤ c2 < 600 →
     net w (sent w + 2)%nat = Reply c3 b3 → 500 ≤ c3 < 600 →
     ∃ w', DeviceLoader.patch_device_location device location_id false w
             = (Raise (HTTPError c3), w')
           ∧ ran w w' 3 [Act (DeviceLoader.PatchAtlas device location_id); Slept 1;
                         Act (DeviceLoader.PatchAtlas device location_id); Slept 2;
                         Act (DeviceLoader.PatchAtlas device location_id)])
  ∧ (∀ device tag (w : world DeviceLoader.action DeviceLoader.body)
       c1 b1 c2 b2 c3 b3,
       net w (sent w) = Reply c1 b1 → 500 ≤ c1 < 600 →
       net w (sent w + 1)%nat = Reply c2 b2 → 500 ≤ c2 < 600 →
       net w (sent w + 2)%nat = Reply c3 b3 → 500 ≤ c3 < 600 →
       ∃ w', DeviceLoader.add_tag_to_device device tag false w
               = (Raise (HTTPError c3), w')
             ∧ ran w w' 3 [Act (DeviceLoader.PostDeviceTags device tag); Slept 1;
                           Act (DeviceLoader.PostDeviceTags device tag); Slept 2;
                           Act (DeviceLoader.PostDeviceTags device tag)])
  ∧ (∀ (coord : Type) (finite : coord → bool)
       (loc : @LocationLocater.located coord)
       (w : world LocationLocater.action LocationLocater.body)
       c1 b1 c2 b2 c3 b3,
       LocationLocater.encodable finite loc = true →
       net w (sent w) = Reply c1 b1 → 500 ≤ c1 < 600 →
       net w (sent w + 1)%nat = Reply c2 b2 → 500 ≤ c2 < 600 →
       net w (sent w + 2)%nat = Reply c3 b3 → 500 ≤ c3 < 600 →
       ∃ w', LocationLocater.post_single_location_to_forward finite loc w
               = (Raise (HTTPError c3), w')
             ∧ ran w w' 3 [Act (LocationLocater.PostLocation loc); Slept 1;
                           Act (LocationLocater.PostLocation loc); Slept 2;
                           Act (LocationLocater.PostLocation loc)]).
Proof.
  split; [|split].
  - apply DeviceFacts.patch_server_errors.
  - apply DeviceFacts.tag_server_errors.
  - intros coord. apply LocationFacts.post_server_errors.
Qed.

(** C2, at status 429.  The test for a client error comes first in the
    loop and 429 is a client error: the call sends one request, sleeps
    not at all and raises, in each of the three mutation calls.  The
    test [status_code == 429] of the retry branch is never reached. *)
Theorem rate_limited_call_is_not_retried :
  (∀ device location_id (w : world DeviceLoader.action DeviceLoader.body) b,
     net w (sent w) = Reply 429 b →
     ∃ w', DeviceLoader.patch_device_location device location_id false w
             = (Raise (HTTPError 429), w')
           ∧ ran w w' 1 [Act (DeviceLoader.PatchAtlas device location_id)])
  ∧ (∀ device tag (w : world DeviceLoader.action DeviceLoader.body) b,
       net w (sent w) = Reply 429 b →
       ∃ w', DeviceLoader.add_tag_to_device device tag false w
               = (Raise (HTTPError 429), w')
             ∧ ran w w' 1 [Act (DeviceLoader.PostDeviceTags device tag)])
  ∧ (∀ (coord : Type) (finite : coord → bool)
       (loc : @LocationLocater.located coord)
       (w : world LocationLocater.action LocationLocater.body) b,
       LocationLocater.encodable finite loc = true →
       net w (sent w) = Reply 429 b →
       ∃ w', LocationLocater.post_single_location_to_forward finite loc w
               = (Raise (HTTPError 429), w')
             ∧ ran w w' 1 [Act (LocationLocater.PostLocation loc)]).
Proof.
  split; [|split].
  - intros device location_id w b Hnet.
    by apply (DeviceFacts.patch_client_error device location_id w 429 b).
  - intros device tag w b Hnet.
    by apply (DeviceFacts.tag_client_error device tag w 429 b).
  - intros coord finite loc w b Henc Hnet.
    by apply (LocationFacts.post_client_error finite loc w 429 b).
Qed.

(** C3. A mutation call whose request is answered with a status from 400
    to 499 sends that one request, sleeps not at all and raises the
    [HTTPError] of the status: the PATCH of a device, the POST of a tag
    and the POST of a location alike. *)
Theorem client_error_is_not_retried :
  (∀ device location_id (w : world DeviceLoader.action DeviceLoader.body) status b,
     net w (sent w) = Reply status b → 400 ≤ status < 500 →
     ∃ w', DeviceLoader.patch_device_location device location_id false w
             = (Raise (HTTPError status), w')
           ∧ ran w w' 1 [Act (DeviceLoader.PatchAtlas device location_id)])
  ∧ (∀ device tag (w : world DeviceLoader.action DeviceLoader.body) status b,
       net w (sent w) = Reply status b → 400 ≤ status < 500 →
       ∃ w', DeviceLoader.add_tag_to_device device tag false w
               = (Raise (HTTPError status), w')
             ∧ ran w w' 1 [Act (DeviceLoader.PostDeviceTags device tag)])
  ∧ (∀ (coord : Type) (finite : coord → bool)
       (loc : @LocationLocater.located coord)
       (w : world LocationLocater.action LocationLocater.body) status b,
       LocationLocater.encodable finite loc = true →
       net w (sent w) = Reply status b → 400 ≤ status < 500 →
       ∃ w', LocationLocater.post_single_location_to_forward finite loc w
               = (Raise (HTTPError status), w')
             ∧ ran w w' 1 [Act (LocationLocater.PostLocation loc)]).
Proof.
  split; [|split].
  - apply DeviceFacts.patch_client_error.
  - apply DeviceFacts.tag_client_error.
  - intros coord. apply LocationFacts.post_client_error.
Qed.



(** ** The properties on the sample inputs *)

Import Samples.




(** The inputs of the examples. *)


Lemma rate_limited_witness :
  let w := start (always (Reply 429 DeviceLoader.Opaque)) in
  ∃ w', DeviceLoader.patch_device_location "sw1" "10" false w
          = (Raise (HTTPError 429), w')
        ∧ ran w w' 1 [Act (DeviceLoader.PatchAtlas "sw1" "10")].
Proof.
  intros w.
  apply (proj1 rate_limited_call_is_not_retried "sw1" "10" w DeviceLoader.Opaque).
  reflexivity.
Defined.

Lemma client_error_witness :
  (let w := start (always (Reply 404 DeviceLoader.Opaque)) in
   ∃ w', DeviceLoader.patch_device_location "sw1" "10" false w
           = (Raise (HTTPError 404), w')
         ∧ ran w w' 1 [Act (DeviceLoader.PatchAtlas "sw1" "10")])
  ∧ (let w := start (always (Reply 400 DeviceLoader.Opaque)) in
     ∃ w', DeviceLoader.add_tag_to_device "sw1" "core" false w
             = (Raise (HTTPError 400), w')
           ∧ ran w w' 1 [Act (DeviceLoader.PostDeviceTags "sw1" "core")])
  ∧ (let w := start (always (Reply 409 LocationLocater.Opaque)) in
     ∃ w', LocationLocater.post_single_location_to_forward finite_decimal hq_located w
             = (Raise (HTTPError 409), w')
           ∧ ran w w' 1 [Act (LocationLocater.PostLocation hq_located)]).
Proof.
  destruct client_error_is_not_retried as (Hpatch & Htag & Hpost).
  split; [|split]; intros w.
  - apply (Hpatch "sw1" "10" w 404 DeviceLoader.Opaque); [reflexivity|lia].
  - apply (Htag "sw1" "core" w 400 DeviceLoader.Opaque); [reflexivity|lia].
  - apply (Hpost Q finite_decimal hq_located w 409 LocationLocater.Opaque);
      [reflexivity|reflexivity|lia].
Defined.



Lemma resolution_witness :
  let w := start (always locations_reply) in
  (DeviceLoader.resolve sample_table "LAB" = Some "21"
   ∧ ∀ other, lower other = lower "LAB" →
              DeviceLoader.resolve sample_table other = Some "21")
  ∧ ∃ table w' new,
      DeviceLoader.fetch_location_lookup w = (Return table, w')
      ∧ table !! "lab" = Some "21"
      ∧ trace w' = trace w ++ new ∧ DeviceLoader.duplicate_warning ∈ new.
Proof.
  intros w. destruct DeviceFacts.resolution_returns_registered_id as [Hres Hdup].
  split.
  - apply (Hres w sample_table (DeviceLoader.fetch_location_lookup w).2).
    + vm_compute. reflexivity.
    + vm_compute. reflexivity.
  - apply (Hdup w 200 [DeviceLoader.RemoteLocation "10" "Head Office"]
             (DeviceLoader.RemoteLocation "20" "Lab") []
             (DeviceLoader.RemoteLocation "21" " LAB ") [] "lab" "20" "21").
    + reflexivity.
    + lia.
    + reflexivity.
    + reflexivity.
    + discriminate.
    + intros e He. inversion He.
Defined.

Lemma unknown_label_witness :
  let w := start (always (Reply 200 DeviceLoader.Opaque)) in
  DeviceLoader.process_entries sample_table sample_tags false
    [DeviceLoader.Entry "sw9" "Lab" "Spare"; DeviceLoader.Entry "sw2" "LAB" ""] 0 w =
  DeviceLoader.process_entries sample_table sample_tags false
    [DeviceLoader.Entry "sw2" "LAB" ""] (0 + 1)
    (after w [Logged ERROR "Tag '%s' not found in Forward (device '%s')"])
  ∧ DeviceLoader.process_entries sample_table sample_tags false
      [DeviceLoader.Entry "sw9" "Lab" "Spare"] 0 w =
    (Return (0 + 1),
     after w [Logged ERROR "Tag '%s' not found in Forward (device '%s')"]).
Proof.
  intros w. apply DeviceFacts.unknown_label_counts_one_failure.
  - reflexivity.
  - apply (bool_decide_unpack _). vm_compute. exact I.
Defined.

Lemma supplied_coordinates_witness :
  let w := start (always found) in
  LocationLocater.geocode_loop decimal [hq; lab] [] w =
  LocationLocater.geocode_loop decimal [lab] [hq_located]
    (after w [Logged INFO "[%d/%d] Using existing lat/lng for '%s' (%s): lat=%s, lng=%s"])
  ∧ (∃ results' w1,
      LocationLocater.geocode_loop decimal [lab] [] w =
      LocationLocater.geocode_loop decimal [] results'
        (after w1 [Slept LocationLocater.GEOCODE_DELAY_SECONDS])
      ∧ net w1 = net w ∧ (sent w < sent w1)%nat)
  ∧ LocationLocater.geocode_loop decimal [hq] [] w =
    (Return [hq_located],
     after w [Logged INFO "[%d/%d] Using existing lat/lng for '%s' (%s): lat=%s, lng=%s"]).
Proof.
  intros w. split; [|split].
  - apply (proj1 (LocationFacts.supplied_coordinates_skip_geocoding decimal hq [lab] [] w)
             (515 # 10) (- 12 # 100)%Q); reflexivity.
  - apply (proj1 (proj2 (LocationFacts.supplied_coordinates_skip_geocoding decimal lab
                           [] [] w))).
    left. reflexivity.
  - apply (proj2 (proj2 (LocationFacts.supplied_coordinates_skip_geocoding decimal hq
                           [] [] w)) (515 # 10) (- 12 # 100)%Q); reflexivity.
Defined.

Lemma failed_patch_witness :
  let w := start (always (Reply 404 DeviceLoader.Opaque)) in
  let e := DeviceLoader.Entry "sw1" "Head Office" "core" in
  let w1 := (DeviceLoader.patch_device_location "sw1" "10" false
               (after w [Logged INFO
                  "Processing device '%s' -> location '%s' (id=%s) with tag '%s'"])).2 in
  DeviceLoader.process_entries sample_table sample_tags false
    [e; DeviceLoader.Entry "sw2" "LAB" ""] 0 w =
  DeviceLoader.process_entries sample_table sample_tags false
    [DeviceLoader.Entry "sw2" "LAB" ""] (0 + 1)
    (after w1 [Logged ERROR "Failed processing device '%s': %s"])
  ∧ grows (DeviceLoader.patch_event "sw1" "10") w w1
  ∧ DeviceLoader.process_entries sample_table sample_tags false [e] 0 w =
    (Return (0 + 1), after w1 [Logged ERROR "Failed processing device '%s': %s"]).
Proof.
  intros w e w1.
  apply (DeviceFacts.failed_patch_counts_one_failure sample_table sample_tags false
           e [DeviceLoader.Entry "sw2" "LAB" ""] 0 w "10" (HTTPError 404) w1).
  - intros _. apply (bool_decide_unpack _). vm_compute. exact I.
  - vm_compute. reflexivity.
  - vm_compute. reflexivity.
Defined.

(** * Further properties *)

(** ** Runs and their traces, continued *)

Section RuntimeMore.

Context {X P : Type}.
Implicit Types (w : world X P) (es : list (event X)).

(** A run whose effects and log lines all satisfy [ok] only gained
    events that satisfy [ok]. *)
Lemma ran_grows_ok (ok : event X → Prop) w w' n es :
  (∀ lvl fmt, ok (Logged lvl fmt)) → Forall ok es → ran w w' n es → grows ok w w'.
Proof.
  intros Hlog Hes (Hnet & Hsent & new & Ht & He).
  repeat split; [done|lia|]. exists new. split; [done|].
  apply Forall_forall. intros e Hin.
  destruct e as [x|d|lvl fmt]; [| |apply Hlog];
    (rewrite Forall_forall in Hes; apply Hes; rewrite <- He;
     apply list_elem_of_In, filter_In; split; [by apply list_elem_of_In|done]).
Qed.

Lemma ran_after w es : ran w (after w es) 0 (effects es).
Proof. unfold ran, after; simpl. repeat split; [lia|]. by exists es. Qed.

Lemma actions_app (t1 t2 : list (event X)) :
  actions (t1 ++ t2) = actions t1 ++ actions t2.
Proof. unfold actions. apply omap_app. Qed.

Lemma actions_effects (t : list (event X)) : actions (effects t) = actions t.
Proof.
  induction t as [|[x|d|lvl fmt] t IH]; simpl; [done| | |done].
  - unfold actions in *. simpl. by rewrite IH.
  - done.
Qed.

Lemma ran_attempts w w' n es x :
  ran w w' n es → actions es = replicate n x → attempts w w' n x.
Proof.
  intros (Hnet & Hsent & new & Ht & He) Hes. repeat split; [done..|].
  exists new. split; [done|]. by rewrite <- actions_effects, He.
Qed.

Lemma attempts_trans w w1 w2 j k x :
  attempts w w1 j x → attempts w1 w2 k x → attempts w w2 (j + k) x.
Proof.
  intros (Hnet1 & Hsent1 & new1 & Ht1 & Ha1) (Hnet2 & Hsent2 & new2 & Ht2 & Ha2).
  repeat split; [congruence|lia|]. exists (new1 ++ new2).
  split; [by rewrite Ht2, Ht1, app_assoc|].
  by rewrite actions_app, Ha1, Ha2, replicate_add.
Qed.

(** A run that sent one request over and over only gained events that
    satisfy [ok], when [ok] admits that request, delays and log lines. *)
Lemma attempts_grows (ok : event X → Prop) w w' k x :
  ok (Act x) → (∀ d, ok (Slept d)) → (∀ lvl fmt, ok (Logged lvl fmt)) →
  attempts w w' k x → grows ok w w'.
Proof.
  intros Hact Hslept Hlog (Hnet & Hsent & new & Ht & Ha).
  repeat split; [done|lia|]. exists new. split; [done|].
  apply Forall_forall. intros e Hin. destruct e as [y|d|lvl fmt]; [|done..].
  assert (Hy : y ∈ actions new).
  { unfold actions. apply list_elem_of_omap. by exists (Act y). }
  rewrite Ha in Hy. apply elem_of_replicate in Hy as [-> _]. done.
Qed.

(** *** The retry loop of a mutation call, continued *)

Section RetryMore.

Variable x : X.
Variable body : retry → M X P (flow retry unit).

Let cond (s : retry) : bool := attempt s <=? 3.
Let next (s : retry) : retry := Retry (attempt s + 1) (delay s * 2).

Hypothesis success : ∀ s w status b,
  net w (sent w) = Reply status b → status < 400 →
  ∃ w', body s w = (Return (Returned tt), w') ∧ ran w w' 1 [Act x].

Hypothesis again : ∀ s w,
  retryable (net w (sent w)) → attempt s ≠ 3 →
  ∃ w', body s w = (Return (Next (next s)), w')
        ∧ ran w w' 1 [Act x; Slept (delay s)].

Hypothesis no_response_last : ∀ s w,
  net w (sent w) = NoResponse → attempt s = 3 →
  ∃ w', body s w = (Raise ConnectionError, w') ∧ ran w w' 1 [Act x].

Hypothesis overflow : ∀ s w status b,
  net w (sent w) = Reply status b → 600 ≤ status →
  ∃ w', body s w = (Return (Next (next s)), w')
        ∧ ran w w' 1 [Act x; Slept (delay s)].

Hypothesis shape : ∀ s w,
  ∃ o w', body s w = (o, w') ∧ attempts w w' 1 x
          ∧ (o = Return (Next (next s)) ∨ o = Return (Returned tt)
             ∨ ∃ e, o = Raise e).

Lemma retry_success w status b :
  net w (sent w) = Reply status b → status < 400 →
  ∃ w', while 4 cond body (Retry 1 1) w = (Return (Returned tt), w')
        ∧ ran w w' 1 [Act x].
Proof.
  intros Hnet Hs.
  destruct (success (Retry 1 1) w status b Hnet Hs) as (w' & Hrun & Hran).
  exists w'. split; [|done]. rewrite while_S by done. by rewrite Hrun.
Qed.

Lemma retry_recovers w status b :
  retryable (net w (sent w)) →
  net w (sent w + 1)%nat = Reply status b → status < 400 →
  ∃ w', while 4 cond body (Retry 1 1) w = (Return (Returned tt), w')
        ∧ ran w w' 2 [Act x; Slept 1; Act x].
Proof.
  intros H1 Hnet Hs.
  destruct (again (Retry 1 1) w H1) as (w1 & Hrun1 & Hran1); [done|].
  destruct (success (next (Retry 1 1)) w1 status b) as (w2 & Hrun2 & Hran2);
    [|done|].
  { destruct Hran1 as (-> & -> & _). done. }
  exists w2. split.
  - rewrite while_S by done. rewrite Hrun1.
    rewrite while_S by done. by rewrite Hrun2.
  - apply (ran_trans _ _ _ 1 1 [_; _] [_] Hran1 Hran2).
Qed.

Lemma retry_no_response w :
  net w (sent w) = NoResponse →
  net w (sent w + 1)%nat = NoResponse →
  net w (sent w + 2)%nat = NoResponse →
  ∃ w', while 4 cond body (Retry 1 1) w = (Raise ConnectionError, w')
        ∧ ran w w' 3 [Act x; Slept 1; Act x; Slept 2; Act x].
Proof.
  intros H1 H2 H3.
  destruct (again (Retry 1 1) w) as (w1 & Hrun1 & Hran1); [by rewrite H1|done|].
  destruct (again (next (Retry 1 1)) w1) as (w2 & Hrun2 & Hran2); [|done|].
  { destruct Hran1 as (-> & -> & _). by rewrite H2. }
  destruct (no_response_last (next (next (Retry 1 1))) w2)
    as (w3 & Hrun3 & Hran3); [|done|].
  { destruct Hran2 as (-> & -> & _), Hran1 as (-> & -> & _).
    by rewrite <- Nat.add_assoc. }
  exists w3. split.
  - rewrite while_S by done. rewrite Hrun1.
    rewrite while_S by done. rewrite Hrun2.
    rewrite while_S by done. by rewrite Hrun3.
  - apply (ran_trans _ _ _ 1 2 [_; _] [_; _; _] Hran1).
    apply (ran_trans _ _ _ 1 1 [_; _] [_] Hran2 Hran3).
Qed.

Lemma retry_overflow w c1 b1 c2 b2 c3 b3 :
  net w (sent w) = Reply c1 b1 → 600 ≤ c1 →
  net w (sent w + 1)%nat = Reply c2 b2 → 600 ≤ c2 →
  net w (sent w + 2)%nat = Reply c3 b3 → 600 ≤ c3 →
  ∃ w', while 4 cond body (Retry 1 1) w = (Return (Next (Retry 4 8)), w')
        ∧ ran w w' 3 [Act x; Slept 1; Act x; Slept 2; Act x; Slept 4].
Proof.
  intros Hn1 Hs1 Hn2 Hs2 Hn3 Hs3.
  destruct (overflow (Retry 1 1) w c1 b1 Hn1 Hs1) as (w1 & Hrun1 & Hran1).
  destruct (overflow (next (Retry 1 1)) w1 c2 b2) as (w2 & Hrun2 & Hran2); [|done|].
  { destruct Hran1 as (-> & -> & _). done. }
  destruct (overflow (next (next (Retry 1 1))) w2 c3 b3)
    as (w3 & Hrun3 & Hran3); [|done|].
  { destruct Hran2 as (-> & -> & _), Hran1 as (-> & -> & _).
    by rewrite <- Nat.add_assoc. }
  exists w3. split.
  - rewrite while_S by done. rewrite Hrun1.
    rewrite while_S by done. rewrite Hrun2.
    rewrite while_S by done. by rewrite Hrun3.
  - apply (ran_trans _ _ _ 1 2 [_; _] [_; _; _; _] Hran1).
    apply (ran_trans _ _ _ 1 1 [_; _] [_; _] Hran2 Hran3).
Qed.

(** Whatever the answers, the loop settles after one, two or three
    requests, all of them the request [x]. *)
Lemma retry_bounded w :
  ∃ o w' k, while 4 cond body (Retry 1 1) w = (o, w')
            ∧ (1 ≤ k ≤ 3)%nat ∧ attempts w w' k x ∧ settled o.
Proof.
  destruct (shape (Retry 1 1) w) as (o1 & w1 & Hrun1 & Ha1 & Ho1).
  rewrite while_S by done. rewrite Hrun1.
  destruct Ho1 as [-> | [-> | (e & ->)]];
    [|eexists _, w1, 1%nat; repeat split; [lia|lia|apply Ha1..].. ].
  destruct (shape (next (Retry 1 1)) w1) as (o2 & w2 & Hrun2 & Ha2 & Ho2).
  rewrite while_S by done. rewrite Hrun2.
  pose proof (attempts_trans _ _ _ _ _ _ Ha1 Ha2) as Ha12.
  destruct Ho2 as [-> | [-> | (e & ->)]];
    [|eexists _, w2, 2%nat; repeat split; [lia|lia|apply Ha12..].. ].
  destruct (shape (next (next (Retry 1 1))) w2) as (o3 & w3 & Hrun3 & Ha3 & Ho3).
  rewrite while_S by done. rewrite Hrun3.
  pose proof (attempts_trans _ _ _ _ _ _ Ha12 Ha3) as Ha123.
  destruct Ho3 as [-> | [-> | (e & ->)]];
    eexists _, w3, 3%nat; (split; [reflexivity|]);
    repeat split; try lia; apply Ha123.
Qed.

End RetryMore.

End RuntimeMore.

(** ** The device loader, continued *)

Module DeviceMore.

Import DeviceLoader.

Implicit Types (w : world action body) (s : retry).

(** *** The two mutation calls *)

Lemma patch_attempt_success d l s w status b :
  net w (sent w) = Reply status b → status < 400 →
  ∃ w', patch_attempt d l s w = (Return (Returned tt), w')
        ∧ ran w w' 1 [Act (PatchAtlas d l)].
Proof.
  intros Hnet Hs. unfold patch_attempt.
  attempt_with Hnet; (eexists; split; [reflexivity|ran_done]).
Qed.

Lemma patch_attempt_again d l s w :
  retryable (net w (sent w)) → attempt s ≠ 3 →
  ∃ w', patch_attempt d l s w
          = (Return (Next (Retry (attempt s + 1) (delay s * 2))), w')
        ∧ ran w w' 1 [Act (PatchAtlas d l); Slept (delay s)].
Proof.
  intros Hr Ha. unfold patch_attempt, PATCH_MAX_RETRIES.
  destruct (net w (sent w)) as [|status b] eqn:Hnet; simpl in Hr;
    attempt_with Hnet; (eexists; split; [reflexivity|ran_done]).
Qed.

Lemma patch_attempt_no_response_last d l s w :
  net w (sent w) = NoResponse → attempt s = 3 →
  ∃ w', patch_attempt d l s w = (Raise ConnectionError, w')
        ∧ ran w w' 1 [Act (PatchAtlas d l)].
Proof.
  intros Hnet Ha. unfold patch_attempt, PATCH_MAX_RETRIES.
  attempt_with Hnet; (eexists; split; [reflexivity|ran_done]).
Qed.

Lemma patch_attempt_overflow d l s w status b :
  net w (sent w) = Reply status b → 600 ≤ status →
  ∃ w', patch_attempt d l s w
          = (Return (Next (Retry (attempt s + 1) (delay s * 2))), w')
        ∧ ran w w' 1 [Act (PatchAtlas d l); Slept (delay s)].
Proof.
  intros Hnet Hs. unfold patch_attempt.
  attempt_with Hnet; (eexists; split; [reflexivity|ran_done]).
Qed.

Lemma patch_attempt_exact d l s w :
  ∃ o w', patch_attempt d l s w = (o, w') ∧ attempts w w' 1 (PatchAtlas d l)
          ∧ (o = Return (Next (Retry (attempt s + 1) (delay s * 2)))
             ∨ o = Return (Returned tt) ∨ ∃ e, o = Raise e).
Proof.
  unfold patch_attempt.
  destruct (net w (sent w)) as [|status b] eqn:Hnet;
    attempt_with Hnet;
    (eexists _, _; split; [reflexivity|];
     split; [eapply ran_attempts; [ran_done|reflexivity]|]);
    eauto.
Qed.

Lemma tag_attempt_success d t s w status b :
  net w (sent w) = Reply status b → status < 400 →
  ∃ w', tag_attempt d t s w = (Return (Returned tt), w')
        ∧ ran w w' 1 [Act (PostDeviceTags d t)].
Proof.
  intros Hnet Hs. unfold tag_attempt.
  attempt_with Hnet; (eexists; split; [reflexivity|ran_done]).
Qed.

Lemma tag_attempt_again d t s w :
  retryable (net w (sent w)) → attempt s ≠ 3 →
  ∃ w', tag_attempt d t s w
          = (Return (Next (Retry (attempt s + 1) (delay s * 2))), w')
        ∧ ran w w' 1 [Act (PostDeviceTags d t); Slept (delay s)].
Proof.
  intros Hr Ha. unfold tag_attempt, PATCH_MAX_RETRIES.
  destruct (net w (sent w)) as [|status b] eqn:Hnet; simpl in Hr;
    attempt_with Hnet; (eexists; split; [reflexivity|ran_done]).
Qed.

Lemma tag_attempt_no_response_last d t s w :
  net w (sent w) = NoResponse → attempt s = 3 →
  ∃ w', tag_attempt d t s w = (Raise ConnectionError, w')
        ∧ ran w w' 1 [Act (PostDeviceTags d t)].
Proof.
  intros Hnet Ha. unfold tag_attempt, PATCH_MAX_RETRIES.
  attempt_with Hnet; (eexists; split; [reflexivity|ran_done]).
Qed.

Lemma tag_attempt_overflow d t s w status b :
  net w (sent w) = Reply status b → 600 ≤ status →
  ∃ w', tag_attempt d t s w
          = (Return (Next (Retry (attempt s + 1) (delay s * 2))), w')
        ∧ ran w w' 1 [Act (PostDeviceTags d t); Slept (delay s)].
Proof.
  intros Hnet Hs. unfold tag_attempt.
  attempt_with Hnet; (eexists; split; [reflexivity|ran_done]).
Qed.

Lemma tag_attempt_exact d t s w :
  ∃ o w', tag_attempt d t s w = (o, w') ∧ attempts w w' 1 (PostDeviceTags d t)
          ∧ (o = Return (Next (Retry (attempt s + 1) (delay s * 2)))
             ∨ o = Return (Returned tt) ∨ ∃ e, o = Raise e).
Proof.
  unfold tag_attempt.
  destruct (net w (sent w)) as [|status b] eqn:Hnet;
    attempt_with Hnet;
    (eexists _, _; split; [reflexivity|];
     split; [eapply ran_attempts; [ran_done|reflexivity]|]);
    eauto.
Qed.

(** From the loop to the call. *)
Ltac patch_from Hrun :=
  unfold patch_device_location; use_loop Hrun; reflexivity.
Ltac tag_from Hrun :=
  unfold add_tag_to_device; use_loop Hrun; reflexivity.

Lemma patch_success d l w status b :
  net w (sent w) = Reply status b → status < 400 →
  ∃ w', patch_device_location d l false w = (Return tt, w')
        ∧ ran w w' 1 [Act (PatchAtlas d l)].
Proof.
  intros Hnet Hs.
  destruct (retry_success (PatchAtlas d l) (patch_attempt d l)
              (patch_attempt_success d l) w status b Hnet Hs) as (w' & Hrun & Hran).
  exists w'. split; [patch_from Hrun|done].
Qed.

Lemma tag_success d t w status b :
  net w (sent w) = Reply status b → status < 400 →
  ∃ w', add_tag_to_device d t false w = (Return tt, w')
        ∧ ran w w' 1 [Act (PostDeviceTags d t)].
Proof.
  intros Hnet Hs.
  destruct (retry_success (PostDeviceTags d t) (tag_attempt d t)
              (tag_attempt_success d t) w status b Hnet Hs) as (w' & Hrun & Hran).
  exists w'. split; [tag_from Hrun|done].
Qed.

Lemma patch_recovers d l w status b :
  retryable (net w (sent w)) →
  net w (sent w + 1)%nat = Reply status b → status < 400 →
  ∃ w', patch_device_location d l false w = (Return tt, w')
        ∧ ran w w' 2 [Act (PatchAtlas d l); Slept 1; Act (PatchAtlas d l)].
Proof.
  intros Hr Hnet Hs.
  destruct (retry_recovers (PatchAtlas d l) (patch_attempt d l)
              (patch_attempt_success d l) (patch_attempt_again d l)
              w status b Hr Hnet Hs) as (w' & Hrun & Hran).
  exists w'. split; [patch_from Hrun|done].
Qed.

Lemma tag_recovers d t w status b :
  retryable (net w (sent w)) →
  net w (sent w + 1)%nat = Reply status b → status < 400 →
  ∃ w', add_tag_to_device d t false w = (Return tt, w')
        ∧ ran w w' 2 [Act (PostDeviceTags d t); Slept 1; Act (PostDeviceTags d t)].
Proof.
  intros Hr Hnet Hs.
  destruct (retry_recovers (PostDeviceTags d t) (tag_attempt d t)
              (tag_attempt_success d t) (tag_attempt_again d t)
              w status b Hr Hnet Hs) as (w' & Hrun & Hran).
  exists w'. split; [tag_from Hrun|done].
Qed.

Lemma patch_no_response d l w :
  net w (sent w) = NoResponse →
  net w (sent w + 1)%nat = NoResponse →
  net w (sent w + 2)%nat = NoResponse →
  ∃ w', patch_device_location d l false w = (Raise ConnectionError, w')
        ∧ ran w w' 3 [Act (PatchAtlas d l); Slept 1; Act (PatchAtlas d l);
                      Slept 2; Act (PatchAtlas d l)].
Proof.
  intros H1 H2 H3.
  destruct (retry_no_response (PatchAtlas d l) (patch_attempt d l)
              (patch_attempt_again d l) (patch_attempt_no_response_last d l)
              w H1 H2 H3) as (w' & Hrun & Hran).
  exists w'. split; [patch_from Hrun|done].
Qed.

Lemma tag_no_response d t w :
  net w (sent w) = NoResponse →
  net w (sent w + 1)%nat = NoResponse →
  net w (sent w + 2)%nat = NoResponse →
  ∃ w', add_tag_to_device d t false w = (Raise ConnectionError, w')
        ∧ ran w w' 3 [Act (PostDeviceTags d t); Slept 1; Act (PostDeviceTags d t);
                      Slept 2; Act (PostDeviceTags d t)].
Proof.
  intros H1 H2 H3.
  destruct (retry_no_response (PostDeviceTags d t) (tag_attempt d t)
              (tag_attempt_again d t) (tag_attempt_no_response_last d t)
              w H1 H2 H3) as (w' & Hrun & Hran).
  exists w'. split; [tag_from Hrun|done].
Qed.

Lemma patch_overflow d l w c1 b1 c2 b2 c3 b3 :
  net w (sent w) = Reply c1 b1 → 600 ≤ c1 →
  net w (sent w + 1)%nat = Reply c2 b2 → 600 ≤ c2 →
  net w (sent w + 2)%nat = Reply c3 b3 → 600 ≤ c3 →
  ∃ w', patch_device_location d l false w = (Return tt, w')
        ∧ ran w w' 3 [Act (PatchAtlas d l); Slept 1; Act (PatchAtlas d l);
                      Slept 2; Act (PatchAtlas d l); Slept 4].
Proof.
  intros Hn1 Hs1 Hn2 Hs2 Hn3 Hs3.
  destruct (retry_overflow (PatchAtlas d l) (patch_attempt d l)
              (patch_attempt_overflow d l)
              w c1 b1 c2 b2 c3 b3 Hn1 Hs1 Hn2 Hs2 Hn3 Hs3) as (w' & Hrun & Hran).
  exists w'. split; [patch_from Hrun|done].
Qed.

Lemma tag_overflow d t w c1 b1 c2 b2 c3 b3 :
  net w (sent w) = Reply c1 b1 → 600 ≤ c1 →
  net w (sent w + 1)%nat = Reply c2 b2 → 600 ≤ c2 →
  net w (sent w + 2)%nat = Reply c3 b3 → 600 ≤ c3 →
  ∃ w', add_tag_to_device d t false w = (Return tt, w')
        ∧ ran w w' 3 [Act (PostDeviceTags d t); Slept 1; Act (PostDeviceTags d t);
                      Slept 2; Act (PostDeviceTags d t); Slept 4].
Proof.
  intros Hn1 Hs1 Hn2 Hs2 Hn3 Hs3.
  destruct (retry_overflow (PostDeviceTags d t) (tag_attempt d t)
              (tag_attempt_overflow d t)
              w c1 b1 c2 b2 c3 b3 Hn1 Hs1 Hn2 Hs2 Hn3 Hs3) as (w' & Hrun & Hran).
  exists w'. split; [tag_from Hrun|done].
Qed.

Lemma patch_bounded d l w :
  ∃ o w' k, patch_device_location d l false w = (o, w')
            ∧ (1 ≤ k ≤ 3)%nat ∧ attempts w w' k (PatchAtlas d l) ∧ settled o.
Proof.
  destruct (retry_bounded (PatchAtlas d l) (patch_attempt d l)
              (patch_attempt_exact d l) w) as (o & w' & k & Hrun & Hk & Ha & Hs).
  unfold patch_device_location. use_loop Hrun.
  destruct o as [r|e| |]; try done; by eexists _, w', k.
Qed.

Lemma tag_bounded d t w :
  ∃ o w' k, add_tag_to_device d t false w = (o, w')
            ∧ (1 ≤ k ≤ 3)%nat ∧ attempts w w' k (PostDeviceTags d t) ∧ settled o.
Proof.
  destruct (retry_bounded (PostDeviceTags d t) (tag_attempt d t)
              (tag_attempt_exact d t) w) as (o & w' & k & Hrun & Hk & Ha & Hs).
  unfold add_tag_to_device. use_loop Hrun.
  destruct o as [r|e| |]; try done; by eexists _, w', k.
Qed.

End DeviceMore.

Module DeviceRun.

Import DeviceLoader.

Implicit Types (w : world action body).

(** *** The CSV loader *)

Lemma load_rows_accepts has_tag_col rs idx devs errs :
  forallb acceptable (List.map (entry_of has_tag_col) rs) = true →
  load_rows has_tag_col idx rs devs errs
  = (devs ++ List.map (entry_of has_tag_col) rs, errs).
Proof.
  revert idx devs errs. induction rs as [|row rest IH]; intros idx devs errs Hall.
  - simpl. by rewrite app_nil_r.
  - simpl in Hall. apply andb_true_iff in Hall as [Hrow Hrest].
    unfold acceptable, entry_of in Hrow. simpl in Hrow.
    apply andb_true_iff in Hrow as [Hdl Htag].
    apply andb_true_iff in Hdl as [Hd Hl].
    simpl. rewrite Hd, Hl. simpl.
    assert (Hskip : ∀ t, negb (truthy t) || TAG_PATTERN_fullmatch t = true →
                         truthy t && negb (TAG_PATTERN_fullmatch t) = false).
    { intros t. by destruct (truthy t), (TAG_PATTERN_fullmatch t). }
    rewrite (Hskip _ Htag). rewrite IH by done.
    by rewrite <- app_assoc.
Qed.

Lemma load_rows_rejects has_tag_col rs idx devs errs :
  forallb acceptable (List.map (entry_of has_tag_col) rs) = false →
  (load_rows has_tag_col idx rs devs errs).2 ≠ [].
Proof.
  revert idx devs errs. induction rs as [|row rest IH]; intros idx devs errs Hall;
    [done|].
  simpl in Hall. simpl.
  destruct (acceptable (entry_of has_tag_col row)) eqn:Hrow.
  - simpl in Hall.
    repeat match goal with
           | |- context [if ?b then _ else _] => destruct b
           end; by apply IH.
  - unfold acceptable, entry_of in Hrow. simpl in Hrow.
    destruct (truthy (strip (or_empty (row !! "device")))); simpl in *;
      [destruct (truthy (strip (or_empty (row !! "location")))); simpl in *|];
      [destruct (truthy (if has_tag_col then strip (or_empty (row !! "tag")) else ""));
       [destruct (TAG_PATTERN_fullmatch
                    (if has_tag_col then strip (or_empty (row !! "tag")) else ""));
        [done|]|done]|..]; simpl;
      match goal with
      | |- context [load_rows _ ?i rest ?d ?e] =>
          destruct (DeviceFacts.load_rows_errors_grow has_tag_col rest i d e)
            as (more & ->)
      end;
      rewrite <- app_assoc; by destruct errs.
Qed.

Lemma missing_columns csv :
  List.filter (λ c, negb (bool_decide (c ∈ fieldnames csv))) ["device"; "location"]
  = [] ↔ has_required csv = true.
Proof.
  unfold has_required. cbv [List.filter].
  destruct (bool_decide ("device" ∈ fieldnames csv)),
    (bool_decide ("location" ∈ fieldnames csv)); simpl; naive_solver.
Qed.

(** What [load_devices_from_csv] does with any file. *)
Lemma load_devices_spec csv w :
  load_devices_from_csv csv w =
  if has_required csv then
    if forallb acceptable (entries_of csv) then
      (Return (entries_of csv),
       after w [Logged INFO "Loaded %d device mapping(s) from CSV"])
    else (Raise (ValueError "CSV validation errors"), w)
  else (Raise (ValueError "CSV missing required columns"), w).
Proof.
  unfold load_devices_from_csv.
  destruct (has_required csv) eqn:Hreq.
  - apply missing_columns in Hreq. rewrite Hreq.
    unfold entries_of.
    set (has_tag_col := bool_decide ("tag" ∈ fieldnames csv)).
    destruct (forallb acceptable (List.map (entry_of has_tag_col) (rows csv)))
      eqn:Hall.
    + by rewrite load_rows_accepts.
    + pose proof (load_rows_rejects has_tag_col (rows csv) 2 [] [] Hall) as Herr.
      destruct (load_rows has_tag_col 2 (rows csv) [] []) as [devs errs].
      simpl in Herr. by destruct errs.
  - destruct (List.filter _ _) eqn:Hmiss; [|done].
    apply missing_columns in Hmiss. congruence.
Qed.

(** *** The two collections *)

Lemma lookup_of_keeps_keys post key m :
  is_Some (m !! key) → is_Some (lookup_of post m !! key).
Proof.
  revert m. induction post as [|e post IH]; intros m Hm; [done|].
  rewrite DeviceFacts.lookup_of_cons. apply IH.
  destruct (registers e) as [[k i]|]; [|done].
  rewrite lookup_insert. by case_decide.
Qed.

Lemma lookup_of_registered data e key i m :
  e ∈ data → registers e = Some (key, i) → is_Some (lookup_of data m !! key).
Proof.
  intros Hin He. apply list_elem_of_split in Hin as (pre & post & ->).
  rewrite DeviceFacts.lookup_of_app, DeviceFacts.lookup_of_cons, He.
  apply lookup_of_keeps_keys. rewrite lookup_insert_eq. by eexists.
Qed.

Lemma lookup_of_sound data key i m :
  lookup_of data m !! key = Some i →
  m !! key = Some i ∨ ∃ e, e ∈ data ∧ registers e = Some (key, i).
Proof.
  revert m. induction data as [|e data IH]; intros m Hk; [by left|].
  rewrite DeviceFacts.lookup_of_cons in Hk.
  destruct (IH _ Hk) as [Hm | (e' & Hin & He')].
  - destruct (registers e) as [[k j]|] eqn:He; [|by left].
    rewrite lookup_insert in Hm. case_decide as Hkey.
    + injection Hm as <-. subst k. right. exists e. split; [left|done].
    + by left.
  - right. exists e'. split; [by right|done].
Qed.

Lemma lookup_of_empty data :
  lookup_of data ∅ = ∅ ↔ Forall (λ loc, registers loc = None) data.
Proof.
  split.
  - intros Hempty. apply Forall_forall. intros e Hin.
    destruct (registers e) as [[k i]|] eqn:He; [|done].
    destruct (lookup_of_registered data e k i ∅ Hin He) as (j & Hj).
    by rewrite Hempty, lookup_empty in Hj.
  - intros Hall. apply map_eq. intros k. rewrite lookup_empty.
    destruct (lookup_of data ∅ !! k) as [i|] eqn:Hk; [|done].
    apply lookup_of_sound in Hk as [Hm | (e & Hin & He)].
    + by rewrite lookup_empty in Hm.
    + rewrite Forall_forall in Hall. specialize (Hall e Hin). congruence.
Qed.

(** [fetch_location_lookup] sends its one request; it raises on an
    unusable answer and returns the table of the collection on any
    other. *)
Lemma fetch_location_lookup_cases w :
  ∃ o w', fetch_location_lookup w = (o, w') ∧ ran w w' 1 [Act GetLocations]
          ∧ ((unusable (net w (sent w)) ∧ ∃ e, o = Raise e)
             ∨ (∃ status data,
                  net w (sent w) = Reply status (LocationList data)
                  ∧ ¬ unusable (net w (sent w))
                  ∧ o = Return (lookup_of data ∅))).
Proof.
  unfold fetch_location_lookup, bind, log, record, request, raise_for_status.
  simpl. destruct (net w (sent w)) as [|status b] eqn:Hnet; simpl.
  { eexists _, _. split; [reflexivity|]. split; [ran_done|]. left. eauto. }
  destruct ((400 <=? status) && (status <? 600)) eqn:Hs; simpl.
  { eexists _, _. split; [reflexivity|]. split; [ran_done|]. left.
    split; [|eauto]. destruct b; try done. left.
    apply andb_true_iff in Hs. lia. }
  destruct b as [|data|names]; simpl;
    [eexists _, _; split; [reflexivity|]; split; [ran_done|]; left; eauto| |
     eexists _, _; split; [reflexivity|]; split; [ran_done|]; left; eauto].
  match goal with
  | |- context [build_lookup data ∅ ?w1] =>
      destruct (DeviceFacts.build_lookup_runs data ∅ w1)
        as (w2 & Hrun & Hnet2 & Hsent2 & new & Ht & He)
  end.
  rewrite Hrun. simpl in *.
  assert (Hran : ∀ more, ran w (World (net w2) (sent w2) (trace w2 ++ more))
                           1 (Act GetLocations :: effects more)).
  { intros more. split; [done|]. split; [simpl; lia|].
    exists ([Logged INFO "Fetching locations from %s"; Act GetLocations]
            ++ new ++ more).
    split; [simpl; rewrite Ht; simpl; by rewrite <- !app_assoc|].
    by rewrite !effects_app, He. }
  destruct (bool_decide (lookup_of data ∅ = ∅)) eqn:Hempty.
  - apply bool_decide_eq_true in Hempty.
    eexists _, w2. split; [reflexivity|]. split.
    { split; [done|]. split; [lia|].
      exists ([Logged INFO "Fetching locations from %s"; Act GetLocations] ++ new).
      split; [rewrite Ht; simpl; by rewrite <- !app_assoc|].
      by rewrite !effects_app, He. }
    left. split; [|eauto]. right. by apply lookup_of_empty.
  - apply bool_decide_eq_false in Hempty.
    eexists _, _. split; [reflexivity|].
    split; [apply (Hran [Logged INFO "Discovered %d location(s) from API"])|].
    right. exists status, data. split; [done|]. split; [|done].
    intros [Hbad | Hnone].
    + apply andb_false_iff in Hs. lia.
    + by apply Hempty, lookup_of_empty.
Qed.

Lemma fetch_existing_tags_cases w :
  ∃ o w', fetch_existing_tags w = (o, w') ∧ ran w w' 1 [Act GetDeviceTags]
          ∧ settled o.
Proof.
  unfold fetch_existing_tags, bind, log, record, request, raise_for_status.
  simpl. destruct (net w (sent w)) as [|status b] eqn:Hnet; simpl.
  { eexists _, _. split; [reflexivity|]. split; [ran_done|done]. }
  destruct ((400 <=? status) && (status <? 600)); simpl.
  { eexists _, _. split; [reflexivity|]. split; [ran_done|done]. }
  destruct b; simpl;
    (eexists _, _; split; [reflexivity|]; split; [ran_done|done]).
Qed.

(** *** [main] up to the record loop *)

(** The labels of the file, as [main] collects them (line 408). *)
Lemma main_setup_cases dry_run csv w :
  ∃ o w', main_setup dry_run csv w = (o, w') ∧
    ((well_formed csv = false ∧ o = SysExit 1 ∧ ran w w' 0 [])
     ∨ (well_formed csv = true ∧ unusable (net w (sent w))
        ∧ o = SysExit 1 ∧ ran w w' 1 [Act GetLocations])
     ∨ (well_formed csv = true
        ∧ ∃ status data,
            net w (sent w) = Reply status (LocationList data)
            ∧ ¬ unusable (net w (sent w))
            ∧ ((List.filter truthy (List.map tag (entries_of csv)) = []
                ∧ o = Return (Prepared (entries_of csv) (lookup_of data ∅) ∅)
                ∧ ran w w' 1 [Act GetLocations])
               ∨ (List.filter truthy (List.map tag (entries_of csv)) ≠ []
                  ∧ ran w w' 2 [Act GetLocations; Act GetDeviceTags]
                  ∧ (o = SysExit 1
                     ∨ ∃ tags, o = Return
                                 (Prepared (entries_of csv) (lookup_of data ∅) tags)))))).
Proof.
  assert (Hstart : ∃ w0, net w0 = net w ∧ sent w0 = sent w ∧ ran w w0 0 [] ∧
            main_setup dry_run csv w =
            bind (try_except
                    (bind (log INFO "Loading CSV: %s") (λ _, load_devices_from_csv csv))
                    (λ _, bind (log ERROR "Failed to load CSV: %s") (λ _, sys_exit 1)))
              (λ devices,
                 bind (try_except fetch_location_lookup
                         (λ _, bind (log ERROR "Failed to fetch locations from API: %s")
                                 (λ _, sys_exit 1)))
                   (λ name_to_id,
                      bind (match List.filter truthy (List.map tag devices) with
                            | _ :: _ =>
                                try_except fetch_existing_tags
                                  (λ _, bind
                                     (log ERROR "Failed to fetch existing device tags: %s")
                                     (λ _, sys_exit 1))
                            | [] => ret ∅
                            end)
                        (λ existing_tags,
                           ret (Prepared devices name_to_id existing_tags)))) w0).
  { destruct dry_run;
      (eexists; split; [|split; [|split; [|reflexivity]]]);
      [done|done|ran_done|done|done|ran_done]. }
  destruct Hstart as (w0 & Hnet0 & Hsent0 & Hran0 & ->).
  unfold bind at 1. unfold try_except at 1. unfold bind at 1.
  unfold log at 1, record at 1. rewrite load_devices_spec.
  unfold well_formed.
  destruct (has_required csv); simpl;
    [destruct (forallb acceptable (entries_of csv)); simpl|].
  2,3: eexists _, _; split; [reflexivity|]; left;
       (split; [done|]); (split; [done|]);
       (eapply (ran_trans _ _ _ 0 0 [] []); [exact Hran0|ran_done]).
  match goal with
  | |- ∃ o w', bind _ _ ?w1 = _ ∧ _ =>
      destruct (fetch_location_lookup_cases w1)
        as (o & w2 & Hfetch & Hran2 & Hcase);
      assert (Hran1 : ran w w1 0 [])
        by (eapply (ran_trans _ _ _ 0 0 [] []); [exact Hran0|ran_done])
  end.
  simpl in Hcase. rewrite Hnet0, Hsent0 in Hcase.
  unfold bind at 1. unfold try_except at 1. rewrite Hfetch.
  pose proof (ran_trans _ _ _ 0 1 [] [_] Hran1 Hran2) as Hran. simpl in Hran.
  destruct Hcase as [(Hbad & e & ->) | (status & data & Hnet & Hok & ->)].
  { eexists _, _. split; [reflexivity|]. right. left.
    split; [done|]. split; [done|]. split; [done|].
    eapply (ran_trans _ _ _ 1 0 [_] []); [exact Hran|ran_done]. }
  destruct (List.filter truthy (List.map tag (entries_of csv))) eqn:Hlabels.
  { eexists _, w2. split; [reflexivity|]. right. right. split; [done|].
    exists status, data. split; [done|]. split; [done|]. left.
    split; [done|]. by split. }
  unfold bind at 1. unfold try_except at 1.
  destruct (fetch_existing_tags_cases w2) as (o & w3 & Htags & Hran3 & Hs).
  rewrite Htags.
  pose proof (ran_trans _ _ _ 1 1 [_] [_] Hran Hran3) as Hran'. simpl in Hran'.
  destruct o as [tags|e| |]; try done.
  - eexists _, w3. split; [reflexivity|]. right. right. split; [done|].
    exists status, data. split; [done|]. split; [done|]. right.
    split; [done|]. split; [done|]. right. by exists tags.
  - eexists _, _. split; [reflexivity|]. right. right. split; [done|].
    exists status, data. split; [done|]. split; [done|]. right.
    split; [done|]. split; [|by left].
    eapply (ran_trans _ _ _ 2 0 [_; _] []); [exact Hran'|ran_done].
Qed.

(** *** The record loop *)

Lemma process_entry_dry n2i tags e failures w :
  ∃ failures' w',
    process_entry n2i tags true e failures w = (Return failures', w')
    ∧ ran w w' 0 [].
Proof.
  unfold process_entry.
  destruct (truthy (tag e) && negb (bool_decide (lower (tag e) ∈ tags)));
    [eexists _, _; split; [reflexivity|ran_done]|].
  destruct (resolve n2i (location e));
    [|eexists _, _; split; [reflexivity|ran_done]].
  destruct (truthy (tag e)); (eexists _, _; split; [reflexivity|ran_done]).
Qed.

Lemma process_entries_dry n2i tags devs failures w :
  ∃ failures' w',
    process_entries n2i tags true devs failures w = (Return failures', w')
    ∧ ran w w' 0 [].
Proof.
  revert failures w. induction devs as [|e rest IH]; intros failures w.
  - exists failures, w. split; [done|apply ran_refl].
  - destruct (process_entry_dry n2i tags e failures w) as (f1 & w1 & He & Hran1).
    destruct (IH f1 w1) as (f2 & w2 & Hr & Hran2).
    exists f2, w2. simpl. unfold bind. rewrite He.
    split; [done|]. apply (ran_trans _ _ _ 0 0 [] [] Hran1 Hran2).
Qed.

Lemma patch_event_no_tag d l (ev : event action) :
  patch_event d l ev → no_tag_request ev.
Proof. destruct ev as [x| |]; simpl; [by intros ->|done..]. Qed.

Lemma process_entry_untagged n2i tags dry_run e failures w :
  tag e = "" →
  ∃ failures' w',
    process_entry n2i tags dry_run e failures w = (Return failures', w')
    ∧ grows no_tag_request w w'.
Proof.
  intros Htag. unfold process_entry. rewrite Htag. simpl.
  destruct (resolve n2i (location e)) as [location_id|];
    [|eexists _, _; split; [reflexivity|grows_done]].
  unfold try_except, bind, log, record, ret. cbv beta.
  match goal with
  | |- context [patch_device_location ?d ?l ?dr ?w0] =>
      destruct (DeviceFacts.patch_settles d l dr w0) as (o & w1 & Hp & Hg & Hs);
      rewrite Hp;
      assert (Hg1 : grows no_tag_request w w1)
        by (eapply grows_trans;
            [|eapply grows_weaken; [apply patch_event_no_tag|exact Hg]];
            grows_done)
  end.
  destruct o as [[]|err| |]; try done.
  - by eexists _, w1.
  - eexists _, _. split; [reflexivity|].
    eapply grows_trans; [exact Hg1|]. grows_done.
Qed.

Lemma process_entries_untagged n2i tags dry_run devs failures w :
  Forall (λ e, tag e = "") devs →
  ∃ failures' w',
    process_entries n2i tags dry_run devs failures w = (Return failures', w')
    ∧ grows no_tag_request w w'.
Proof.
  intros Hall. revert failures w.
  induction Hall as [|e rest He Hrest IH]; intros failures w.
  - exists failures, w. split; [done|apply grows_refl].
  - destruct (process_entry_untagged n2i tags dry_run e failures w He)
      as (f1 & w1 & Hrun & Hg1).
    destruct (IH f1 w1) as (f2 & w2 & Hr & Hg2).
    exists f2, w2. simpl. unfold bind. rewrite Hrun.
    split; [done|]. by eapply grows_trans.
Qed.

(** A record that passes the label check and whose location resolves
    goes on to the two calls. *)
Lemma process_entry_resolved n2i tags dry_run e failures w location_id :
  (truthy (tag e) = true → lower (tag e) ∈ tags) →
  resolve n2i (location e) = Some location_id →
  process_entry n2i tags dry_run e failures w =
  try_except
    (bind (patch_device_location (device e) location_id dry_run)
       (λ _, bind (if truthy (tag e)
                   then add_tag_to_device (device e) (tag e) dry_run
                   else ret tt)
               (λ _, ret failures)))
    (λ _, bind (log ERROR "Failed processing device '%s': %s")
            (λ _, ret (failures + 1)))
    (after w [Logged INFO
                "Processing device '%s' -> location '%s' (id=%s) with tag '%s'"]).
Proof.
  intros Htag Hres. unfold process_entry.
  assert (truthy (tag e) && negb (bool_decide (lower (tag e) ∈ tags)) = false)
    as ->.
  { destruct (truthy (tag e)); [|done].
    by rewrite bool_decide_true by by apply Htag. }
  by rewrite Hres.
Qed.

(** A record that passes its checks, against a remote side that
    answers every request below 400. *)
Lemma process_entry_updates n2i tags e failures w :
  (truthy (tag e) = true → lower (tag e) ∈ tags) →
  is_Some (resolve n2i (location e)) →
  (∀ n, ∃ status b, net w n = Reply status b ∧ status < 400) →
  ∃ w', process_entry n2i tags false e failures w = (Return failures, w')
        ∧ ran w w' (length (updates n2i e)) (Act <$> updates n2i e).
Proof.
  intros Htag [location_id Hres] Hnet.
  rewrite (process_entry_resolved n2i tags false e failures w location_id Htag Hres).
  unfold updates. rewrite Hres.
  destruct (Hnet (sent w)) as (c1 & b1 & Hn1 & Hs1).
  destruct (Hnet (sent w + 1)%nat) as (c2 & b2 & Hn2 & Hs2).
  match goal with
  | |- context [try_except _ _ ?w0] =>
      destruct (DeviceMore.patch_success (device e) location_id w0 c1 b1 Hn1 Hs1)
        as (w1 & Hpatch & Hran1);
      assert (Hran0 : ran w w0 0 []) by ran_done
  end.
  pose proof (ran_trans _ _ _ 0 1 [] [_] Hran0 Hran1) as Hran. simpl in Hran.
  unfold try_except, bind. rewrite Hpatch.
  destruct (truthy (tag e)).
  - destruct (DeviceMore.tag_success (device e) (tag e) w1 c2 b2) as (w2 & Hpost & Hran2);
      [|done|].
    { destruct Hran as (-> & -> & _). done. }
    exists w2. rewrite Hpost. split; [done|].
    apply (ran_trans _ _ _ 1 1 [_] [_] Hran Hran2).
  - by exists w1.
Qed.

(** *** The whole run *)

Lemma main_finish_cases failures w :
  ∃ o w', main_finish failures w = (o, w') ∧ ran w w' 0 []
          ∧ (o = Return tt ∨ o = SysExit 1).
Proof.
  unfold main_finish. destruct (failures =? 0);
    (eexists _, _; split; [reflexivity|]; split; [ran_done|]); [by left|by right].
Qed.

Lemma main_stops_in_setup dry_run csv w code w1 :
  main_setup dry_run csv w = (SysExit code, w1) →
  main dry_run csv w = (SysExit code, w1).
Proof. intros Hsetup. unfold main, bind. by rewrite Hsetup. Qed.

Lemma main_after_setup dry_run csv w p w1 failures w2 :
  main_setup dry_run csv w = (Return p, w1) →
  process_entries (name_to_id p) (existing_tags p) dry_run (devices p) 0 w1
    = (Return failures, w2) →
  main dry_run csv w = main_finish failures w2.
Proof. intros Hsetup Hloop. unfold main, bind. by rewrite Hsetup, Hloop. Qed.

Lemma reads_only_log lvl fmt : reads_only (Logged lvl fmt : event action).
Proof. done. Qed.

Lemma no_tag_request_log lvl fmt : no_tag_request (Logged lvl fmt : event action).
Proof. done. Qed.

(** X6. [load_devices_from_csv] loads a file whole or not at all: a
    well-formed file gives one entry per row, in the order of the rows,
    with stripped cells; any other file raises [ValueError] and nothing
    is returned. *)
Theorem device_file_loads_whole_or_not_at_all csv w :
  load_devices_from_csv csv w =
  if well_formed csv then
    (Return (entries_of csv),
     after w [Logged INFO "Loaded %d device mapping(s) from CSV"])
  else
    (Raise (ValueError (if has_required csv then "CSV validation errors"
                        else "CSV missing required columns")), w).
Proof.
  rewrite load_devices_spec. unfold well_formed.
  by destruct (has_required csv), (forallb acceptable (entries_of csv)).
Qed.

(** X7. A file that is not well formed (a required column missing, a
    row without device or location, a label with a wrong character)
    ends the run with status 1 before any request is sent, dry run or
    not. *)
Theorem ill_formed_file_aborts_run dry_run csv w :
  well_formed csv = false →
  ∃ w', main dry_run csv w = (SysExit 1, w') ∧ ran w w' 0 [].
Proof.
  intros Hbad.
  destruct (main_setup_cases dry_run csv w) as (o & w1 & Hsetup & Hcases).
  destruct Hcases as [(_ & -> & Hran) | [(Hok & _) | (Hok & _)]];
    [|congruence..].
  exists w1. split; [by apply main_stops_in_setup|done].
Qed.

(** X8. When the locations endpoint gives no answer, an error status, a
    body that is no list or a list without a single usable object, the
    run of a well-formed file ends with status 1 after that one
    request: no record is processed. *)
Theorem unusable_collection_aborts_run dry_run csv w :
  well_formed csv = true → unusable (net w (sent w)) →
  ∃ w', main dry_run csv w = (SysExit 1, w') ∧ ran w w' 1 [Act GetLocations].
Proof.
  intros Hok Hbad.
  destruct (main_setup_cases dry_run csv w) as (o & w1 & Hsetup & Hcases).
  destruct Hcases
    as [(Hno & _) | [(_ & _ & -> & Hran) | (_ & status & data & _ & Hgood & _)]];
    [congruence| |done].
  exists w1. split; [by apply main_stops_in_setup|done].
Qed.

(** X9. The table [fetch_location_lookup] returns holds the collection
    and nothing else: every identifier in it comes from an object of
    the answer that registers it under that key, and every object with
    an id and a name can be referred to by its name in any letter
    case. *)
Theorem lookup_table_holds_the_collection w table w' :
  fetch_location_lookup w = (Return table, w') →
  ∃ status data,
    net w (sent w) = Reply status (LocationList data)
    ∧ (∀ key i, table !! key = Some i →
                ∃ loc, loc ∈ data ∧ registers loc = Some (key, i))
    ∧ (∀ loc key i, loc ∈ data → registers loc = Some (key, i) →
                    ∀ name, lower name = key → is_Some (resolve table name)).
Proof.
  intros Hfetch.
  destruct (DeviceFacts.fetch_location_lookup_inv w table w' Hfetch)
    as (status & data & Hnet & ->).
  exists status, data. split; [done|]. split.
  - intros key i Hk. apply lookup_of_sound in Hk as [Hm|Hin]; [|done].
    by rewrite lookup_empty in Hm.
  - intros loc key i Hin Hloc name Hname.
    destruct (lookup_of_registered data loc key i ∅ Hin Hloc) as (j & Hj).
    exists j. unfold resolve. rewrite Hname, Hj.
    assert (truthy j = true) as ->; [|done].
    eapply (DeviceFacts.lookup_of_truthy data ∅); [|exact Hj].
    intros k i'. by rewrite lookup_empty.
Qed.

(** X25. The set [fetch_existing_tags] returns holds the names of the
    answer that are not empty, stripped and in lower case, and nothing
    else; the call returns only for a status outside 400 to 599 with a
    list of tags in the body. *)
Theorem existing_tags_are_lowercased w tags w' :
  fetch_existing_tags w = (Return tags, w') →
  ∃ status names,
    net w (sent w) = Reply status (TagList names)
    ∧ ¬ 400 ≤ status < 600
    ∧ ∀ t, t ∈ tags ↔ ∃ n, n ∈ names ∧ truthy n = true ∧ t = lower (strip n).
Proof.
  unfold fetch_existing_tags, bind, log, record, request, raise_for_status.
  simpl. destruct (net w (sent w)) as [|status b] eqn:Hnet; simpl; [done|].
  destruct ((400 <=? status) && (status <? 600)) eqn:Hs; simpl; [done|].
  destruct b as [| |names]; simpl; try done.
  intros [= <- _]. exists status, names. split; [done|]. split.
  { apply andb_false_iff in Hs. lia. }
  intros t. rewrite elem_of_list_to_set, list_elem_of_In, in_map_iff.
  split.
  - intros (n & <- & Hin). apply filter_In in Hin as [Hin Ht].
    exists n. by rewrite list_elem_of_In.
  - intros (n & Hin & Ht & ->). exists n. split; [done|].
    apply filter_In. by rewrite <- list_elem_of_In.
Qed.

(** X10. A record whose location matches the name of no object of the
    collection costs one failure and one error line: nothing is sent
    for it and the loop goes on. *)
Theorem unknown_location_counts_one_failure
    w0 table w0' status data tags dry_run e rest failures w :
  fetch_location_lookup w0 = (Return table, w0') →
  net w0 (sent w0) = Reply status (LocationList data) →
  (∀ loc i, loc ∈ data → registers loc ≠ Some (lower (location e), i)) →
  (truthy (tag e) = true → lower (tag e) ∈ tags) →
  process_entries table tags dry_run (e :: rest) failures w =
  process_entries table tags dry_run rest (failures + 1)
    (after w [Logged ERROR "No location found matching name '%s' for device '%s'"]).
Proof.
  intros Hfetch Hnet Hnone Htag.
  destruct (DeviceFacts.fetch_location_lookup_inv w0 table w0' Hfetch)
    as (status' & data' & Hnet' & ->).
  rewrite Hnet in Hnet'. injection Hnet' as <- <-.
  assert (Hres : resolve (lookup_of data ∅) (location e) = None).
  { unfold resolve. rewrite DeviceFacts.lookup_of_skips, lookup_empty; [done|].
    intros loc Hin i. by apply Hnone. }
  simpl process_entries. unfold bind at 1. unfold process_entry.
  assert (truthy (tag e) && negb (bool_decide (lower (tag e) ∈ tags)) = false)
    as ->.
  { destruct (truthy (tag e)); [|done].
    by rewrite bool_decide_true by by apply Htag. }
  by rewrite Hres.
Qed.

(** X11. A record that passes the checks and whose calls are answered
    below 400 is updated with the PATCH request first and, when it has
    a label, the tag request second; no failure is counted. *)
Theorem record_is_patched_then_tagged
    n2i tags e rest failures w location_id c1 b1 :
  (truthy (tag e) = true → lower (tag e) ∈ tags) →
  resolve n2i (location e) = Some location_id →
  net w (sent w) = Reply c1 b1 → c1 < 400 →
  (truthy (tag e) = false →
   ∃ w', process_entries n2i tags false (e :: rest) failures w
         = process_entries n2i tags false rest failures w'
         ∧ ran w w' 1 [Act (PatchAtlas (device e) location_id)])
  ∧ (truthy (tag e) = true →
     ∀ c2 b2, net w (sent w + 1)%nat = Reply c2 b2 → c2 < 400 →
     ∃ w', process_entries n2i tags false (e :: rest) failures w
           = process_entries n2i tags false rest failures w'
           ∧ ran w w' 2 [Act (PatchAtlas (device e) location_id);
                         Act (PostDeviceTags (device e) (tag e))]).
Proof.
  intros Htag Hres Hnet Hs.
  pose proof (process_entry_resolved n2i tags false e failures w location_id
                Htag Hres) as Hstep.
  match type of Hstep with
  | _ = try_except _ _ ?w0 =>
      destruct (DeviceMore.patch_success (device e) location_id w0 c1 b1 Hnet Hs)
        as (w1 & Hpatch & Hran1);
      assert (Hran0 : ran w w0 0 []) by ran_done
  end.
  pose proof (ran_trans _ _ _ 0 1 [] [_] Hran0 Hran1) as Hran. simpl in Hran.
  split.
  - intros Hno. exists w1. split; [|done].
    simpl process_entries. unfold bind at 1. rewrite Hstep.
    unfold try_except, bind. by rewrite Hpatch, Hno.
  - intros Hyes c2 b2 Hnet2 Hs2.
    destruct (DeviceMore.tag_success (device e) (tag e) w1 c2 b2) as (w2 & Hpost & Hran2);
      [|done|].
    { destruct Hran as (-> & -> & _). done. }
    exists w2. split.
    + simpl process_entries. unfold bind at 1. rewrite Hstep.
      unfold try_except, bind. by rewrite Hpatch, Hyes, Hpost.
    + apply (ran_trans _ _ _ 1 1 [_] [_] Hran Hran2).
Qed.

(** X12. When the PATCH of a record went through and its tag request is
    refused with a client error, the record counts as one failure and
    nothing more is sent for it: the change of location stays, no
    request takes it back. *)
Theorem refused_tag_leaves_the_patch
    n2i tags e rest failures w location_id c1 b1 c2 b2 :
  truthy (tag e) = true → lower (tag e) ∈ tags →
  resolve n2i (location e) = Some location_id →
  net w (sent w) = Reply c1 b1 → c1 < 400 →
  net w (sent w + 1)%nat = Reply c2 b2 → 400 ≤ c2 < 500 →
  ∃ w', process_entries n2i tags false (e :: rest) failures w
        = process_entries n2i tags false rest (failures + 1) w'
        ∧ ran w w' 2 [Act (PatchAtlas (device e) location_id);
                      Act (PostDeviceTags (device e) (tag e))].
Proof.
  intros Hyes Htag Hres Hnet Hs Hnet2 Hs2.
  pose proof (process_entry_resolved n2i tags false e failures w location_id
                (λ _, Htag) Hres) as Hstep.
  match type of Hstep with
  | _ = try_except _ _ ?w0 =>
      destruct (DeviceMore.patch_success (device e) location_id w0 c1 b1 Hnet Hs)
        as (w1 & Hpatch & Hran1);
      assert (Hran0 : ran w w0 0 []) by ran_done
  end.
  pose proof (ran_trans _ _ _ 0 1 [] [_] Hran0 Hran1) as Hran. simpl in Hran.
  destruct (DeviceFacts.tag_client_error (device e) (tag e) w1 c2 b2)
    as (w2 & Hpost & Hran2); [|done|].
  { destruct Hran as (-> & -> & _). done. }
  eexists. split.
  - simpl process_entries. unfold bind at 1. rewrite Hstep.
    unfold try_except, bind. rewrite Hpatch, Hyes, Hpost. reflexivity.
  - eapply (ran_trans _ _ _ 2 0 [_; _] []);
      [apply (ran_trans _ _ _ 1 1 [_] [_] Hran Hran2)|ran_done].
Qed.

(** X13. When no row of the file carries a label, the run never turns
    to the device-tags endpoint: neither the list of tags is fetched
    nor a tag posted. *)
Theorem untagged_file_never_asks_for_tags dry_run csv w :
  Forall (λ e, tag e = "") (entries_of csv) →
  ∃ o w', main dry_run csv w = (o, w') ∧ grows no_tag_request w w'.
Proof.
  intros Hall.
  assert (Hlabels : List.filter truthy (List.map tag (entries_of csv)) = []).
  { induction Hall as [|e l He _ IH]; [done|]. simpl. by rewrite He. }
  destruct (main_setup_cases dry_run csv w) as (o & w1 & Hsetup & Hcases).
  destruct Hcases
    as [(_ & -> & Hran)
       | [(_ & _ & -> & Hran)
         | (_ & status & data & _ & _ & [(_ & -> & Hran) | (Hne & _)])]];
    [..|done].
  - eexists _, w1. split; [by apply main_stops_in_setup|].
    eapply ran_grows_ok; [apply no_tag_request_log| |exact Hran]. done.
  - eexists _, w1. split; [by apply main_stops_in_setup|].
    eapply ran_grows_ok; [apply no_tag_request_log| |exact Hran].
    by repeat constructor.
  - destruct (process_entries_untagged (lookup_of data ∅) ∅ dry_run
                (entries_of csv) 0 w1 Hall) as (f & w2 & Hloop & Hg).
    destruct (main_finish_cases f w2) as (o & w3 & Hfin & Hran3 & _).
    exists o, w3. split.
    + rewrite (main_after_setup dry_run csv w _ w1 f w2 Hsetup Hloop). done.
    + eapply grows_trans; [|eapply grows_trans; [exact Hg|]].
      * eapply ran_grows_ok; [apply no_tag_request_log| |exact Hran].
        by repeat constructor.
      * eapply ran_grows_ok; [apply no_tag_request_log| |exact Hran3]. done.
Qed.

(** X14. A dry run only reads: whatever the file and the answers, it
    sends no PATCH and no POST and never sleeps; its requests are the
    GET of the locations and the GET of the tags at most. *)
Theorem dry_run_only_reads csv w :
  ∃ o w', main true csv w = (o, w') ∧ grows reads_only w w'
          ∧ (o = Return tt ∨ o = SysExit 1).
Proof.
  destruct (main_setup_cases true csv w) as (o & w1 & Hsetup & Hcases).
  assert (Hstop : ∀ n es, Forall reads_only es → ran w w1 n es → o = SysExit 1 →
            ∃ o' w', main true csv w = (o', w') ∧ grows reads_only w w'
                     ∧ (o' = Return tt ∨ o' = SysExit 1)).
  { intros n es Hes Hran ->. eexists _, w1.
    split; [by apply main_stops_in_setup|]. split; [|by right].
    eapply ran_grows_ok; [apply reads_only_log|exact Hes|exact Hran]. }
  assert (Hgo : ∀ n es p, Forall reads_only es → ran w w1 n es → o = Return p →
            ∃ o' w', main true csv w = (o', w') ∧ grows reads_only w w'
                     ∧ (o' = Return tt ∨ o' = SysExit 1)).
  { intros n es p Hes Hran ->.
    destruct (process_entries_dry (name_to_id p) (existing_tags p) (devices p) 0 w1)
      as (f & w2 & Hloop & Hran2).
    destruct (main_finish_cases f w2) as (o & w3 & Hfin & Hran3 & Ho).
    exists o, w3. split.
    - by rewrite (main_after_setup true csv w p w1 f w2 Hsetup Hloop).
    - split; [|done].
      eapply grows_trans;
        [eapply ran_grows_ok; [apply reads_only_log|exact Hes|exact Hran]|].
      eapply ran_grows_ok; [apply reads_only_log| |].
      2: apply (ran_trans _ _ _ 0 0 [] [] Hran2 Hran3).
      done. }
  destruct Hcases
    as [(_ & Ho & Hran)
       | [(_ & _ & Ho & Hran)
         | (_ & status & data & _ & _ &
            [(_ & Ho & Hran) | (_ & Hran & [Ho | (tags & Ho)])])]].
  - by eapply (Hstop 0%nat []).
  - eapply (Hstop 1%nat [_]); [|exact Hran|done]. by repeat constructor.
  - eapply (Hgo 1%nat [_]); [|exact Hran|exact Ho]. by repeat constructor.
  - eapply (Hstop 2%nat [_; _]); [|exact Hran|done]. by repeat constructor.
  - eapply (Hgo 2%nat [_; _]); [|exact Hran|exact Ho]. by repeat constructor.
Qed.

(** X15. No exception leaves [main]: whatever the file and the answers,
    the run ends by returning (status 0) or by [sys.exit(1)]. *)
Theorem device_run_ends_with_0_or_1 dry_run csv w :
  (main dry_run csv w).1 = Return tt ∨ (main dry_run csv w).1 = SysExit 1.
Proof.
  destruct (main_setup_cases dry_run csv w) as (o & w1 & Hsetup & Hcases).
  assert (Hgo : ∀ p, o = Return p →
            (main dry_run csv w).1 = Return tt ∨ (main dry_run csv w).1 = SysExit 1).
  { intros p ->.
    destruct (DeviceFacts.process_entries_returns (name_to_id p) (existing_tags p)
                dry_run (devices p) 0 w1) as (f & w2 & Hloop & _).
    rewrite (main_after_setup dry_run csv w p w1 f w2 Hsetup Hloop).
    destruct (main_finish_cases f w2) as (o & w3 & -> & _ & [-> | ->]);
      [by left|by right]. }
  assert (Hstop : o = SysExit 1 → (main dry_run csv w).1 = SysExit 1).
  { intros ->. by rewrite (main_stops_in_setup dry_run csv w 1 w1 Hsetup). }
  destruct Hcases
    as [(_ & Ho & _)
       | [(_ & _ & Ho & _)
         | (_ & status & data & _ & _ &
            [(_ & Ho & _) | (_ & _ & [Ho | (tags & Ho)])])]];
    eauto.
Qed.

(** X26. When every record passes its checks (its tag is known, its
    location resolves) and every request is answered below 400, the
    record loop sends exactly the PATCH of each record followed by its
    tag POST when it has a tag, in the order of the file, never
    sleeps, and counts no failure. *)
Theorem all_records_are_updated_in_order n2i tags devs failures w :
  Forall (λ e, (truthy (tag e) = true → lower (tag e) ∈ tags)
               ∧ is_Some (resolve n2i (location e))) devs →
  (∀ n, ∃ status b, net w n = Reply status b ∧ status < 400) →
  ∃ w', process_entries n2i tags false devs failures w = (Return failures, w')
        ∧ ran w w' (length (concat (updates n2i <$> devs)))
            (Act <$> concat (updates n2i <$> devs)).
Proof.
  intros Hall. revert w. induction Hall as [|e rest [Htag Hres] _ IH]; intros w Hnet.
  - exists w. split; [done|apply ran_refl].
  - destruct (process_entry_updates n2i tags e failures w Htag Hres Hnet)
      as (w1 & Hrun & Hran1).
    destruct (IH w1) as (w2 & Hrest & Hran2).
    { destruct Hran1 as (-> & _). exact Hnet. }
    exists w2. split.
    + simpl. unfold bind. by rewrite Hrun.
    + cbn [fmap list_fmap concat]. rewrite length_app, fmap_app.
      by eapply ran_trans.
Qed.

End DeviceRun.

(** ** The location locater, continued *)

Module LocationMore.

Import LocationLocater.

Section Coordinates.

Context {coord : Type} (float : string → option coord).

Implicit Types (w : world (@action coord) body) (s : retry).

Section Post.

Context (finite : coord → bool).

(** *** The POST call *)

Ltac post_with Henc Hnet :=
unfold post_attempt, post_request, POST_MAX_RETRIES; rewrite Henc;
attempt_with Hnet.

Lemma post_attempt_success loc (Henc : encodable finite loc = true)
  s w status b :
net w (sent w) = Reply status b → status < 400 →
∃ w', post_attempt finite loc s w = (Return (Returned tt), w')
      ∧ ran w w' 1 [Act (PostLocation loc)].
Proof.
intros Hnet Hs.
post_with Henc Hnet; (eexists; split; [reflexivity|ran_done]).
Qed.

Lemma post_attempt_again loc (Henc : encodable finite loc = true) s w :
retryable (net w (sent w)) → attempt s ≠ 3 →
∃ w', post_attempt finite loc s w
        = (Return (Next (Retry (attempt s + 1) (delay s * 2))), w')
      ∧ ran w w' 1 [Act (PostLocation loc); Slept (delay s)].
Proof.
intros Hr Ha.
destruct (net w (sent w)) as [|status b] eqn:Hnet; simpl in Hr;
  post_with Henc Hnet; (eexists; split; [reflexivity|ran_done]).
Qed.

Lemma post_attempt_no_response_last loc (Henc : encodable finite loc = true)
  s w :
net w (sent w) = NoResponse → attempt s = 3 →
∃ w', post_attempt finite loc s w = (Raise ConnectionError, w')
      ∧ ran w w' 1 [Act (PostLocation loc)].
Proof.
intros Hnet Ha.
post_with Henc Hnet; (eexists; split; [reflexivity|ran_done]).
Qed.

Lemma post_attempt_overflow loc (Henc : encodable finite loc = true)
  s w status b :
net w (sent w) = Reply status b → 600 ≤ status →
∃ w', post_attempt finite loc s w
        = (Return (Next (Retry (attempt s + 1) (delay s * 2))), w')
      ∧ ran w w' 1 [Act (PostLocation loc); Slept (delay s)].
Proof.
intros Hnet Hs.
post_with Henc Hnet; (eexists; split; [reflexivity|ran_done]).
Qed.

Lemma post_attempt_exact loc (Henc : encodable finite loc = true) s w :
∃ o w', post_attempt finite loc s w = (o, w')
        ∧ attempts w w' 1 (PostLocation loc)
        ∧ (o = Return (Next (Retry (attempt s + 1) (delay s * 2)))
           ∨ o = Return (Returned tt) ∨ ∃ e, o = Raise e).
Proof.
destruct (net w (sent w)) as [|status b] eqn:Hnet;
  post_with Henc Hnet;
  (eexists _, _; split; [reflexivity|];
   split; [eapply ran_attempts; [ran_done|reflexivity]|]);
  eauto.
Qed.

(** An attempt whose payload cannot be encoded: nothing is sent, and
  the failure is handled as a network error. *)
Lemma post_attempt_unencodable loc (Henc : encodable finite loc = false) s w :
(attempt s ≠ 3 →
 post_attempt finite loc s w
   = (Return (Next (Retry (attempt s + 1) (delay s * 2))),
      after w [Logged INFO "POST attempt %d/%d to %s for location id=%s";
               Logged WARNING "POST network error for id=%s (attempt %d/%d): %s";
               Slept (delay s)]))
∧ (attempt s = 3 →
   post_attempt finite loc s w
     = (Raise ConnectionError,
        after w [Logged INFO "POST attempt %d/%d to %s for location id=%s";
                 Logged WARNING
                   "POST network error for id=%s (attempt %d/%d): %s"])).
Proof.
unfold post_attempt, post_request, POST_MAX_RETRIES. rewrite Henc.
unfold try_except, bind, log, sleep, record, raise, ret, after. simpl.
split; intros Ha.
- destruct (Z.eqb_spec (attempt s) 3); [done|].
  simpl. by rewrite <- !app_assoc.
- destruct (Z.eqb_spec (attempt s) 3); [|done].
  simpl. by rewrite <- !app_assoc.
Qed.

Ltac post_from Hrun :=
unfold post_single_location_to_forward; use_loop Hrun; reflexivity.

Lemma post_success loc w status b :
encodable finite loc = true →
net w (sent w) = Reply status b → status < 400 →
∃ w', post_single_location_to_forward finite loc w = (Return tt, w')
      ∧ ran w w' 1 [Act (PostLocation loc)].
Proof.
intros Henc Hnet Hs.
destruct (retry_success (PostLocation loc) (post_attempt finite loc)
            (post_attempt_success loc Henc) w status b Hnet Hs)
  as (w' & Hrun & Hran).
exists w'. split; [post_from Hrun|done].
Qed.

Lemma post_recovers loc w status b :
encodable finite loc = true →
retryable (net w (sent w)) →
net w (sent w + 1)%nat = Reply status b → status < 400 →
∃ w', post_single_location_to_forward finite loc w = (Return tt, w')
      ∧ ran w w' 2 [Act (PostLocation loc); Slept 1; Act (PostLocation loc)].
Proof.
intros Henc Hr Hnet Hs.
destruct (retry_recovers (PostLocation loc) (post_attempt finite loc)
            (post_attempt_success loc Henc) (post_attempt_again loc Henc)
            w status b Hr Hnet Hs) as (w' & Hrun & Hran).
exists w'. split; [post_from Hrun|done].
Qed.

Lemma post_no_response loc w :
encodable finite loc = true →
net w (sent w) = NoResponse →
net w (sent w + 1)%nat = NoResponse →
net w (sent w + 2)%nat = NoResponse →
∃ w', post_single_location_to_forward finite loc w = (Raise ConnectionError, w')
      ∧ ran w w' 3 [Act (PostLocation loc); Slept 1; Act (PostLocation loc);
                    Slept 2; Act (PostLocation loc)].
Proof.
intros Henc H1 H2 H3.
destruct (retry_no_response (PostLocation loc) (post_attempt finite loc)
            (post_attempt_again loc Henc) (post_attempt_no_response_last loc Henc)
            w H1 H2 H3) as (w' & Hrun & Hran).
exists w'. split; [post_from Hrun|done].
Qed.

Lemma post_overflow loc w c1 b1 c2 b2 c3 b3 :
encodable finite loc = true →
net w (sent w) = Reply c1 b1 → 600 ≤ c1 →
net w (sent w + 1)%nat = Reply c2 b2 → 600 ≤ c2 →
net w (sent w + 2)%nat = Reply c3 b3 → 600 ≤ c3 →
∃ w', post_single_location_to_forward finite loc w = (Return tt, w')
      ∧ ran w w' 3 [Act (PostLocation loc); Slept 1; Act (PostLocation loc);
                    Slept 2; Act (PostLocation loc); Slept 4].
Proof.
intros Henc Hn1 Hs1 Hn2 Hs2 Hn3 Hs3.
destruct (retry_overflow (PostLocation loc) (post_attempt finite loc)
            (post_attempt_overflow loc Henc)
            w c1 b1 c2 b2 c3 b3 Hn1 Hs1 Hn2 Hs2 Hn3 Hs3) as (w' & Hrun & Hran).
exists w'. split; [post_from Hrun|done].
Qed.

(** A location whose payload cannot be encoded: the call goes through
  its three attempts with the delays 1 and 2, sends nothing, and
  raises, whatever the remote side would answer. *)
Lemma post_unencodable loc w :
encodable finite loc = false →
∃ w', post_single_location_to_forward finite loc w = (Raise ConnectionError, w')
      ∧ ran w w' 0 [Slept 1; Slept 2].
Proof.
intros Henc.
pose proof (λ s w, proj1 (post_attempt_unencodable loc Henc s w)) as Hagain.
pose proof (λ s w, proj2 (post_attempt_unencodable loc Henc s w)) as Hlast.
assert (Hloop : ∃ w', while 4 (λ s, attempt s <=? 3) (post_attempt finite loc)
                        (Retry 1 1) w = (Raise ConnectionError, w')
                      ∧ ran w w' 0 [Slept 1; Slept 2]).
{ eexists. split.
  - rewrite while_S by done. rewrite Hagain by (simpl; lia). cbv beta match.
    rewrite while_S by done. rewrite Hagain by (simpl; lia). cbv beta match.
    rewrite while_S by done. rewrite Hlast by (simpl; lia). reflexivity.
  - ran_done. }
destruct Hloop as (w' & Hrun & Hran).
exists w'. split; [post_from Hrun|done].
Qed.

(** Whatever the answers, the call settles after at most three
  requests, all of them its own; it sends at least one when the
  payload can be encoded and none when it cannot. *)
Lemma post_bounded loc w :
∃ o w' k, post_single_location_to_forward finite loc w = (o, w')
          ∧ (if encodable finite loc then 1 ≤ k ≤ 3 else k = 0)%nat
          ∧ attempts w w' k (PostLocation loc) ∧ settled o.
Proof.
destruct (encodable finite loc) eqn:Henc.
- destruct (retry_bounded (PostLocation loc) (post_attempt finite loc)
              (post_attempt_exact loc Henc) w) as (o & w' & k & Hrun & Hk & Ha & Hs).
  unfold post_single_location_to_forward. use_loop Hrun.
  destruct o as [r|e| |]; try done; by eexists _, w', k.
- destruct (post_unencodable loc w Henc) as (w' & Hrun & Hran).
  exists (Raise ConnectionError), w', 0%nat. split; [done|]. split; [done|].
  split; [|done]. by eapply ran_attempts.
Qed.

End Post.

(** *** The geocoding call *)

Ltac geocode_from :=
  unfold geocode_address, bind; change geocode_fuel with 4%nat;
  change (Retry 1 GEOCODE_DELAY_SECONDS) with (Retry 1 1).

(** A second answer with coordinates: two requests, the delay 1
    between them. *)
Lemma geocode_address_second address w latlng :
  answer float (net w (sent w)) = None →
  answer float (net w (sent w + 1)%nat) = Some latlng →
  ∃ w', geocode_address float address w = (Return latlng, w')
        ∧ ran w w' 2 [Act (GetNominatim address); Slept 1;
                      Act (GetNominatim address)].
Proof.
  intros H1 H2.
  destruct (LocationFacts.geocode_attempt_fails float address (Retry 1 1) w H1)
    as (w1 & Hrun1 & Hran1); [done|].
  destruct (LocationFacts.geocode_attempt_succeeds float address (Retry 2 2) w1 latlng)
    as (w2 & Hrun2 & Hran2).
  { destruct Hran1 as (-> & -> & _). done. }
  exists w2. split.
  - geocode_from. rewrite while_S by done. rewrite Hrun1.
    rewrite while_S by done.
    change (Retry (attempt (Retry 1 1) + 1) (delay (Retry 1 1) * 2)) with (Retry 2 2).
    by rewrite Hrun2.
  - apply (ran_trans _ _ _ 1 1 [_; _] [_] Hran1 Hran2).
Qed.

(** A third answer with coordinates: three requests, the delays 1
    and 2 between them. *)
Lemma geocode_address_third address w latlng :
  answer float (net w (sent w)) = None →
  answer float (net w (sent w + 1)%nat) = None →
  answer float (net w (sent w + 2)%nat) = Some latlng →
  ∃ w', geocode_address float address w = (Return latlng, w')
        ∧ ran w w' 3 [Act (GetNominatim address); Slept 1;
                      Act (GetNominatim address); Slept 2;
                      Act (GetNominatim address)].
Proof.
  intros H1 H2 H3.
  destruct (LocationFacts.geocode_attempt_fails float address (Retry 1 1) w H1)
    as (w1 & Hrun1 & Hran1); [done|].
  destruct (LocationFacts.geocode_attempt_fails float address (Retry 2 2) w1)
    as (w2 & Hrun2 & Hran2); [|done|].
  { destruct Hran1 as (-> & -> & _). done. }
  destruct (LocationFacts.geocode_attempt_succeeds float address (Retry 3 4) w2 latlng)
    as (w3 & Hrun3 & Hran3).
  { destruct Hran2 as (-> & -> & _), Hran1 as (-> & -> & _).
    by rewrite <- Nat.add_assoc. }
  exists w3. split.
  - geocode_from. rewrite while_S by done. rewrite Hrun1.
    rewrite while_S by done.
    change (Retry (attempt (Retry 1 1) + 1) (delay (Retry 1 1) * 2)) with (Retry 2 2).
    rewrite Hrun2. rewrite while_S by done.
    change (Retry (attempt (Retry 2 2) + 1) (delay (Retry 2 2) * 2)) with (Retry 3 4).
    by rewrite Hrun3.
  - apply (ran_trans _ _ _ 1 2 [_; _] [_; _; _] Hran1).
    apply (ran_trans _ _ _ 1 1 [_; _] [_] Hran2 Hran3).
Qed.

(** Whatever the answers, the call settles after one, two or three
    requests to the geocoder. *)
Lemma geocode_address_bounded address w :
  ∃ o w' k, geocode_address float address w = (o, w')
            ∧ (1 ≤ k ≤ 3)%nat ∧ attempts w w' k (GetNominatim address)
            ∧ settled o.
Proof.
  destruct (answer float (net w (sent w))) as [ll|] eqn:H1.
  { destruct (LocationFacts.geocode_address_first float address w ll H1)
      as (w' & Hrun & Hran).
    exists (Return ll), w', 1%nat. split; [done|]. split; [lia|].
    split; [|done]. by eapply ran_attempts. }
  destruct (answer float (net w (sent w + 1)%nat)) as [ll|] eqn:H2.
  { destruct (geocode_address_second address w ll H1 H2) as (w' & Hrun & Hran).
    exists (Return ll), w', 2%nat. split; [done|]. split; [lia|].
    split; [|done]. by eapply ran_attempts. }
  destruct (answer float (net w (sent w + 2)%nat)) as [ll|] eqn:H3.
  { destruct (geocode_address_third address w ll H1 H2 H3) as (w' & Hrun & Hran).
    exists (Return ll), w', 3%nat. split; [done|]. split; [lia|].
    split; [|done]. by eapply ran_attempts. }
  destruct (LocationFacts.geocode_address_retries float address w H1 H2 H3)
    as (e & w' & Hrun & Hran).
  exists (Raise e), w', 3%nat. split; [done|]. split; [lia|].
  split; [|done]. by eapply ran_attempts.
Qed.

(** *** The coordinate loop *)

Lemma geocoding_only_log lvl fmt :
  geocoding_only (Logged lvl fmt : event (@action coord)).
Proof. done. Qed.

Lemma supplied_needs (loc : @location coord) :
  needs_geocoding loc = true ↔ supplied loc = None.
Proof. unfold needs_geocoding, supplied. by destruct (lat loc), (lng loc). Qed.

(** Records that all carry their coordinates go through the loop
    without a request and without a delay. *)
Lemma geocode_loop_supplied locs results w :
  Forall (λ loc, needs_geocoding loc = false) locs →
  ∃ w', geocode_loop float locs results w
          = (Return (results ++ omap supplied locs), w')
        ∧ ran w w' 0 [].
Proof.
  intros Hall. revert results w.
  induction Hall as [|loc rest Hloc _ IH]; intros results w.
  - exists w. simpl. rewrite app_nil_r. split; [done|apply ran_refl].
  - unfold needs_geocoding in Hloc. simpl. unfold supplied at 1.
    destruct (lat loc) as [la|]; [|done]. destruct (lng loc) as [ln|]; [|done].
    unfold bind, log, record. cbv beta.
    match goal with
    | |- context [geocode_loop float rest ?r ?w0] =>
        destruct (IH r w0) as (w' & Hrun & Hran)
    end.
    exists w'. rewrite Hrun, <- app_assoc. split; [done|].
    eapply (ran_trans _ _ _ 0 0 [] []); [|exact Hran]. ran_done.
Qed.

(** One record that lacks a coordinate: between one and three
    requests, then the delay, and at most one new entry, which has
    the id of the record. *)
Lemma geocode_loop_step loc rest results w :
  needs_geocoding loc = true →
  ∃ new w1,
    geocode_loop float (loc :: rest) results w
      = geocode_loop float rest (results ++ new) w1
    ∧ (new = [] ∨ ∃ la ln, new = [Located (id loc) (name loc) la ln])
    ∧ grows geocoding_only w w1
    ∧ (sent w + 1 ≤ sent w1 ≤ sent w + 3)%nat.
Proof.
  intros Hneeds.
  assert (Hgo : geocode_loop float (loc :: rest) results w =
                bind (log INFO "[%d/%d] Geocoding address for '%s' (%s): %s")
                  (λ _, bind
                     (try_except
                        (bind (geocode_address float (address loc))
                           (λ latlng, bind (log INFO " -> lat=%s, lng=%s")
                              (λ _, ret (results ++
                                 [Located (id loc) (name loc) latlng.1 latlng.2]))))
                        (λ _, bind (log ERROR "FAILED geocoding '%s' (%s): %s")
                                (λ _, ret results)))
                     (λ results', bind (sleep GEOCODE_DELAY_SECONDS)
                        (λ _, geocode_loop float rest results'))) w).
  { unfold needs_geocoding in Hneeds. simpl.
    destruct (lat loc), (lng loc); done. }
  rewrite Hgo. unfold bind, try_except, log, sleep, record. cbv beta.
  match goal with
  | |- context [geocode_address float (address loc) ?w0] =>
      destruct (geocode_address_bounded (address loc) w0)
        as (o & w1 & k & Hrun & Hk & Ha & Hs);
      assert (Hg : grows geocoding_only w w1)
        by (eapply grows_trans;
            [|eapply attempts_grows; [| | |exact Ha]; done]; grows_done);
      assert (Hsent : sent w1 = (sent w + k)%nat) by (by destruct Ha as (_ & -> & _))
  end.
  rewrite Hrun. destruct o as [latlng|e| |]; try done.
  - eexists [_], _. split; [reflexivity|].
    split; [right; by eexists _, _|].
    split; [|simpl; lia].
    eapply grows_trans; [exact Hg|]. grows_done.
  - exists [], (after w1 [Logged ERROR "FAILED geocoding '%s' (%s): %s";
                          Slept GEOCODE_DELAY_SECONDS]).
    rewrite app_nil_r. split.
    { unfold after. simpl. by rewrite <- app_assoc. }
    split; [by left|]. split; [|simpl; lia].
    eapply grows_trans; [exact Hg|]. grows_done.
Qed.

(** The loop as a whole. *)
Lemma geocode_loop_results locs results w :
  ∃ new w',
    geocode_loop float locs results w = (Return (results ++ new), w')
    ∧ sublist (located_id <$> new) (id <$> locs)
    ∧ sublist (omap supplied locs) new
    ∧ grows geocoding_only w w'
    ∧ (sent w + length (List.filter needs_geocoding locs) ≤ sent w'
       ≤ sent w + 3 * length (List.filter needs_geocoding locs))%nat.
Proof.
  revert results w. induction locs as [|loc rest IH]; intros results w.
  - exists [], w. simpl. rewrite app_nil_r. split; [done|].
    split; [done|]. split; [done|]. split; [apply grows_refl|lia].
  - destruct (needs_geocoding loc) eqn:Hneeds.
    + destruct (geocode_loop_step loc rest results w Hneeds)
        as (new1 & w1 & Hstep & Hnew & Hg1 & Hsent1).
      destruct (IH (results ++ new1) w1) as (new2 & w2 & Hrun & Hids & Hsup & Hg2 & Hsent2).
      exists (new1 ++ new2), w2. rewrite Hstep, Hrun, app_assoc.
      split; [done|].
      assert (Hnone : supplied loc = None) by by apply supplied_needs.
      cbn [omap list_omap List.filter]. rewrite Hnone, Hneeds.
      destruct Hnew as [-> | (la & ln & ->)]; simpl.
      * split; [by apply sublist_cons|]. split; [done|].
        split; [by eapply grows_trans|lia].
      * split; [by apply sublist_skip|]. split; [by apply sublist_cons|].
        split; [by eapply grows_trans|lia].
    + assert (Hsome : ∃ la ln, lat loc = Some la ∧ lng loc = Some ln).
      { unfold needs_geocoding in Hneeds.
        destruct (lat loc) as [la|], (lng loc) as [ln|]; try done. by exists la, ln. }
      destruct Hsome as (la & ln & Hla & Hln).
      destruct (IH (results ++ [Located (id loc) (name loc) la ln])
                  (after w [Logged INFO
                     "[%d/%d] Using existing lat/lng for '%s' (%s): lat=%s, lng=%s"]))
        as (new2 & w2 & Hrun & Hids & Hsup & Hg2 & Hsent2).
      exists (Located (id loc) (name loc) la ln :: new2), w2.
      split.
      { simpl. rewrite Hla, Hln. unfold bind, log, record. cbv beta.
        unfold after in Hrun. rewrite Hrun. by rewrite <- app_assoc. }
      cbn [omap list_omap List.filter]. unfold supplied at 1.
      rewrite Hla, Hln, Hneeds. simpl.
      split; [by apply sublist_skip|]. split; [by apply sublist_skip|].
      split; [|simpl in Hsent2; lia].
      eapply grows_trans; [|exact Hg2]. grows_done.
Qed.

Lemma geocode_locations_results locs w :
  ∃ results w',
    geocode_locations float locs w = (Return results, w')
    ∧ sublist (located_id <$> results) (id <$> locs)
    ∧ sublist (omap supplied locs) results
    ∧ grows geocoding_only w w'
    ∧ (sent w + length (List.filter needs_geocoding locs) ≤ sent w'
       ≤ sent w + 3 * length (List.filter needs_geocoding locs))%nat.
Proof.
  destruct (geocode_loop_results locs [] w) as (new & w1 & Hrun & Hids & Hsup & Hg & Hs).
  simpl in Hrun.
  exists new, (after w1 [Logged INFO
                 "Successfully prepared coordinates for %d of %d location(s)"]).
  unfold geocode_locations, bind. rewrite Hrun.
  split; [done|]. split; [done|]. split; [done|].
  split; [|simpl; lia]. eapply grows_trans; [exact Hg|]. grows_done.
Qed.

(** *** The CSV loader *)

Lemma complete_row_spec row : complete_row row = true ↔ complete row.
Proof.
  unfold complete_row, complete. rewrite !andb_true_iff. tauto.
Qed.

Lemma load_rows_spec has_lat has_lng rs locs w :
  ∃ w', load_rows float has_lat has_lng rs locs w
          = (Return (locs ++ omap (location_of float has_lat has_lng) rs), w')
        ∧ ran w w' 0 [].
Proof.
  revert locs w. induction rs as [|row rest IH]; intros locs w.
  - exists w. simpl. rewrite app_nil_r. split; [done|apply ran_refl].
  - cbn [omap list_omap]. unfold location_of at 1.
    destruct (complete_row row) eqn:Hc.
    + apply complete_row_spec in Hc.
      destruct (LocationFacts.load_rows_complete float has_lat has_lng row rest
                  locs w Hc) as (w1 & new & Hstep & Hnet & Hsent & Ht & He & _).
      match type of Hstep with
      | _ = load_rows _ _ _ _ ?l ?w0 => destruct (IH l w0) as (w' & Hrun & Hran)
      end.
      exists w'. rewrite Hstep, Hrun, <- app_assoc. split; [done|].
      eapply (ran_trans _ _ _ 0 0 [] []); [|exact Hran].
      repeat split; [done|lia|]. by exists new.
    + destruct (IH locs (after w [Logged WARNING
                  "Skipping incomplete row (missing id/name/address): %s"]))
        as (w' & Hrun & Hran).
      exists w'. split.
      * simpl. unfold complete_row in Hc.
        assert (negb (truthy (strip (or_empty (row !! "id"))))
                || negb (truthy (strip (or_empty (row !! "name"))))
                || negb (truthy (strip (or_empty (row !! "address")))) = true)
          as ->.
        { destruct (truthy (strip (or_empty (row !! "id")))); [|done].
          destruct (truthy (strip (or_empty (row !! "name")))); [|done].
          by destruct (truthy (strip (or_empty (row !! "address")))). }
        exact Hrun.
      * eapply (ran_trans _ _ _ 0 0 [] []); [|exact Hran]. ran_done.
Qed.

Lemma load_locations_spec csv w :
  (has_required csv = false →
   load_locations_from_csv float csv w
     = (Raise (ValueError "CSV missing required columns"), w))
  ∧ (has_required csv = true →
     ∃ w', load_locations_from_csv float csv w = (Return (locations_of float csv), w')
           ∧ ran w w' 0 []).
Proof.
  unfold has_required, load_locations_from_csv. cbv [List.filter].
  destruct (bool_decide ("id" ∈ fieldnames csv)),
    (bool_decide ("name" ∈ fieldnames csv)),
    (bool_decide ("address" ∈ fieldnames csv)); simpl;
    (split; [done|]); try done.
  intros _.
  destruct (load_rows_spec (bool_decide ("lat" ∈ fieldnames csv))
              (bool_decide ("lng" ∈ fieldnames csv)) (rows csv) [] w)
    as (w1 & Hrun & Hran).
  simpl in Hrun. unfold bind. rewrite Hrun.
  eexists. split; [reflexivity|].
  eapply (ran_trans _ _ _ 0 0 [] []); [exact Hran|ran_done].
Qed.

(** X16. [geocode_address] returns the coordinates of the first
    answer that has some: when the first attempt fails and the
    second succeeds the call returns after two requests and the
    delay 1, when only the third succeeds after three requests and
    the delays 1 and 2. *)
Theorem geocoding_recovers_after_failures address w latlng :
  answer float (net w (sent w)) = None →
  (answer float (net w (sent w + 1)%nat) = Some latlng →
   ∃ w', geocode_address float address w = (Return latlng, w')
         ∧ ran w w' 2 [Act (GetNominatim address); Slept 1;
                       Act (GetNominatim address)])
  ∧ (answer float (net w (sent w + 1)%nat) = None →
     answer float (net w (sent w + 2)%nat) = Some latlng →
     ∃ w', geocode_address float address w = (Return latlng, w')
           ∧ ran w w' 3 [Act (GetNominatim address); Slept 1;
                         Act (GetNominatim address); Slept 2;
                         Act (GetNominatim address)]).
Proof.
  intros H1. split.
  - intros H2. by apply geocode_address_second.
  - intros H2 H3. by apply geocode_address_third.
Qed.

(** X17. When every record of the list carries both coordinates,
    [geocode_locations] returns one entry per record, in order, with
    the coordinates of the file, and sends no request and sleeps not
    at all. *)
Theorem supplied_file_needs_no_geocoder (locs : list (@location coord)) w :
  Forall (λ loc, needs_geocoding loc = false) locs →
  ∃ w', geocode_locations float locs w = (Return (omap supplied locs), w')
        ∧ length (omap supplied locs) = length locs
        ∧ ran w w' 0 [].
Proof.
  intros Hall.
  destruct (geocode_loop_supplied locs [] w Hall) as (w1 & Hrun & Hran).
  simpl in Hrun. eexists. split; [|split].
  - unfold geocode_locations, bind. rewrite Hrun. reflexivity.
  - clear Hrun Hran. induction Hall as [|loc rest Hloc _ IH]; [done|].
    cbn [omap list_omap]. unfold needs_geocoding in Hloc. unfold supplied at 1.
    destruct (lat loc), (lng loc); try done. simpl. by rewrite IH.
  - eapply (ran_trans _ _ _ 0 0 [] []); [exact Hran|ran_done].
Qed.

(** X18. [geocode_locations] always returns, whatever the geocoder
    answers.  Its result follows the order of the input and takes at
    most one entry from each record; every record with both
    coordinates is in it; a record that lacks one costs between one
    and three requests, and nothing is sent but requests to the
    geocoder. *)
Theorem coordinate_loop_keeps_order (locs : list (@location coord)) w :
  ∃ results w',
    geocode_locations float locs w = (Return results, w')
    ∧ sublist (located_id <$> results) (id <$> locs)
    ∧ sublist (omap supplied locs) results
    ∧ grows geocoding_only w w'
    ∧ (sent w + length (List.filter needs_geocoding locs) ≤ sent w'
       ≤ sent w + 3 * length (List.filter needs_geocoding locs))%nat.
Proof.
  destruct (geocode_loop_results locs [] w) as (new & w1 & Hrun & Hids & Hsup & Hg & Hs).
  simpl in Hrun.
  exists new, (after w1 [Logged INFO
                 "Successfully prepared coordinates for %d of %d location(s)"]).
  unfold geocode_locations, bind. rewrite Hrun.
  split; [done|]. split; [done|]. split; [done|].
  split; [|simpl; lia]. eapply grows_trans; [exact Hg|]. grows_done.
Qed.

(** X19. [load_locations_from_csv] raises [ValueError] when one of
    the columns id, name and address is missing, and reads nothing
    then; otherwise it returns the records of the complete rows, in
    the order of the file, and skips the others. *)
Theorem location_file_loads_complete_rows csv w :
  (has_required csv = false →
   load_locations_from_csv float csv w
     = (Raise (ValueError "CSV missing required columns"), w))
  ∧ (has_required csv = true →
     ∃ w', load_locations_from_csv float csv w = (Return (locations_of float csv), w')
           ∧ ran w w' 0 []).
Proof.
  unfold has_required, load_locations_from_csv. cbv [List.filter].
  destruct (bool_decide ("id" ∈ fieldnames csv)),
    (bool_decide ("name" ∈ fieldnames csv)),
    (bool_decide ("address" ∈ fieldnames csv)); simpl;
    (split; [done|]); try done.
  intros _.
  destruct (load_rows_spec (bool_decide ("lat" ∈ fieldnames csv))
              (bool_decide ("lng" ∈ fieldnames csv)) (rows csv) [] w)
    as (w1 & Hrun & Hran).
  simpl in Hrun. unfold bind. rewrite Hrun.
  eexists. split; [reflexivity|].
  eapply (ran_trans _ _ _ 0 0 [] []); [exact Hran|ran_done].
Qed.

(** *** An unparsable coordinate *)

(** A record that lacks a coordinate is geocoded from its address:
    between one and three requests for this address, then the delay;
    the entry is stored when coordinates came back, with the
    coordinates of the first answer when that one has some. *)
Lemma geocode_loop_geocodes loc rest results w :
  needs_geocoding loc = true →
  ∃ results' w3 k,
    geocode_loop float (loc :: rest) results w
      = geocode_loop float rest results' (after w3 [Slept GEOCODE_DELAY_SECONDS])
    ∧ (1 ≤ k ≤ 3)%nat ∧ attempts w w3 k (GetNominatim (address loc))
    ∧ (results' = results
       ∨ ∃ latlng, results'
                   = results ++ [Located (id loc) (name loc) latlng.1 latlng.2])
    ∧ (∀ latlng, answer float (net w (sent w)) = Some latlng →
         results' = results ++ [Located (id loc) (name loc) latlng.1 latlng.2]
         ∧ ran w w3 1 [Act (GetNominatim (address loc))]).
Proof.
  intros Hneeds.
  assert (Hgo : geocode_loop float (loc :: rest) results w =
                bind (log INFO "[%d/%d] Geocoding address for '%s' (%s): %s")
                  (λ _, bind
                     (try_except
                        (bind (geocode_address float (address loc))
                           (λ latlng, bind (log INFO " -> lat=%s, lng=%s")
                              (λ _, ret (results ++
                                 [Located (id loc) (name loc) latlng.1 latlng.2]))))
                        (λ _, bind (log ERROR "FAILED geocoding '%s' (%s): %s")
                                (λ _, ret results)))
                     (λ results', bind (sleep GEOCODE_DELAY_SECONDS)
                        (λ _, geocode_loop float rest results'))) w).
  { unfold needs_geocoding in Hneeds. simpl.
    destruct (lat loc), (lng loc); done. }
  rewrite Hgo. unfold bind, try_except, log, sleep, record. cbv beta.
  assert (Hlogs : ∀ w0 w1 k lvl1 fmt1 lvl2 fmt2,
            w0 = World (net w) (sent w) (trace w ++ [Logged lvl1 fmt1]) →
            attempts w0 w1 k (GetNominatim (address loc)) →
            attempts w (after w1 [Logged lvl2 fmt2]) k (GetNominatim (address loc))).
  { intros w0 w1 k lvl1 fmt1 lvl2 fmt2 -> (Hn & Hs & new & Ht & Hact).
    repeat split; [done..|].
    exists ([Logged lvl1 fmt1] ++ new ++ [Logged lvl2 fmt2]).
    split; [simpl in *; rewrite Ht; by rewrite <- !app_assoc|].
    rewrite !actions_app, Hact. simpl. by rewrite app_nil_r. }
  destruct (answer float (net w (sent w))) as [ll|] eqn:Hans.
  - match goal with
    | |- context [geocode_address float (address loc) ?w0] =>
        destruct (LocationFacts.geocode_address_first float (address loc) w0 ll Hans)
          as (w1 & Hrun & Hran)
    end.
    rewrite Hrun.
    exists (results ++ [Located (id loc) (name loc) ll.1 ll.2]),
      (after w1 [Logged INFO " -> lat=%s, lng=%s"]), 1%nat.
    split; [reflexivity|]. split; [lia|].
    split; [eapply Hlogs; [reflexivity|]; by eapply ran_attempts|].
    split; [right; by exists ll|].
    intros latlng [= <-]. split; [done|].
    eapply (ran_trans _ _ _ 0 1 [] [_]); [|eapply (ran_trans _ _ _ 1 0 [_] []);
                                            [exact Hran|ran_done]].
    ran_done.
  - match goal with
    | |- context [geocode_address float (address loc) ?w0] =>
        destruct (geocode_address_bounded (address loc) w0)
          as (o & w1 & k & Hrun & Hk & Ha & Hs)
    end.
    rewrite Hrun. destruct o as [latlng|e| |]; try done.
    + exists (results ++ [Located (id loc) (name loc) latlng.1 latlng.2]),
        (after w1 [Logged INFO " -> lat=%s, lng=%s"]), k.
      split; [reflexivity|]. split; [done|].
      split; [by eapply Hlogs|]. split; [right; by exists latlng|done].
    + exists results, (after w1 [Logged ERROR "FAILED geocoding '%s' (%s): %s"]), k.
      split; [reflexivity|]. split; [done|].
      split; [by eapply Hlogs|]. split; [by left|done].
Qed.

(** C10. A complete row whose [lat] or [lng] cell has text that is
    not a number is kept by [load_locations_from_csv]: the warning is
    logged and the coordinate is [None] in the record.  The
    coordinate loop then treats the record as it treats one without
    coordinates and geocodes it from its address: it sends between
    one and three requests for this very address, sleeps the delay,
    and stores the entry with the coordinates the geocoder gave;
    on its own in the list, with a first answer that has
    coordinates, the record makes the whole result. *)
Theorem unparsable_coordinate_is_geocoded csv w row :
  "id" ∈ fieldnames csv → "name" ∈ fieldnames csv → "address" ∈ fieldnames csv →
  row ∈ rows csv → complete row →
  unparsable float (bool_decide ("lat" ∈ fieldnames csv)) row "lat"
  ∨ unparsable float (bool_decide ("lng" ∈ fieldnames csv)) row "lng" →
  ∃ locations w' new la ln,
    let loc := Location (strip (or_empty (row !! "id")))
                 (strip (or_empty (row !! "name")))
                 (strip (or_empty (row !! "address"))) la ln in
    load_locations_from_csv float csv w = (Return locations, w')
    ∧ sent w' = sent w ∧ trace w' = trace w ++ new
    ∧ loc ∈ locations
    ∧ (unparsable float (bool_decide ("lat" ∈ fieldnames csv)) row "lat" →
       la = None ∧ invalid_lat_warning ∈ new)
    ∧ (unparsable float (bool_decide ("lng" ∈ fieldnames csv)) row "lng" →
       ln = None ∧ invalid_lng_warning ∈ new)
    ∧ (∀ rest results w2,
         geocode_loop float (loc :: rest) results w2 =
         geocode_loop float
           (Location (strip (or_empty (row !! "id")))
              (strip (or_empty (row !! "name")))
              (strip (or_empty (row !! "address"))) None None :: rest) results w2)
    ∧ (∀ rest results w2,
         ∃ results' w3 k,
           geocode_loop float (loc :: rest) results w2
             = geocode_loop float rest results'
                 (after w3 [Slept GEOCODE_DELAY_SECONDS])
           ∧ (1 ≤ k ≤ 3)%nat
           ∧ attempts w2 w3 k (GetNominatim (strip (or_empty (row !! "address"))))
           ∧ (∀ latlng, answer float (net w2 (sent w2)) = Some latlng →
                results' = results
                           ++ [Located (strip (or_empty (row !! "id")))
                                 (strip (or_empty (row !! "name")))
                                 latlng.1 latlng.2]))
    ∧ (∀ w2 latlng,
         answer float (net w2 (sent w2)) = Some latlng →
         ∃ w3, geocode_locations float [loc] w2
                 = (Return [Located (strip (or_empty (row !! "id")))
                              (strip (or_empty (row !! "name")))
                              latlng.1 latlng.2], w3)
               ∧ ran w2 w3 1 [Act (GetNominatim (strip (or_empty (row !! "address"))));
                              Slept GEOCODE_DELAY_SECONDS]).
Proof.
  intros Hid Hname Haddr Hin Hrow Hbad.
  set (has_lat := bool_decide ("lat" ∈ fieldnames csv)) in *.
  set (has_lng := bool_decide ("lng" ∈ fieldnames csv)) in *.
  destruct (LocationFacts.load_rows_keeps float has_lat has_lng (rows csv) row
              Hin Hrow [] w)
    as (out & w1 & new & Hrun & Hnet & Hsent & Ht & He & Hloc & Hlat & Hlng).
  assert (Hnone : ∀ has col, unparsable float has row col →
                             parse_cell float has row col = None).
  { intros has col (-> & Htruthy & Hfloat). unfold parse_cell.
    by rewrite Htruthy. }
  assert (Habsent : parse_cell float has_lat row "lat" = None
                    ∨ parse_cell float has_lng row "lng" = None).
  { destruct Hbad as [H|H]; [left|right]; by apply Hnone. }
  set (la := parse_cell float has_lat row "lat") in *.
  set (ln := parse_cell float has_lng row "lng") in *.
  assert (Hneeds : needs_geocoding
                     (Location (strip (or_empty (row !! "id")))
                        (strip (or_empty (row !! "name")))
                        (strip (or_empty (row !! "address"))) la ln) = true).
  { unfold needs_geocoding. simpl. destruct Habsent as [-> | ->]; [done|].
    by destruct la. }
  exists out, (after w1 [Logged INFO "Loaded %d location(s) from CSV"]),
    (new ++ [Logged INFO "Loaded %d location(s) from CSV"]), la, ln.
  cbv zeta. split.
  { unfold load_locations_from_csv. cbv [List.filter].
    rewrite (bool_decide_true _ Hid), (bool_decide_true _ Hname),
      (bool_decide_true _ Haddr). simpl.
    fold has_lat has_lng. unfold bind. by rewrite Hrun. }
  split; [done|]. split; [simpl; by rewrite Ht, app_assoc|].
  split; [done|].
  split.
  { intros H. split; [by apply Hnone|]. apply elem_of_app. left. by apply Hlat. }
  split.
  { intros H. split; [by apply Hnone|]. apply elem_of_app. left. by apply Hlng. }
  split.
  { intros rest results w2. by apply LocationFacts.geocode_loop_absent. }
  split.
  - intros rest results w2.
    destruct (geocode_loop_geocodes _ rest results w2 Hneeds)
      as (results' & w3 & k & Hstep & Hk & Ha & _ & Hfirst).
    exists results', w3, k. split; [done|]. split; [done|]. split; [done|].
    intros latlng Hans. by destruct (Hfirst latlng Hans).
  - intros w2 latlng Hans.
    destruct (geocode_loop_geocodes _ [] [] w2 Hneeds)
      as (results' & w3 & k & Hstep & _ & _ & _ & Hfirst).
    destruct (Hfirst latlng Hans) as [-> Hran].
    eexists. split.
    + unfold geocode_locations, bind. rewrite Hstep. reflexivity.
    + eapply (ran_trans _ _ _ 1 0 [_] [_]); [exact Hran|ran_done].
Qed.

Section Run.

Context (finite : coord → bool).

(** *** The POST loop *)

Lemma post_all_requests (locs : list (@located coord)) w :
∃ w' new ks,
  post_all finite locs w = (Return tt, w')
  ∧ net w' = net w ∧ sent w' = (sent w + sum_list ks)%nat
  ∧ trace w' = trace w ++ new
  ∧ Forall2 (λ k loc, if encodable finite loc then (1 ≤ k ≤ 3)%nat
                      else k = 0%nat) ks locs
  ∧ actions new
    = concat (zip_with (λ k loc, replicate k (PostLocation loc)) ks locs).
Proof.
revert w. induction locs as [|loc rest IH]; intros w.
- exists w, [], []. simpl. rewrite app_nil_r.
  repeat split; [lia|constructor].
- destruct (post_bounded finite loc w)
    as (o & w1 & k & Hrun & Hk & (Hnet1 & Hsent1 & new1 & Ht1 & Ha1) & Hs).
  assert (Hnext : ∃ w1' extra,
            post_all finite (loc :: rest) w = post_all finite rest w1'
            ∧ net w1' = net w1 ∧ sent w1' = sent w1
            ∧ trace w1' = trace w1 ++ extra ∧ actions extra = []).
  { simpl. unfold bind, try_except, log, record. rewrite Hrun.
    destruct o as [[]|e| |]; try done.
    - exists w1, []. by rewrite app_nil_r.
    - by eexists _, [_]. }
  destruct Hnext as (w1' & extra & Hstep & Hnet1' & Hsent1' & Ht1' & Ha1').
  destruct (IH w1') as (w2 & new2 & ks & Hrest & Hnet2 & Hsent2 & Ht2 & Hks & Ha2).
  exists w2, (new1 ++ extra ++ new2), (k :: ks).
  split; [by rewrite Hstep|]. split; [congruence|].
  split; [simpl; lia|].
  split; [by rewrite Ht2, Ht1', Ht1, <- !app_assoc|].
  split; [by constructor|].
  simpl. by rewrite !actions_app, Ha1, Ha1', Ha2.
Qed.

(** Against a remote side that answers every request below 400,
  each location is posted once. *)
Lemma post_all_success (locs : list (@located coord)) w :
Forall (λ loc, encodable finite loc = true) locs →
(∀ n, ∃ status b, net w n = Reply status b ∧ status < 400) →
∃ w', post_all finite locs w = (Return tt, w')
      ∧ ran w w' (length locs) ((λ loc, Act (PostLocation loc)) <$> locs).
Proof.
intros Hall. revert w. induction Hall as [|loc rest Henc _ IH]; intros w Hnet.
- exists w. split; [done|apply ran_refl].
- destruct (Hnet (sent w)) as (status & b & Hn & Hs).
  destruct (post_success finite loc w status b Henc Hn Hs)
    as (w1 & Hpost & Hran1).
  destruct (IH w1) as (w2 & Hrest & Hran2).
  { destruct Hran1 as (-> & _). exact Hnet. }
  exists w2. split.
  + simpl. unfold bind, try_except. by rewrite Hpost.
  + apply (ran_trans _ _ _ 1 (length rest) [_] _ Hran1 Hran2).
Qed.

(** *** The whole run *)

Lemma main_cases dry_run out csv w :
∃ o w', main float finite dry_run out csv w = (o, w') ∧
  (((has_required csv = false ∨ locations_of float csv = [])
    ∧ o = SysExit 1 ∧ ran w w' 0 [])
   ∨ (has_required csv = true ∧ locations_of float csv ≠ []
      ∧ ∃ w1 w2 results,
          ran w w1 0 []
          ∧ geocode_locations float (locations_of float csv) w1
            = (Return results, w2)
          ∧ ((results = [] ∧ o = SysExit 1 ∧ ran w2 w' 0 [])
             ∨ (results ≠ [] ∧ dry_run = true ∧ o = Return tt
                ∧ ran w2 w' 0 [Act (WritePayload out results)])
             ∨ (results ≠ [] ∧ dry_run = false ∧ o = Return tt
                ∧ ∃ w3 w4, ran w2 w3 0 [] ∧ post_all finite results w3 = (Return tt, w4)
                           ∧ ran w4 w' 0 [])))).
Proof.
assert (Hstart : ∃ w0, ran w w0 0 [] ∧
          main float finite dry_run out csv w =
          try_except
            (bind (load_locations_from_csv float csv)
               (λ locs_raw,
                  match locs_raw with
                  | [] => bind (log ERROR "No valid locations found in CSV. Exiting.")
                            (λ _, sys_exit 1)
                  | _ :: _ =>
                      bind (geocode_locations float locs_raw)
                        (λ locs_with_coords,
                           match locs_with_coords with
                           | [] =>
                               bind (log ERROR
                                 "No locations successfully prepared with coordinates. Exiting.")
                                 (λ _, sys_exit 1)
                           | _ :: _ =>
                               bind (log INFO "Final JSON payload:\n%s")
                                 (λ _,
                                    if dry_run then
                                      bind (emit (WritePayload out locs_with_coords))
                                        (λ _, bind (log INFO
                                           "Dry run: payload written to %s")
                                           (λ _, log INFO
                                              "Dry run complete. Skipping POST to Forward Networks."))
                                    else main_post finite locs_with_coords)
                           end)
                  end))
            (λ _, bind (log ERROR "Fatal error: %s") (λ _, sys_exit 1)) w0).
{ destruct dry_run; (eexists; split; [|reflexivity]); ran_done. }
destruct Hstart as (w0 & Hran0 & ->).
destruct (load_locations_spec csv w0) as [Hmissing Hpresent].
destruct (has_required csv) eqn:Hreq.
2: { eexists _, _. split.
     { unfold try_except, bind. rewrite Hmissing by done. reflexivity. }
     left. split; [by left|]. split; [done|].
     eapply (ran_trans _ _ _ 0 0 [] []); [exact Hran0|ran_done]. }
destruct Hpresent as (w1 & Hload & Hran1); [done|].
pose proof (ran_trans _ _ _ 0 0 [] [] Hran0 Hran1) as Hran01. simpl in Hran01.
unfold try_except, bind at 1. rewrite Hload.
destruct (locations_of float csv) as [|l0 raw] eqn:Hraw.
{ eexists _, _. split; [reflexivity|]. left. split; [by right|].
  split; [done|]. eapply (ran_trans _ _ _ 0 0 [] []); [exact Hran01|ran_done]. }
destruct (geocode_locations_results (l0 :: raw) w1)
  as (results & w2 & Hgeo & _).
unfold bind at 1. rewrite Hgeo.
destruct results as [|r0 results].
{ eexists _, _. split; [reflexivity|]. right. split; [done|]. split; [done|].
  exists w1, w2, []. split; [done|]. split; [done|].
  left. split; [done|]. split; [done|]. ran_done. }
destruct dry_run.
- eexists _, _. split; [reflexivity|]. right. split; [done|]. split; [done|].
  exists w1, w2, (r0 :: results). split; [done|]. split; [done|].
  right. left. split; [done|]. split; [done|]. split; [done|]. ran_done.
- unfold bind at 1, log at 1, record. unfold main_post, bind, log, record.
  match goal with
  | |- context [post_all finite (r0 :: results) ?w3] =>
      destruct (post_all_requests (r0 :: results) w3)
        as (w4 & new & ks & Hpost & _);
      rewrite Hpost;
      eexists _, _; split; [reflexivity|]; right;
      split; [done|]; split; [done|];
      exists w1, w2, (r0 :: results); split; [done|]; split; [done|];
      right; right; split; [done|]; split; [done|]; split; [done|];
      exists w3, w4; split; [ran_done|]; split; [done|ran_done]
  end.
Qed.

Lemma geocoding_only_no_post (e : event (@action coord)) :
geocoding_only e → no_post e.
Proof. destruct e as [[]| |]; done. Qed.

(** The coordinate loop of a run, from the equation [main_cases]
  gives for it. *)
Lemma geocode_locations_grows locs w1 results w2 :
geocode_locations float locs w1 = (Return results, w2) →
grows geocoding_only w1 w2.
Proof.
intros Hgeo.
destruct (geocode_locations_results locs w1) as (r & w' & Hgeo' & _ & _ & Hg & _).
rewrite Hgeo in Hgeo'. by injection Hgeo' as -> ->.
Qed.

(** X20. A file without one of the required columns, or without a
  single complete row, ends the run with status 1 before any
  request is sent. *)
Theorem unusable_file_aborts_location_run dry_run out csv w :
has_required csv = false ∨ locations_of float csv = [] →
∃ w', main float finite dry_run out csv w = (SysExit 1, w') ∧ ran w w' 0 [].
Proof.
intros Hbad.
destruct (main_cases dry_run out csv w) as (o & w' & Hmain & Hcases).
destruct Hcases as [(_ & -> & Hran) | (Hreq & Hne & _)].
- by exists w'.
- destruct Hbad; congruence.
Qed.

(** X21. A run that ends with status 1 has posted nothing: every
  [sys.exit(1)] of [main] comes before the POST loop, and no
  failure of a POST call reaches the handler of fatal errors. *)
Theorem exit_1_means_nothing_posted dry_run out csv w w' :
main float finite dry_run out csv w = (SysExit 1, w') →
grows no_post w w'.
Proof.
intros Hexit.
destruct (main_cases dry_run out csv w) as (o & w0 & Hmain & Hcases).
rewrite Hexit in Hmain. injection Hmain as <- <-.
eapply grows_weaken; [apply geocoding_only_no_post|].
destruct Hcases
  as [(_ & _ & Hran)
     | (_ & _ & w1 & w2 & results & Hran1 & Hgeo &
        [(_ & _ & Hran2) | [(_ & _ & ? & _) | (_ & _ & ? & _)]])];
  [|idtac|done..].
- eapply ran_grows_ok; [apply geocoding_only_log| |exact Hran]. done.
- eapply grows_trans;
    [eapply ran_grows_ok; [apply geocoding_only_log| |exact Hran1]; done|].
  eapply grows_trans; [by eapply geocode_locations_grows|].
  eapply ran_grows_ok; [apply geocoding_only_log| |exact Hran2]. done.
Qed.

(** X22. The POST loop of [main] returns whatever the calls do, and
  it takes the prepared locations in order: for each one whose
  payload can be encoded it sends between one and three POST
  requests of that location, even when the calls before it
  failed, and for one whose payload cannot be encoded (a
  coordinate that is nan or infinite) it sends nothing. *)
Theorem every_location_is_posted (locs : list (@located coord)) w :
∃ w' new ks,
  main_post finite locs w = (Return tt, w')
  ∧ sent w' = (sent w + sum_list ks)%nat
  ∧ trace w' = trace w ++ new
  ∧ Forall2 (λ k loc, if encodable finite loc then (1 ≤ k ≤ 3)%nat
                      else k = 0%nat) ks locs
  ∧ actions new
    = concat (zip_with (λ k loc, replicate k (PostLocation loc)) ks locs).
Proof.
unfold main_post, bind, log, record.
match goal with
| |- context [post_all finite locs ?w0] =>
    destruct (post_all_requests locs w0)
      as (w1 & new & ks & Hpost & Hnet & Hsent & Ht & Hks & Ha)
end.
rewrite Hpost.
eexists _, ([Logged INFO "Posting %d location(s) individually to %s"] ++ new
            ++ [Logged INFO "All POST attempts completed."]), ks.
split; [reflexivity|]. split; [done|].
split; [simpl; rewrite Ht; simpl; by rewrite <- !app_assoc|].
split; [done|].
rewrite !actions_app, Ha. simpl. by rewrite app_nil_r.
Qed.

(** X23. A dry run posts nothing, whatever the file and the answers
  of the geocoder; when it returns it has written the payload
  file. *)
Theorem location_dry_run_posts_nothing out csv w :
∃ o w', main float finite true out csv w = (o, w') ∧ grows no_post w w'
        ∧ (o = Return tt →
           ∃ new payload, trace w' = trace w ++ new
                          ∧ Act (WritePayload out payload) ∈ new).
Proof.
destruct (main_cases true out csv w) as (o & w' & Hmain & Hcases).
exists o, w'. split; [done|].
assert (Hlog : ∀ lvl fmt, no_post (Logged lvl fmt : event (@action coord)))
  by done.
destruct Hcases
  as [(_ & -> & Hran)
     | (_ & _ & w1 & w2 & results & Hran1 & Hgeo &
        [(_ & -> & Hran2) | [(_ & _ & -> & Hran2) | (_ & ? & _)]])];
  [| | |done].
- split; [|done]. eapply ran_grows_ok; [apply Hlog| |exact Hran]. done.
- split; [|done].
  eapply grows_trans;
    [eapply ran_grows_ok; [apply Hlog| |exact Hran1]; done|].
  eapply grows_trans;
    [eapply grows_weaken; [apply geocoding_only_no_post|];
     by eapply geocode_locations_grows|].
  eapply ran_grows_ok; [apply Hlog| |exact Hran2]. done.
- pose proof (geocode_locations_grows _ _ _ _ Hgeo) as Hg. split.
  + eapply grows_trans;
      [eapply ran_grows_ok; [apply Hlog| |exact Hran1]; done|].
    eapply grows_trans;
      [eapply grows_weaken; [apply geocoding_only_no_post|exact Hg]|].
    eapply ran_grows_ok; [apply Hlog| |exact Hran2]. by repeat constructor.
  + intros _.
    destruct Hran1 as (_ & _ & new1 & Ht1 & _).
    destruct Hg as (_ & _ & new2 & Ht2 & _).
    destruct Hran2 as (_ & _ & new3 & Ht3 & He3).
    exists (new1 ++ new2 ++ new3), results.
    split; [by rewrite Ht3, Ht2, Ht1, <- !app_assoc|].
    apply elem_of_app. right. apply elem_of_app. right.
    assert (Hin : Act (WritePayload out results) ∈ effects new3)
      by (rewrite He3; apply list_elem_of_here).
    apply list_elem_of_In, filter_In in Hin as [Hin _].
    by apply list_elem_of_In.
Qed.

(** X24. No exception leaves [main]: whatever the file and the
  answers, the run ends by returning (status 0) or by
  [sys.exit(1)]. *)
Theorem location_run_ends_with_0_or_1 dry_run out csv w :
(main float finite dry_run out csv w).1 = Return tt
∨ (main float finite dry_run out csv w).1 = SysExit 1.
Proof.
destruct (main_cases dry_run out csv w) as (o & w' & Hmain & Hcases).
rewrite Hmain. simpl.
destruct Hcases
  as [(_ & -> & _)
     | (_ & _ & w1 & w2 & results & _ & _ &
        [(_ & -> & _) | [(_ & _ & -> & _) | (_ & _ & -> & _)]])];
  auto.
Qed.

(** X27. A file whose complete rows all carry their coordinates, all
  of them finite, run against a remote side that answers every
  request below 400: the run returns, and all it does besides
  logging is one POST per record, in the order of the file; no
  request goes to the geocoder and there is no delay. *)
Theorem supplied_file_is_posted_once out csv w :
has_required csv = true → locations_of float csv ≠ [] →
Forall (λ loc, needs_geocoding loc = false) (locations_of float csv) →
Forall (λ loc, encodable finite loc = true)
  (omap supplied (locations_of float csv)) →
(∀ n, ∃ status b, net w n = Reply status b ∧ status < 400) →
∃ w', main float finite false out csv w = (Return tt, w')
      ∧ ran w w' (length (locations_of float csv))
          ((λ loc, Act (PostLocation loc))
             <$> omap supplied (locations_of float csv)).
Proof.
intros Hreq Hne Hall Henc Hnet.
destruct (main_cases false out csv w) as (o & w' & Hmain & Hcases).
destruct Hcases as [([Hno | Hnil] & _) | (_ & _ & Hrun)]; [congruence..|].
destruct Hrun as (w1 & w2 & results & Hran1 & Hgeo & Hrest).
destruct (geocode_loop_supplied (locations_of float csv) [] w1 Hall)
  as (w2' & Hloop & Hran2).
simpl in Hloop. unfold geocode_locations, bind in Hgeo. rewrite Hloop in Hgeo.
injection Hgeo as <- <-.
assert (Hlen : length (omap supplied (locations_of float csv))
               = length (locations_of float csv)).
{ clear -Hall. induction Hall as [|loc rest Hloc _ IH]; [done|].
  cbn [omap list_omap]. unfold needs_geocoding in Hloc. unfold supplied at 1.
  destruct (lat loc), (lng loc); try done. simpl. by rewrite IH. }
destruct Hrest as [(Hnil & _) | [(_ & ? & _) | (_ & _ & -> & w3 & w4 & Hran3 & Hpost & Hran4)]];
  [|done|].
{ rewrite Hnil in Hlen. destruct (locations_of float csv); done. }
assert (Hran03 : ran w w3 0 []).
{ eapply (ran_trans _ _ _ 0 0 [] []); [exact Hran1|].
  eapply (ran_trans _ _ _ 0 0 [] []); [|exact Hran3].
  eapply (ran_trans _ _ _ 0 0 [] []); [exact Hran2|ran_done]. }
destruct (post_all_success (omap supplied (locations_of float csv)) w3 Henc)
  as (w4' & Hpost' & Hran34).
{ destruct Hran03 as (-> & _). exact Hnet. }
rewrite Hpost in Hpost'. injection Hpost' as <-.
exists w'. split; [done|]. rewrite Hlen in Hran34.
pose proof (ran_trans _ _ _ _ _ _ _ Hran03 Hran34) as Hran.
pose proof (ran_trans _ _ _ _ _ _ _ Hran Hran4) as Hfin.
simpl in Hfin. rewrite Nat.add_0_r, app_nil_r in Hfin. exact Hfin.
Qed.

(** X28. A location with a coordinate that is nan or infinite is
  never sent: [requests.post] cannot encode it, so the call goes
  through its three attempts with the delays 1 and 2 without a
  single request and raises, whatever the remote side would
  answer; the POST loop logs the failure and goes on with the next
  location. *)
Theorem unencodable_location_is_never_sent loc rest w :
encodable finite loc = false →
∃ w', post_single_location_to_forward finite loc w = (Raise ConnectionError, w')
      ∧ ran w w' 0 [Slept 1; Slept 2]
      ∧ post_all finite (loc :: rest) w
        = post_all finite rest
            (after w' [Logged ERROR "Failed to POST location id=%s: %s"]).
Proof.
intros Henc.
destruct (post_unencodable finite loc w Henc) as (w' & Hrun & Hran).
exists w'. split; [done|]. split; [done|].
simpl. unfold bind, try_except, log, record. by rewrite Hrun.
Qed.

End Run.

End Coordinates.

End LocationMore.

(** ** Both scripts, continued *)

(** X1. A mutation call whose first request is answered with a status
    below 400 returns after that one request and no delay: the PATCH of
    a device, the POST of a tag and the POST of a location alike (a
    location whose payload can be encoded, so that the request goes
    out). *)
Theorem answered_call_returns_at_once :
  (∀ device location_id (w : world DeviceLoader.action DeviceLoader.body) status b,
     net w (sent w) = Reply status b → status < 400 →
     ∃ w', DeviceLoader.patch_device_location device location_id false w
             = (Return tt, w')
           ∧ ran w w' 1 [Act (DeviceLoader.PatchAtlas device location_id)])
  ∧ (∀ device tag (w : world DeviceLoader.action DeviceLoader.body) status b,
       net w (sent w) = Reply status b → status < 400 →
       ∃ w', DeviceLoader.add_tag_to_device device tag false w = (Return tt, w')
             ∧ ran w w' 1 [Act (DeviceLoader.PostDeviceTags device tag)])
  ∧ (∀ (coord : Type) (finite : coord → bool)
       (loc : @LocationLocater.located coord)
       (w : world LocationLocater.action LocationLocater.body) status b,
       LocationLocater.encodable finite loc = true →
       net w (sent w) = Reply status b → status < 400 →
       ∃ w', LocationLocater.post_single_location_to_forward finite loc w = (Return tt, w')
             ∧ ran w w' 1 [Act (LocationLocater.PostLocation loc)]).
Proof.
  split; [|split].
  - apply DeviceMore.patch_success.
  - apply DeviceMore.tag_success.
  - intros coord. apply LocationMore.post_success.
Qed.

(** X2. A mutation call that gets no response on any attempt sends its
    request three times, sleeps 1 and 2 between the attempts and not
    after the third, and raises the network error. *)
Theorem unanswered_call_is_tried_three_times :
  (∀ device location_id (w : world DeviceLoader.action DeviceLoader.body),
     net w (sent w) = NoResponse →
     net w (sent w + 1)%nat = NoResponse →
     net w (sent w + 2)%nat = NoResponse →
     ∃ w', DeviceLoader.patch_device_location device location_id false w
             = (Raise ConnectionError, w')
           ∧ ran w w' 3 [Act (DeviceLoader.PatchAtlas device location_id); Slept 1;
                         Act (DeviceLoader.PatchAtlas device location_id); Slept 2;
                         Act (DeviceLoader.PatchAtlas device location_id)])
  ∧ (∀ device tag (w : world DeviceLoader.action DeviceLoader.body),
       net w (sent w) = NoResponse →
       net w (sent w + 1)%nat = NoResponse →
       net w (sent w + 2)%nat = NoResponse →
       ∃ w', DeviceLoader.add_tag_to_device device tag false w
               = (Raise ConnectionError, w')
             ∧ ran w w' 3 [Act (DeviceLoader.PostDeviceTags device tag); Slept 1;
                           Act (DeviceLoader.PostDeviceTags device tag); Slept 2;
                           Act (DeviceLoader.PostDeviceTags device tag)])
  ∧ (∀ (coord : Type) (finite : coord → bool)
       (loc : @LocationLocater.located coord)
       (w : world LocationLocater.action LocationLocater.body),
       LocationLocater.encodable finite loc = true →
       net w (sent w) = NoResponse →
       net w (sent w + 1)%nat = NoResponse →
       net w (sent w + 2)%nat = NoResponse →
       ∃ w', LocationLocater.post_single_location_to_forward finite loc w
               = (Raise ConnectionError, w')
             ∧ ran w w' 3 [Act (LocationLocater.PostLocation loc); Slept 1;
                           Act (LocationLocater.PostLocation loc); Slept 2;
                           Act (LocationLocater.PostLocation loc)]).
Proof.
  split; [|split].
  - apply DeviceMore.patch_no_response.
  - apply DeviceMore.tag_no_response.
  - intros coord. apply LocationMore.post_no_response.
Qed.

(** X3. A mutation call whose first attempt gets no response or a status
    from 500 to 599 and whose second is answered below 400 returns: two
    requests, the delay 1 between them, no error. *)
Theorem call_recovers_on_second_attempt :
  (∀ device location_id (w : world DeviceLoader.action DeviceLoader.body) status b,
     retryable (net w (sent w)) →
     net w (sent w + 1)%nat = Reply status b → status < 400 →
     ∃ w', DeviceLoader.patch_device_location device location_id false w
             = (Return tt, w')
           ∧ ran w w' 2 [Act (DeviceLoader.PatchAtlas device location_id); Slept 1;
                         Act (DeviceLoader.PatchAtlas device location_id)])
  ∧ (∀ device tag (w : world DeviceLoader.action DeviceLoader.body) status b,
       retryable (net w (sent w)) →
       net w (sent w + 1)%nat = Reply status b → status < 400 →
       ∃ w', DeviceLoader.add_tag_to_device device tag false w = (Return tt, w')
             ∧ ran w w' 2 [Act (DeviceLoader.PostDeviceTags device tag); Slept 1;
                           Act (DeviceLoader.PostDeviceTags device tag)])
  ∧ (∀ (coord : Type) (finite : coord → bool)
       (loc : @LocationLocater.located coord)
       (w : world LocationLocater.action LocationLocater.body) status b,
       LocationLocater.encodable finite loc = true →
       retryable (net w (sent w)) →
       net w (sent w + 1)%nat = Reply status b → status < 400 →
       ∃ w', LocationLocater.post_single_location_to_forward finite loc w = (Return tt, w')
             ∧ ran w w' 2 [Act (LocationLocater.PostLocation loc); Slept 1;
                           Act (LocationLocater.PostLocation loc)]).
Proof.
  split; [|split].
  - apply DeviceMore.patch_recovers.
  - apply DeviceMore.tag_recovers.
  - intros coord. apply LocationMore.post_recovers.
Qed.

(** X4. Whatever the remote side answers, a call with retries ends with
    a value or an exception after one, two or three requests, all of
    them its own request: the three mutation calls and the geocoding
    call never loop on and never send anything else.  The POST of a
    location sends none at all when its payload cannot be encoded. *)
Theorem remote_call_sends_one_to_three_requests :
  (∀ device location_id (w : world DeviceLoader.action DeviceLoader.body),
     ∃ o w' k, DeviceLoader.patch_device_location device location_id false w = (o, w')
               ∧ (1 ≤ k ≤ 3)%nat
               ∧ attempts w w' k (DeviceLoader.PatchAtlas device location_id)
               ∧ settled o)
  ∧ (∀ device tag (w : world DeviceLoader.action DeviceLoader.body),
       ∃ o w' k, DeviceLoader.add_tag_to_device device tag false w = (o, w')
                 ∧ (1 ≤ k ≤ 3)%nat
                 ∧ attempts w w' k (DeviceLoader.PostDeviceTags device tag)
                 ∧ settled o)
  ∧ (∀ (coord : Type) (finite : coord → bool)
       (loc : @LocationLocater.located coord)
       (w : world LocationLocater.action LocationLocater.body),
       ∃ o w' k, LocationLocater.post_single_location_to_forward finite loc w = (o, w')
                 ∧ (if LocationLocater.encodable finite loc then 1 ≤ k ≤ 3
                    else k = 0)%nat
                 ∧ attempts w w' k (LocationLocater.PostLocation loc)
                 ∧ settled o)
  ∧ (∀ (coord : Type) (float : string → option coord) address
       (w : world LocationLocater.action LocationLocater.body),
       ∃ o w' k, LocationLocater.geocode_address float address w = (o, w')
                 ∧ (1 ≤ k ≤ 3)%nat
                 ∧ attempts w w' k (LocationLocater.GetNominatim address)
                 ∧ settled o).
Proof.
  split; [|split; [|split]].
  - apply DeviceMore.patch_bounded.
  - apply DeviceMore.tag_bounded.
  - intros coord. apply LocationMore.post_bounded.
  - intros coord. apply LocationMore.geocode_address_bounded.
Qed.

(** X5. A status of 600 or more is retried like a server error, but
    [raise_for_status] does not raise for it: after three such answers
    the mutation call has slept 1, 2 and 4 and returns without an error,
    as if the request had succeeded. *)
Theorem status_above_599_ends_without_error :
  (∀ device location_id (w : world DeviceLoader.action DeviceLoader.body)
     c1 b1 c2 b2 c3 b3,
     net w (sent w) = Reply c1 b1 → 600 ≤ c1 →
     net w (sent w + 1)%nat = Reply c2 b2 → 600 ≤ c2 →
     net w (sent w + 2)%nat = Reply c3 b3 → 600 ≤ c3 →
     ∃ w', DeviceLoader.patch_device_location device location_id false w
             = (Return tt, w')
           ∧ ran w w' 3 [Act (DeviceLoader.PatchAtlas device location_id); Slept 1;
                         Act (DeviceLoader.PatchAtlas device location_id); Slept 2;
                         Act (DeviceLoader.PatchAtlas device location_id); Slept 4])
  ∧ (∀ device tag (w : world DeviceLoader.action DeviceLoader.body)
       c1 b1 c2 b2 c3 b3,
       net w (sent w) = Reply c1 b1 → 600 ≤ c1 →
       net w (sent w + 1)%nat = Reply c2 b2 → 600 ≤ c2 →
       net w (sent w + 2)%nat = Reply c3 b3 → 600 ≤ c3 →
       ∃ w', DeviceLoader.add_tag_to_device device tag false w = (Return tt, w')
             ∧ ran w w' 3 [Act (DeviceLoader.PostDeviceTags device tag); Slept 1;
                           Act (DeviceLoader.PostDeviceTags device tag); Slept 2;
                           Act (DeviceLoader.PostDeviceTags device tag); Slept 4])
  ∧ (∀ (coord : Type) (finite : coord → bool)
       (loc : @LocationLocater.located coord)
       (w : world LocationLocater.action LocationLocater.body)
       c1 b1 c2 b2 c3 b3,
       LocationLocater.encodable finite loc = true →
       net w (sent w) = Reply c1 b1 → 600 ≤ c1 →
       net w (sent w + 1)%nat = Reply c2 b2 → 600 ≤ c2 →
       net w (sent w + 2)%nat = Reply c3 b3 → 600 ≤ c3 →
       ∃ w', LocationLocater.post_single_location_to_forward finite loc w = (Return tt, w')
             ∧ ran w w' 3 [Act (LocationLocater.PostLocation loc); Slept 1;
                           Act (LocationLocater.PostLocation loc); Slept 2;
                           Act (LocationLocater.PostLocation loc); Slept 4]).
Proof.
  split; [|split].
  - apply DeviceMore.patch_overflow.
  - apply DeviceMore.tag_overflow.
  - intros coord. apply LocationMore.post_overflow.
Qed.

(** ** The further properties on the sample inputs *)

Lemma answered_call_witness :
  (let w := start (always (Reply 200 DeviceLoader.Opaque)) in
   ∃ w', DeviceLoader.patch_device_location "sw1" "10" false w = (Return tt, w')
         ∧ ran w w' 1 [Act (DeviceLoader.PatchAtlas "sw1" "10")])
  ∧ (let w := start (always (Reply 204 DeviceLoader.Opaque)) in
     ∃ w', DeviceLoader.add_tag_to_device "sw1" "core" false w = (Return tt, w')
           ∧ ran w w' 1 [Act (DeviceLoader.PostDeviceTags "sw1" "core")])
  ∧ (let w := start (always (Reply 201 LocationLocater.Opaque)) in
     ∃ w', LocationLocater.post_single_location_to_forward finite_decimal hq_located w
             = (Return tt, w')
           ∧ ran w w' 1 [Act (LocationLocater.PostLocation hq_located)]).
Proof.
  destruct answered_call_returns_at_once as (Hpatch & Htag & Hpost).
  split; [|split]; intros w.
  - apply (Hpatch "sw1" "10" w 200 DeviceLoader.Opaque); [reflexivity|lia].
  - apply (Htag "sw1" "core" w 204 DeviceLoader.Opaque); [reflexivity|lia].
  - apply (Hpost Q finite_decimal hq_located w 201 LocationLocater.Opaque);
      [reflexivity|reflexivity|lia].
Defined.

Lemma no_response_witness :
  let w : world DeviceLoader.action DeviceLoader.body := start (always NoResponse) in
  ∃ w', DeviceLoader.patch_device_location "sw1" "10" false w
          = (Raise ConnectionError, w')
        ∧ ran w w' 3 [Act (DeviceLoader.PatchAtlas "sw1" "10"); Slept 1;
                      Act (DeviceLoader.PatchAtlas "sw1" "10"); Slept 2;
                      Act (DeviceLoader.PatchAtlas "sw1" "10")].
Proof.
  intros w.
  apply (proj1 unanswered_call_is_tried_three_times "sw1" "10" w); reflexivity.
Defined.

Lemma call_recovers_witness :
  let w := start (answers [Reply 503 LocationLocater.Opaque]
                    (Reply 200 LocationLocater.Opaque)) in
  ∃ w', LocationLocater.post_single_location_to_forward finite_decimal hq_located w = (Return tt, w')
        ∧ ran w w' 2 [Act (LocationLocater.PostLocation hq_located); Slept 1;
                      Act (LocationLocater.PostLocation hq_located)].
Proof.
  intros w.
  apply (proj2 (proj2 call_recovers_on_second_attempt) Q finite_decimal hq_located w
           200 LocationLocater.Opaque).
  - reflexivity.
  - change (500 ≤ 503 < 600). lia.
  - reflexivity.
  - lia.
Defined.

Lemma status_above_599_witness :
  let w := start (always (Reply 600 DeviceLoader.Opaque)) in
  ∃ w', DeviceLoader.add_tag_to_device "sw1" "core" false w = (Return tt, w')
        ∧ ran w w' 3 [Act (DeviceLoader.PostDeviceTags "sw1" "core"); Slept 1;
                      Act (DeviceLoader.PostDeviceTags "sw1" "core"); Slept 2;
                      Act (DeviceLoader.PostDeviceTags "sw1" "core"); Slept 4].
Proof.
  intros w.
  apply (proj1 (proj2 status_above_599_ends_without_error) "sw1" "core" w
           600 DeviceLoader.Opaque 600 DeviceLoader.Opaque 600 DeviceLoader.Opaque);
    first [reflexivity|lia].
Defined.

Lemma ill_formed_file_witness :
  let w := start (always locations_reply) in
  ∃ w', DeviceLoader.main false bad_devices w = (SysExit 1, w') ∧ ran w w' 0 [].
Proof.
  intros w. apply DeviceRun.ill_formed_file_aborts_run. vm_compute. reflexivity.
Defined.

Lemma unusable_collection_witness :
  let w := start (always (Reply 200 (DeviceLoader.LocationList
                                       [DeviceLoader.RemoteLocation "" "Lab"]))) in
  ∃ w', DeviceLoader.main false good_devices w = (SysExit 1, w')
        ∧ ran w w' 1 [Act DeviceLoader.GetLocations].
Proof.
  intros w. apply DeviceRun.unusable_collection_aborts_run.
  - vm_compute. reflexivity.
  - right. repeat constructor.
Defined.

Lemma lookup_table_witness :
  let w : world DeviceLoader.action DeviceLoader.body :=
    start (always locations_reply) in
  ∃ status data,
    net w (sent w) = Reply status (DeviceLoader.LocationList data)
    ∧ (∀ key i, sample_table !! key = Some i →
                ∃ loc, loc ∈ data ∧ DeviceLoader.registers loc = Some (key, i))
    ∧ (∀ loc key i, loc ∈ data → DeviceLoader.registers loc = Some (key, i) →
                    ∀ name, lower name = key →
                            is_Some (DeviceLoader.resolve sample_table name)).
Proof.
  intros w.
  apply (DeviceRun.lookup_table_holds_the_collection w sample_table
           (DeviceLoader.fetch_location_lookup w).2).
  vm_compute. reflexivity.
Defined.

Lemma existing_tags_witness :
  let w : world DeviceLoader.action DeviceLoader.body :=
    start (always tags_reply) in
  ∃ status names,
    net w (sent w) = Reply status (DeviceLoader.TagList names)
    ∧ ¬ 400 ≤ status < 600
    ∧ ∀ t, t ∈ sample_tags ↔ ∃ n, n ∈ names ∧ truthy n = true ∧ t = lower (strip n).
Proof.
  intros w.
  apply (DeviceRun.existing_tags_are_lowercased w sample_tags
           (DeviceLoader.fetch_existing_tags w).2).
  vm_compute. reflexivity.
Defined.

Lemma unknown_location_witness :
  let w0 : world DeviceLoader.action DeviceLoader.body :=
    start (always locations_reply) in
  let w := start (always (Reply 200 DeviceLoader.Opaque)) in
  DeviceLoader.process_entries sample_table sample_tags false
    [DeviceLoader.Entry "sw9" "Attic" ""; DeviceLoader.Entry "sw2" "LAB" ""] 0 w =
  DeviceLoader.process_entries sample_table sample_tags false
    [DeviceLoader.Entry "sw2" "LAB" ""] (0 + 1)
    (after w [Logged ERROR "No location found matching name '%s' for device '%s'"]).
Proof.
  intros w0 w.
  apply (DeviceRun.unknown_location_counts_one_failure w0 sample_table
           (DeviceLoader.fetch_location_lookup w0).2 200 remote_locations).
  - vm_compute. reflexivity.
  - reflexivity.
  - intros loc i Hin.
    repeat (apply elem_of_cons in Hin as [-> | Hin]; [vm_compute; discriminate|]).
    inversion Hin.
  - discriminate.
Defined.

Lemma patched_then_tagged_witness :
  let w := start (always (Reply 200 DeviceLoader.Opaque)) in
  ∃ w', DeviceLoader.process_entries sample_table sample_tags false
          [DeviceLoader.Entry "sw1" "Head Office" "core"] 0 w
        = DeviceLoader.process_entries sample_table sample_tags false [] 0 w'
        ∧ ran w w' 2 [Act (DeviceLoader.PatchAtlas "sw1" "10");
                      Act (DeviceLoader.PostDeviceTags "sw1" "core")].
Proof.
  intros w.
  refine (proj2 (DeviceRun.record_is_patched_then_tagged sample_table sample_tags
                   (DeviceLoader.Entry "sw1" "Head Office" "core") [] 0 w "10"
                   200 DeviceLoader.Opaque _ _ _ _)
            _ 200 DeviceLoader.Opaque _ _).
  - intros _. apply (bool_decide_unpack _). vm_compute. exact I.
  - vm_compute. reflexivity.
  - reflexivity.
  - lia.
  - reflexivity.
  - reflexivity.
  - lia.
Defined.

Lemma refused_tag_witness :
  let w := start (answers [Reply 200 DeviceLoader.Opaque]
                    (Reply 404 DeviceLoader.Opaque)) in
  ∃ w', DeviceLoader.process_entries sample_table sample_tags false
          [DeviceLoader.Entry "sw1" "Head Office" "core";
           DeviceLoader.Entry "sw2" "LAB" ""] 0 w
        = DeviceLoader.process_entries sample_table sample_tags false
            [DeviceLoader.Entry "sw2" "LAB" ""] (0 + 1) w'
        ∧ ran w w' 2 [Act (DeviceLoader.PatchAtlas "sw1" "10");
                      Act (DeviceLoader.PostDeviceTags "sw1" "core")].
Proof.
  intros w.
  apply (DeviceRun.refused_tag_leaves_the_patch sample_table sample_tags
           (DeviceLoader.Entry "sw1" "Head Office" "core")
           [DeviceLoader.Entry "sw2" "LAB" ""] 0 w "10"
           200 DeviceLoader.Opaque 404 DeviceLoader.Opaque).
  - reflexivity.
  - apply (bool_decide_unpack _). vm_compute. exact I.
  - vm_compute. reflexivity.
  - reflexivity.
  - lia.
  - reflexivity.
  - lia.
Defined.

Lemma untagged_file_witness :
  let csv := CsvFile ["device"; "location"] [row_sw2] in
  let w := start (always locations_reply) in
  ∃ o w', DeviceLoader.main false csv w = (o, w')
          ∧ grows DeviceLoader.no_tag_request w w'.
Proof.
  intros csv w. apply DeviceRun.untagged_file_never_asks_for_tags.
  let v := eval vm_compute in (DeviceLoader.entries_of csv) in
  change (DeviceLoader.entries_of csv) with v.
  repeat constructor.
Defined.

Lemma geocoding_recovers_witness :
  let w := start (answers [not_found] found) in
  ∃ w', LocationLocater.geocode_address decimal "2 Side St" w
          = (Return (4885 # 100, 235 # 100)%Q, w')
        ∧ ran w w' 2 [Act (LocationLocater.GetNominatim "2 Side St"); Slept 1;
                      Act (LocationLocater.GetNominatim "2 Side St")].
Proof.
  intros w.
  apply (proj1 (LocationMore.geocoding_recovers_after_failures decimal "2 Side St" w
                  (4885 # 100, 235 # 100)%Q eq_refl)).
  reflexivity.
Defined.

Lemma supplied_file_witness :
  let w := start (always found) in
  ∃ w', LocationLocater.geocode_locations decimal [hq] w
          = (Return (omap LocationLocater.supplied [hq]), w')
        ∧ length (omap LocationLocater.supplied [hq]) = length [hq]
        ∧ ran w w' 0 [].
Proof.
  intros w. apply LocationMore.supplied_file_needs_no_geocoder.
  repeat constructor.
Defined.

Lemma location_file_witness :
  let csv := CsvFile location_header [row_hq; row_lab] in
  let w := start (always found) in
  ∃ w', LocationLocater.load_locations_from_csv decimal csv w
          = (Return (LocationLocater.locations_of decimal csv), w')
        ∧ ran w w' 0 [].
Proof.
  intros csv w.
  apply (proj2 (LocationMore.location_file_loads_complete_rows decimal csv w)).
  vm_compute. reflexivity.
Defined.

Lemma unusable_file_witness :
  let csv := CsvFile ["id"; "name"] [row_hq] in
  let w := start (always found) in
  ∃ w', LocationLocater.main decimal finite_decimal false "out.json" csv w = (SysExit 1, w')
        ∧ ran w w' 0 [].
Proof.
  intros csv w. apply LocationMore.unusable_file_aborts_location_run.
  left. vm_compute. reflexivity.
Defined.

Lemma exit_1_witness :
  let csv := CsvFile location_header [row_lab] in
  let w := start (always not_found) in
  grows LocationLocater.no_post w
    (LocationLocater.main decimal finite_decimal false "out.json" csv w).2.
Proof.
  intros csv w.
  apply (LocationMore.exit_1_means_nothing_posted decimal finite_decimal false "out.json" csv w).
  vm_compute. reflexivity.
Defined.

Lemma location_dry_run_witness :
  let csv := CsvFile location_header [row_hq; row_lab] in
  let w := start (always found) in
  ∃ o w', LocationLocater.main decimal finite_decimal true "out.json" csv w = (o, w')
          ∧ grows LocationLocater.no_post w w'
          ∧ (o = Return tt →
             ∃ new payload, trace w' = trace w ++ new
                            ∧ Act (LocationLocater.WritePayload "out.json" payload) ∈ new).
Proof.
  intros csv w. apply LocationMore.location_dry_run_posts_nothing.
Defined.

Lemma all_records_witness :
  let w := start (always (Reply 200 DeviceLoader.Opaque)) in
  ∃ w', DeviceLoader.process_entries sample_table sample_tags false
          [DeviceLoader.Entry "sw1" "Head Office" "core";
           DeviceLoader.Entry "sw2" "LAB" ""] 0 w = (Return 0, w')
        ∧ ran w w' 3 [Act (DeviceLoader.PatchAtlas "sw1" "10");
                      Act (DeviceLoader.PostDeviceTags "sw1" "core");
                      Act (DeviceLoader.PatchAtlas "sw2" "21")].
Proof.
  intros w.
  apply (DeviceRun.all_records_are_updated_in_order sample_table sample_tags
           [DeviceLoader.Entry "sw1" "Head Office" "core";
            DeviceLoader.Entry "sw2" "LAB" ""] 0 w).
  - apply List.Forall_cons; [split|apply List.Forall_cons; [split|apply List.Forall_nil]].
    + intros _. apply (bool_decide_unpack _). vm_compute. exact I.
    + exists "10". vm_compute. reflexivity.
    + discriminate.
    + exists "21". vm_compute. reflexivity.
  - intros n. exists 200, DeviceLoader.Opaque. split; [|lia].
    destruct n; reflexivity.
Defined.

Lemma supplied_file_posted_witness :
  let csv := CsvFile location_header [row_hq] in
  let w := start (always (Reply 201 LocationLocater.Opaque)) in
  ∃ w', LocationLocater.main decimal finite_decimal false "out.json" csv w = (Return tt, w')
        ∧ ran w w' 1 [Act (LocationLocater.PostLocation hq_located)].
Proof.
  intros csv w.
  apply (LocationMore.supplied_file_is_posted_once decimal finite_decimal "out.json" csv w).
  - vm_compute. reflexivity.
  - vm_compute. discriminate.
  - let v := eval vm_compute in (LocationLocater.locations_of decimal csv) in
    change (LocationLocater.locations_of decimal csv) with v.
    repeat constructor.
  - let v := eval vm_compute in (LocationLocater.locations_of decimal csv) in
    change (LocationLocater.locations_of decimal csv) with v.
    repeat constructor.
  - intros n. exists 201, LocationLocater.Opaque. split; [|lia].
    destruct n; reflexivity.
Defined.

Lemma unparsable_coordinate_witness :
  let csv := CsvFile location_header [row_hq; row_depot] in
  let w : world LocationLocater.action LocationLocater.body := start (always found) in
  ∃ locations w' new la ln,
    let loc := LocationLocater.Location (strip (or_empty (row_depot !! "id")))
                 (strip (or_empty (row_depot !! "name")))
                 (strip (or_empty (row_depot !! "address"))) la ln in
    LocationLocater.load_locations_from_csv decimal csv w = (Return locations, w')
    ∧ sent w' = sent w ∧ trace w' = trace w ++ new
    ∧ loc ∈ locations
    ∧ (LocationLocater.unparsable decimal (bool_decide ("lat" ∈ fieldnames csv))
         row_depot "lat" →
       la = None ∧ LocationLocater.invalid_lat_warning ∈ new)
    ∧ (LocationLocater.unparsable decimal (bool_decide ("lng" ∈ fieldnames csv))
         row_depot "lng" →
       ln = None ∧ LocationLocater.invalid_lng_warning ∈ new)
    ∧ (∀ rest results w2,
         LocationLocater.geocode_loop decimal (loc :: rest) results w2 =
         LocationLocater.geocode_loop decimal
           (LocationLocater.Location (strip (or_empty (row_depot !! "id")))
              (strip (or_empty (row_depot !! "name")))
              (strip (or_empty (row_depot !! "address"))) None None :: rest)
           results w2)
    ∧ (∀ rest results w2,
         ∃ results' w3 k,
           LocationLocater.geocode_loop decimal (loc :: rest) results w2
             = LocationLocater.geocode_loop decimal rest results'
                 (after w3 [Slept LocationLocater.GEOCODE_DELAY_SECONDS])
           ∧ (1 ≤ k ≤ 3)%nat
           ∧ attempts w2 w3 k
               (LocationLocater.GetNominatim (strip (or_empty (row_depot !! "address"))))
           ∧ (∀ latlng,
                LocationLocater.answer decimal (net w2 (sent w2)) = Some latlng →
                results' = results
                           ++ [LocationLocater.Located
                                 (strip (or_empty (row_depot !! "id")))
                                 (strip (or_empty (row_depot !! "name")))
                                 latlng.1 latlng.2]))
    ∧ (∀ w2 latlng,
         LocationLocater.answer decimal (net w2 (sent w2)) = Some latlng →
         ∃ w3, LocationLocater.geocode_locations decimal [loc] w2
                 = (Return [LocationLocater.Located
                              (strip (or_empty (row_depot !! "id")))
                              (strip (or_empty (row_depot !! "name")))
                              latlng.1 latlng.2], w3)
               ∧ ran w2 w3 1
                   [Act (LocationLocater.GetNominatim
                           (strip (or_empty (row_depot !! "address"))));
                    Slept LocationLocater.GEOCODE_DELAY_SECONDS]).
Proof.
  intros csv w.
  apply (LocationMore.unparsable_coordinate_is_geocoded decimal csv w row_depot).
  - apply list_elem_of_here.
  - apply list_elem_of_further, list_elem_of_here.
  - apply list_elem_of_further, list_elem_of_further, list_elem_of_here.
  - apply list_elem_of_further, list_elem_of_here.
  - repeat split; reflexivity.
  - left. repeat split; reflexivity.
Defined.

Lemma unencodable_location_witness :
  let w := start (always (Reply 201 LocationLocater.Opaque)) in
  (∃ w', LocationLocater.post_single_location_to_forward isfinite pole_located w
           = (Raise ConnectionError, w')
         ∧ ran w w' 0 [Slept 1; Slept 2]
         ∧ LocationLocater.post_all isfinite [pole_located] w
           = LocationLocater.post_all isfinite []
               (after w' [Logged ERROR "Failed to POST location id=%s: %s"]))
  ∧ (let r := LocationLocater.main pyfloat_of isfinite false "out.json"
                (CsvFile location_header [row_pole]) w in
     r.1 = Return tt ∧ sent r.2 = 0%nat ∧ effects (trace r.2) = [Slept 1; Slept 2]).
Proof.
  intros w. split.
  - apply (LocationMore.unencodable_location_is_never_sent isfinite pole_located [] w).
    reflexivity.
  - vm_compute. repeat split.
Defined.
